(** * PongV5: a shallow embedding of the game loop and its key handler

    The program is a Tkinter Pong.  Its logic lives in two callbacks over a
    handful of module-level globals:

    - [ControlesJ1etJ2] (the [<Key>] binding) moves the paddles;
    - [bouboule] (re-armed every 50 ms with [canvas.after]) advances the ball,
      bounces it on the walls, counts goals and speeds it up on paddle hits.

    The globals hold Python numbers.  They start as [int]s, and the first
    paddle hit turns the velocity (and, one tick later, the position) into
    [float]s through [plusX*1.259].  Numbers are therefore modelled as a sum
    of unbounded integers and IEEE-754 binary64 values, the latter through
    the executable specification [SpecFloat] of the standard library.

    The canvas and the timer belong to Tk: [canvas.move], [canvas.coords]
    and [canvas.after] read the globals and change none.  Module [Pong]
    holds the globals alone; module [Screen] adds the three canvas items the
    callbacks redraw.  The two score labels are kept, as the text of their
    Tk variables. *)

From Stdlib Require Import ZArith Bool String Ascii List Lia.
From Stdlib Require Import Floats.SpecFloat.
From Stdlib Require Import DecimalString.
Import ListNotations.

Local Open Scope Z_scope.

(** ** binary64 *)

Module B64.

Definition prec : Z := 53.
Definition emax : Z := 1024.

Definition fadd : spec_float -> spec_float -> spec_float := SFadd prec emax.
Definition fmul : spec_float -> spec_float -> spec_float := SFmul prec emax.
Definition valid : spec_float -> bool := valid_binary prec emax.

Definition is_nan (f : spec_float) : bool :=
  match f with S754_nan => true | _ => false end.

(** [PyLong_AsDouble]: the nearest double, ties to even; an integer whose
    rounding leaves the finite range raises [OverflowError]. *)
Definition of_int (z : Z) : option spec_float :=
  match binary_normalize prec emax z 0 false with
  | S754_infinity _ => None
  | f => Some f
  end.

(** The literal [1.259], that is [0x1.424dd2f1a9fbep+0]. *)
Definition c1259 : spec_float := S754_finite false 5670031930859454 (-52).

(** Its mantissa: the double is [c1259_m / 2^52]. *)
Definition c1259_m : Z := 5670031930859454.

(** What [plusY*(-1)] multiplies a double by: [float(-1)]. *)
Definition minus_one : spec_float := S754_finite true 4503599627370496 (-52).

(** The second half of [binary_round_aux]: after the first shift and the
    rounding of the mantissa, a carry may call for one more shift before
    the result is classified. *)
Definition finish (sx : bool) (m : Z) (e : Z) : spec_float :=
  let '(mrs, e') := shr_fexp prec emax m e loc_Exact in
  match shr_m mrs with
  | Z0 => S754_zero sx
  | Zpos m => if e' <=? emax - prec then S754_finite sx m e' else S754_infinity sx
  | Zneg _ => S754_nan
  end.

(** Mixed comparison of a double with an integer is exact in Python:
    the double is never rounded and the integer never converted. *)
Definition cmp_int (f : spec_float) (k : Z) : option comparison :=
  match f with
  | S754_nan => None
  | S754_infinity s => Some (if s then Lt else Gt)
  | S754_zero _ => Some (0 ?= k)
  | S754_finite s m e =>
      let mz := cond_Zopp s (Zpos m) in
      Some match e with
           | Zneg p => mz ?= k * 2 ^ Zpos p
           | _ => mz * 2 ^ e ?= k
           end
  end.

End B64.

(** ** Python numbers *)

Module Py.

Inductive num : Type :=
| PInt (z : Z)
| PFloat (f : spec_float).

(** Exceptions: [None] stands for a raised [OverflowError]. *)
Definition bind {A B : Type} (m : option A) (k : A -> option B) : option B :=
  match m with
  | Some a => k a
  | None => None
  end.

Definition to_float (n : num) : option spec_float :=
  match n with
  | PInt z => B64.of_int z
  | PFloat f => Some f
  end.

(** [a + b] *)
Definition add (a b : num) : option num :=
  match a, b with
  | PInt x, PInt y => Some (PInt (x + y))
  | _, _ =>
      bind (to_float a) (fun fa =>
      bind (to_float b) (fun fb =>
      Some (PFloat (B64.fadd fa fb))))
  end.

(** [a * b] *)
Definition mul (a b : num) : option num :=
  match a, b with
  | PInt x, PInt y => Some (PInt (x * y))
  | _, _ =>
      bind (to_float a) (fun fa =>
      bind (to_float b) (fun fb =>
      Some (PFloat (B64.fmul fa fb))))
  end.

(** Three-way comparison; [None] when a NaN is involved, in which case
    every one of [<], [>], [<=], [>=] is false. *)
Definition cmp (a b : num) : option comparison :=
  match a, b with
  | PInt x, PInt y => Some (x ?= y)
  | PFloat f, PInt y => B64.cmp_int f y
  | PInt x, PFloat g => option_map CompOpp (B64.cmp_int g x)
  | PFloat f, PFloat g => SFcompare f g
  end.

(** [a < b] *)
Definition lt (a b : num) : bool :=
  match cmp a b with Some Lt => true | _ => false end.

(** [a > b] *)
Definition gt (a b : num) : bool :=
  match cmp a b with Some Gt => true | _ => false end.

(** [a <= b] *)
Definition le (a b : num) : bool :=
  match cmp a b with Some (Lt | Eq) => true | _ => false end.

(** [-a], exact on both kinds of number. *)
Definition neg (a : num) : num :=
  match a with
  | PInt z => PInt (- z)
  | PFloat f => PFloat (SFopp f)
  end.

(** A double is well formed when its mantissa and exponent are the
    canonical ones of binary64; every [float] object is. *)
Definition valid_num (a : num) : bool :=
  match a with
  | PInt _ => true
  | PFloat f => B64.valid f
  end.

(** Numbers whose magnitude can be compared and that survive a conversion
    to [float] unchanged: integers below 2^53 in absolute value and
    well-formed doubles other than NaN. *)
Definition sane (a : num) : bool :=
  match a with
  | PInt z => Z.abs z <? 2 ^ 53
  | PFloat f => B64.valid f && negb (B64.is_nan f)
  end.

(** Equal up to the sign. *)
Definition pm (a b : num) : Prop := b = a \/ b = neg a.

(** [str(n)] for an [int]. *)
Definition str (z : Z) : string := NilZero.string_of_int (Z.to_int z).

(** [abs(a) <= abs(b)], exact like every mixed comparison.  A finite
    magnitude is a pair [(m, e)] standing for [m * 2^e]. *)
Inductive magnitude : Type :=
| MFin (m e : Z)
| MInf
| MNaN.

Definition mag (a : num) : magnitude :=
  match a with
  | PInt z => MFin (Z.abs z) 0
  | PFloat (S754_zero _) => MFin 0 0
  | PFloat (S754_finite _ m e) => MFin (Zpos m) e
  | PFloat (S754_infinity _) => MInf
  | PFloat S754_nan => MNaN
  end.

Definition mag_le (x y : magnitude) : bool :=
  match x, y with
  | MNaN, _ | _, MNaN => false
  | _, MInf => true
  | MInf, MFin _ _ => false
  | MFin m1 e1, MFin m2 e2 =>
      let b := Z.min e1 e2 in
      m1 * 2 ^ (e1 - b) <=? m2 * 2 ^ (e2 - b)
  end.

Definition abs_le (a b : num) : bool := mag_le (mag a) (mag b).

(** [near n N E x]: the finite magnitude [x] lies within [n] units in its
    last place of the exact number [N * 2^E]. *)
Definition near (n N E : Z) (x : magnitude) : Prop :=
  match x with
  | MFin m e => E <= e /\ Z.abs (m * 2 ^ (e - E) - N) <= n * 2 ^ (e - E)
  | MInf | MNaN => False
  end.

End Py.

Import Py.

Declare Scope py_scope.
Delimit Scope py_scope with py.
Notation "x <- m ;; k" := (bind m (fun x => k))
  (at level 61, m at next level, right associativity) : py_scope.
Local Open Scope py_scope.

(** ** The game *)

Module Pong.

(** The module-level globals the two callbacks read and write, and the two
    Tk variables behind the score labels.  [raquette1Y], [raquette2Y],
    [deco1X] and [deco2X] are only read while the canvas is built. *)
Record state : Type := mkState {
  bouleX : num;
  bouleY : num;
  plusX : num;
  plusY : num;
  a1 : Z;
  a2 : Z;
  SJ1 : Z;
  SJ2 : Z;
  Score1 : string;
  Score2 : string
}.

Definition set_bouleX v s := mkState v (bouleY s) (plusX s) (plusY s)
  (a1 s) (a2 s) (SJ1 s) (SJ2 s) (Score1 s) (Score2 s).
Definition set_bouleY v s := mkState (bouleX s) v (plusX s) (plusY s)
  (a1 s) (a2 s) (SJ1 s) (SJ2 s) (Score1 s) (Score2 s).
Definition set_plusX v s := mkState (bouleX s) (bouleY s) v (plusY s)
  (a1 s) (a2 s) (SJ1 s) (SJ2 s) (Score1 s) (Score2 s).
Definition set_plusY v s := mkState (bouleX s) (bouleY s) (plusX s) v
  (a1 s) (a2 s) (SJ1 s) (SJ2 s) (Score1 s) (Score2 s).
Definition set_a1 v s := mkState (bouleX s) (bouleY s) (plusX s) (plusY s)
  v (a2 s) (SJ1 s) (SJ2 s) (Score1 s) (Score2 s).
Definition set_a2 v s := mkState (bouleX s) (bouleY s) (plusX s) (plusY s)
  (a1 s) v (SJ1 s) (SJ2 s) (Score1 s) (Score2 s).
Definition set_SJ1 v s := mkState (bouleX s) (bouleY s) (plusX s) (plusY s)
  (a1 s) (a2 s) v (SJ2 s) (Score1 s) (Score2 s).
Definition set_SJ2 v s := mkState (bouleX s) (bouleY s) (plusX s) (plusY s)
  (a1 s) (a2 s) (SJ1 s) v (Score1 s) (Score2 s).
Definition set_Score1 v s := mkState (bouleX s) (bouleY s) (plusX s) (plusY s)
  (a1 s) (a2 s) (SJ1 s) (SJ2 s) v (Score2 s).
Definition set_Score2 v s := mkState (bouleX s) (bouleY s) (plusX s) (plusY s)
  (a1 s) (a2 s) (SJ1 s) (SJ2 s) (Score1 s) v.

(** Lines 6-7 and 27-38; an [IntVar()] starts at 0. *)
Definition init : state := {|
  bouleX := PInt 306;
  bouleY := PInt 256;
  plusX := PInt 4;
  plusY := PInt 6;
  a1 := 140;
  a2 := 140;
  SJ1 := 0;
  SJ2 := 0;
  Score1 := "0";
  Score2 := "0"
|}.

(** [ControlesJ1etJ2(event)], with [Key = event.keysym]. *)
Definition ControlesJ1etJ2 (Key : string) (s : state) : state :=
  if (Key =? "s")%string && (a1 s + 25 <=? 446) then
    set_a1 (a1 s + 25) s
  else if (Key =? "z")%string && (a1 s - 25 >=? -25) then
    set_a1 (a1 s - 25) s
  else if (Key =? "Down")%string && (a2 s + 25 <=? 446) then
    set_a2 (a2 s + 25) s
  else if (Key =? "Up")%string && (a2 s - 25 >=? -25) then
    set_a2 (a2 s - 25) s
  else s.

(** Lines 93-94: [bouleX+=plusX; bouleY+=plusY]. *)
Definition integrate (s : state) : option state :=
  x <- add (bouleX s) (plusX s) ;;
  let s := set_bouleX x s in
  y <- add (bouleY s) (plusY s) ;;
  Some (set_bouleY y s).

(** Lines 102-106: top and bottom walls. *)
Definition walls (s : state) : option state :=
  if lt (bouleY s) (PInt 10) then
    vy <- mul (plusY s) (PInt (-1)) ;;
    Some (set_plusY vy s)
  else if gt (bouleY s) (PInt 486) then
    vy <- mul (plusY s) (PInt (-1)) ;;
    Some (set_plusY vy s)
  else Some s.

(** Lines 110-126: a ball behind a baseline scores for the other side. *)
Definition goals (s : state) : option state :=
  if lt (bouleX s) (PInt 1) then
    let s := set_SJ2 (SJ2 s + 1) s in
    vx <- mul (plusX s) (PInt (-1)) ;;
    let s := set_plusX vx s in
    let s := set_bouleX (PInt 306) s in
    let s := set_bouleY (PInt 256) s in
    let s := set_Score2 ("J2:" ++ str (SJ2 s)) s in
    let s := set_plusY (PInt 3) s in
    Some (set_plusX (PInt 2) s)
  else if gt (bouleX s) (PInt 612) then
    let s := set_SJ1 (SJ1 s + 1) s in
    vx <- mul (plusX s) (PInt (-1)) ;;
    let s := set_plusX vx s in
    let s := set_bouleX (PInt 306) s in
    let s := set_bouleY (PInt 256) s in
    let s := set_Score1 ("J1:" ++ str (SJ1 s)) s in
    let s := set_plusY (PInt 3) s in
    Some (set_plusX (PInt 2) s)
  else Some s.

(** Lines 130-140: the paddles; [a1<bouleY<a1+80] is a chained
    comparison. *)
Definition hits_paddle1 (s : state) : bool :=
  lt (bouleX s) (PInt 18)
  && (lt (PInt (a1 s)) (bouleY s) && lt (bouleY s) (PInt (a1 s + 80))).
Definition hits_paddle2 (s : state) : bool :=
  negb (hits_paddle1 s)
  && (gt (bouleX s) (PInt 592)
      && (lt (PInt (a2 s)) (bouleY s) && lt (bouleY s) (PInt (a2 s + 80)))).
Definition hits_paddle (s : state) : bool :=
  hits_paddle1 s || hits_paddle2 s.

Definition speed_up (s : state) : option state :=
  vx <- mul (plusX s) (PInt (-1)) ;;
  let s := set_plusX vx s in
  vy <- mul (plusY s) (PFloat B64.c1259) ;;
  let s := set_plusY vy s in
  vx <- mul (plusX s) (PFloat B64.c1259) ;;
  Some (set_plusX vx s).

Definition paddles (s : state) : option state :=
  if lt (bouleX s) (PInt 18)
     && (lt (PInt (a1 s)) (bouleY s) && lt (bouleY s) (PInt (a1 s + 80)))
  then speed_up s
  else if gt (bouleX s) (PInt 592)
          && (lt (PInt (a2 s)) (bouleY s) && lt (bouleY s) (PInt (a2 s + 80)))
  then speed_up s
  else Some s.

(** [bouboule()]: one tick.  The redraw and the re-arming of the timer
    (lines 96-97) touch none of the globals. *)
Definition bouboule (s : state) : option state :=
  s <- integrate s ;;
  s <- walls s ;;
  s <- goals s ;;
  paddles s.

(** The Tk main loop delivers timer ticks and key presses one at a time. *)
Inductive event : Type :=
| Tick
| KeyPress (keysym : string).

Definition handle (ev : event) (s : state) : option state :=
  match ev with
  | Tick => bouboule s
  | KeyPress k => Some (ControlesJ1etJ2 k s)
  end.

Fixpoint run (evs : list event) (s : state) : option state :=
  match evs with
  | [] => Some s
  | ev :: evs => s <- handle ev s ;; run evs s
  end.

Definition reachable (s : state) : Prop :=
  exists evs, run evs init = Some s.

(** *** Auxiliary notions for the statements *)

(** Whether the paddle rule of the tick starting in [s] takes one of its
    two branches. *)
Definition paddle_fires (s : state) : bool :=
  match (s1 <- integrate s ;; s2 <- walls s1 ;; goals s2) with
  | Some s3 => hits_paddle s3
  | None => false
  end.

(** An event that scores no goal: a key press, or a tick whose integrated
    position is neither left of 1 nor right of 612. *)
Definition quiet (ev : event) (s : state) : bool :=
  match ev with
  | KeyPress _ => true
  | Tick =>
      match integrate s with
      | Some s1 => negb (lt (bouleX s1) (PInt 1) || gt (bouleX s1) (PInt 612))
      | None => true
      end
  end.

Fixpoint run_quiet (evs : list event) (s : state) : bool :=
  match evs with
  | [] => true
  | ev :: evs =>
      quiet ev s
      && match handle ev s with
         | Some t => run_quiet evs t
         | None => true
         end
  end.

(** An event in which neither a goal nor a paddle branch fires: a key
    press, or a tick that only moves the ball and may bounce it on a wall. *)
Definition idle (ev : event) (s : state) : bool :=
  quiet ev s
  && match ev with
     | Tick => negb (paddle_fires s)
     | KeyPress _ => true
     end.

Fixpoint run_idle (evs : list event) (s : state) : bool :=
  match evs with
  | [] => true
  | ev :: evs =>
      idle ev s
      && match handle ev s with
         | Some t => run_idle evs t
         | None => true
         end
  end.

(** Whether the goal rule of the tick starting in [s] takes one of its two
    branches: the wall rule in between leaves [bouleX] alone. *)
Definition goal_fires (s : state) : bool :=
  match integrate s with
  | Some s1 => lt (bouleX s1) (PInt 1) || gt (bouleX s1) (PInt 612)
  | None => false
  end.

(** What the integer phase of the game looks like.  As long as the ball has
    not met a paddle since the last kick-off, position and velocity are
    [int]s: the ball moves right by 4 or 2 between [x = 306] and the right
    baseline, and up and down by 6 or 3 on a grid that meets the walls at
    4 and 490, resp. 7 and 487, where it turns back.  After a paddle hit the
    velocity is a [float] and so is the position from the next tick on. *)
Definition int_phase_x (s : state) : Prop :=
  match bouleX s with
  | PInt x =>
      306 <= x <= 612 /\
      match plusX s with
      | PInt vx => vx = 2 \/ vx = 4
      | PFloat _ => True
      end
  | PFloat _ => True
  end.

Definition bounces (step lo hi y vy : Z) : Prop :=
  Z.abs vy = step /\ y mod step = lo mod step /\ lo <= y <= hi /\
  (y < 10 -> 0 < vy) /\ (486 < y -> vy < 0).

Definition int_phase_y (s : state) : Prop :=
  match bouleY s with
  | PInt y =>
      match plusY s with
      | PInt vy => bounces 6 4 490 y vy \/ bounces 3 7 487 y vy
      | PFloat _ => 4 <= y <= 490
      end
  | PFloat _ => True
  end.

Definition court_inv (s : state) : Prop :=
  sane (plusX s) = true /\ sane (plusY s) = true /\
  int_phase_x s /\ int_phase_y s.

(** The score label as the specification words it, ["J<n>: <count>"]:
    player tag, colon, space, count. *)
Definition spec_label (n c : Z) : string :=
  ("J" ++ str n ++ ": " ++ str c)%string.

(** The top edges a paddle can take when it starts at 140. *)
Definition paddle_lattice (a : Z) : Prop :=
  -10 <= a <= 440 /\ a mod 25 = 15.

(** *** Running examples

    The two end-to-end scenarios of the specification: the ball about to
    leave on the left, and the ball about to meet the left paddle. *)
Definition scenario_goal : state := {|
  bouleX := PInt 0;
  bouleY := PInt 300;
  plusX := PInt (-4);
  plusY := PInt (-6);
  a1 := 140;
  a2 := 140;
  SJ1 := 0;
  SJ2 := 0;
  Score1 := "0";
  Score2 := "0"
|}.

Definition scenario_hit : state := {|
  bouleX := PInt 10;
  bouleY := PInt 200;
  plusX := PInt (-4);
  plusY := PInt 6;
  a1 := 140;
  a2 := 140;
  SJ1 := 0;
  SJ2 := 0;
  Score1 := "0";
  Score2 := "0"
|}.

(** The ball about to cross the top wall. *)
Definition scenario_wall : state := {|
  bouleX := PInt 300;
  bouleY := PInt 12;
  plusX := PInt 4;
  plusY := PInt (-6);
  a1 := 140;
  a2 := 140;
  SJ1 := 0;
  SJ2 := 0;
  Score1 := "0";
  Score2 := "0"
|}.

(** The examples once integrated. *)
Definition goal_s1 : state :=
  set_bouleY (PInt 294) (set_bouleX (PInt (-4)) scenario_goal).
Definition hit_s1 : state :=
  set_bouleY (PInt 206) (set_bouleX (PInt 6) scenario_hit).
Definition wall_s1 : state :=
  set_bouleY (PInt 6) (set_bouleX (PInt 304) scenario_wall).

(** The first example after its tick: a goal for player 2. *)
Definition goal_end : state := {|
  bouleX := PInt 306;
  bouleY := PInt 256;
  plusX := PInt 2;
  plusY := PInt 3;
  a1 := 140;
  a2 := 140;
  SJ1 := 0;
  SJ2 := 1;
  Score1 := "0";
  Score2 := "J2:1"
|}.

(** The state right after the first goal of a game nobody plays: 77 ticks
    from the start the ball crosses the right baseline. *)
Definition first_goal : state := {|
  bouleX := PInt 306;
  bouleY := PInt 256;
  plusX := PInt 2;
  plusY := PInt 3;
  a1 := 140;
  a2 := 140;
  SJ1 := 1;
  SJ2 := 0;
  Score1 := "J1:1";
  Score2 := "0"
|}.

(** A rally: the right paddle four steps down and the left one eight, 71
    ticks into the game.  The next tick is a hit on the right, the 115th
    after it a hit on the left. *)
Definition rally_start : state := {|
  bouleX := PInt 590;
  bouleY := PInt 298;
  plusX := PInt 4;
  plusY := PInt (-6);
  a1 := 340;
  a2 := 240;
  SJ1 := 0;
  SJ2 := 0;
  Score1 := "0";
  Score2 := "0"
|}.

Definition rally_s1 : state :=
  set_bouleY (PInt 292) (set_bouleX (PInt 594) rally_start).

Definition rally_keys : list event :=
  repeat (KeyPress "Down") 4 ++ repeat (KeyPress "s") 8.

(** A state with [float]s everywhere: the right paddle, four steps down,
    meets the first ball at tick 72, and this is the game one tick later. *)
Definition first_hit : state := {|
  bouleX := PFloat (S754_finite false 5180582130731713 (-43));
  bouleY := PFloat (S754_finite false 5004026951589954 (-44));
  plusX := PFloat (S754_finite true 5670031930859454 (-50));
  plusY := PFloat (S754_finite true 8505047896289181 (-50));
  a1 := 140;
  a2 := 240;
  SJ1 := 0;
  SJ2 := 0;
  Score1 := "0";
  Score2 := "0"
|}.

End Pong.

Import Pong.

(** ** The canvas

    What the two callbacks ask of the canvas: [canvas.move] shifts an item,
    [canvas.coords] replaces its coordinates.  The paddles are rectangles
    with whole-pixel corners (Tk keeps them as doubles, which hold these
    integers exactly); the ball's box receives whatever Python numbers the
    tick passes, and what Tk makes of them is not modelled.  The globals
    evolve as in [Pong]. *)

Module Screen.

Record rect : Type := mkRect { rx1 : Z; ry1 : Z; rx2 : Z; ry2 : Z }.

Record oval : Type := mkOval { ox1 : num; oy1 : num; ox2 : num; oy2 : num }.

(** [canvas.move(item, dx, dy)] *)
Definition move (r : rect) (dx dy : Z) : rect :=
  mkRect (rx1 r + dx) (ry1 r + dy) (rx2 r + dx) (ry2 r + dy).

Record game : Type := mkGame {
  globals : state;
  boule : oval;
  raquette1 : rect;
  raquette2 : rect
}.

(** Lines 30-31. *)
Definition raquette1Y : Z := 140.
Definition raquette2Y : Z := 140.

(** Lines 47-49: the items as they are created, over the initial globals. *)
Definition start : game := {|
  globals := init;
  boule := mkOval (PInt 306) (PInt 256) (PInt (306 + 5)) (PInt (256 + 5));
  raquette1 := mkRect 12 raquette1Y 16 (raquette1Y + 80);
  raquette2 := mkRect 600 raquette2Y 604 (raquette2Y + 80)
|}.

(** [ControlesJ1etJ2(event)] with its [canvas.move] calls. *)
Definition ControlesJ1etJ2_canvas (Key : string) (g : game) : game :=
  let s := globals g in
  if (Key =? "s")%string && (a1 s + 25 <=? 446) then
    mkGame (set_a1 (a1 s + 25) s) (boule g) (move (raquette1 g) 0 25) (raquette2 g)
  else if (Key =? "z")%string && (a1 s - 25 >=? -25) then
    mkGame (set_a1 (a1 s - 25) s) (boule g) (move (raquette1 g) 0 (-25)) (raquette2 g)
  else if (Key =? "Down")%string && (a2 s + 25 <=? 446) then
    mkGame (set_a2 (a2 s + 25) s) (boule g) (raquette1 g) (move (raquette2 g) 0 25)
  else if (Key =? "Up")%string && (a2 s - 25 >=? -25) then
    mkGame (set_a2 (a2 s - 25) s) (boule g) (raquette1 g) (move (raquette2 g) 0 (-25))
  else g.

(** [bouboule()] with line 96,
    [canvas.coords(boule,bouleX,bouleY,bouleX+5,bouleY+5)], which comes
    after the integration and before the three rules. *)
Definition bouboule_canvas (g : game) : option game :=
  s <- integrate (globals g) ;;
  x5 <- add (bouleX s) (PInt 5) ;;
  y5 <- add (bouleY s) (PInt 5) ;;
  let b := mkOval (bouleX s) (bouleY s) x5 y5 in
  s <- walls s ;;
  s <- goals s ;;
  s <- paddles s ;;
  Some (mkGame s b (raquette1 g) (raquette2 g)).

Definition handle_canvas (ev : event) (g : game) : option game :=
  match ev with
  | Tick => bouboule_canvas g
  | KeyPress k => Some (ControlesJ1etJ2_canvas k g)
  end.

Fixpoint run_canvas (evs : list event) (g : game) : option game :=
  match evs with
  | [] => Some g
  | ev :: evs => g <- handle_canvas ev g ;; run_canvas evs g
  end.

Definition reachable_canvas (g : game) : Prop :=
  exists evs, run_canvas evs start = Some g.

(** The paddle as drawn is the band the paddle rule tests. *)
Definition drawn_at (x : Z) (top : Z) (r : rect) : Prop :=
  r = mkRect x top (x + 4) (top + 80).



End Screen.

Import Screen.

(** ** Further invariants of the game *)

Module Inv.

(** The two velocity components are of one kind.  As [int]s they are one of
    the two serves, (4, +-6) from the start and (2, +-3) after a goal, and
    the position is made of [int]s too. *)
Definition serve_phase (s : state) : Prop :=
  match plusX s, plusY s with
  | PInt vx, PInt vy =>
      ((vx = 4 /\ Z.abs vy = 6) \/ (vx = 2 /\ Z.abs vy = 3)) /\
      (exists x, bouleX s = PInt x) /\ (exists y, bouleY s = PInt y)
  | PFloat _, PFloat _ => True
  | _, _ => False
  end.

(** What a score label reads: the [IntVar]'s initial 0 until the first
    goal, then the tag and the count. *)
Definition label_of (tag : string) (n : Z) : string :=
  if n =? 0 then "0"%string else (tag ++ str n)%string.

(** The stored [x] is a number between the two baselines, both included. *)
Definition between_baselines (x : num) : bool :=
  le (PInt 1) x && le x (PInt 612).

(** A run in which none of the given keys is pressed. *)
Fixpoint without_keys (ks : list string) (evs : list event) : bool :=
  match evs with
  | [] => true
  | Tick :: evs => without_keys ks evs
  | KeyPress k :: evs =>
      negb (existsb (String.eqb k) ks) && without_keys ks evs
  end.

(** Zeros and finite doubles. *)
Definition is_finite (f : spec_float) : bool :=
  match f with
  | S754_zero _ | S754_finite _ _ _ => true
  | _ => false
  end.

(** [v * 1.259 * ... * 1.259] with [n] factors, as the paddle rule
    computes it hit after hit. *)
Fixpoint speed (n : nat) (v : num) : option num :=
  match n with
  | O => Some v
  | S n => a <- speed n v ;; mul a (PFloat B64.c1259)
  end.

(** The hits a serve can take: the first index at which [speed] exceeds
    612, the width of the court. *)
Definition max_hits (vx : Z) : nat := if vx =? 4 then 22%nat else 25%nat.

(** The velocity is a serve sped up by the hits since the kick-off, up to
    the signs. *)
Definition rally (s : state) : Prop :=
  exists vx vy n ux uy,
    ((vx = 4 /\ vy = 6) \/ (vx = 2 /\ vy = 3)) /\ (n <= max_hits vx)%nat /\
    speed n (PInt vx) = Some ux /\ speed n (PInt vy) = Some uy /\
    pm ux (plusX s) /\ pm uy (plusY s).

(** The rally so far: the serve it started from and the paddle hits
    since. *)
Record rally_log : Type := mkLog { serve_x : Z; serve_y : Z; hits : nat }.

(** What a tick from [s] does to the log: a goal ends the rally and the
    next one starts from (2, 3); a paddle branch is one more hit. *)
Definition log_tick (s : state) (l : rally_log) : rally_log :=
  if goal_fires s then mkLog 2 3 0
  else if paddle_fires s then mkLog (serve_x l) (serve_y l) (S (hits l))
  else l.

(** The log kept along a run. *)
Fixpoint log_run (evs : list event) (s : state) (l : rally_log) : rally_log :=
  match evs with
  | [] => l
  | ev :: evs =>
      match handle ev s with
      | Some t =>
          log_run evs t match ev with
                        | Tick => log_tick s l
                        | KeyPress _ => l
                        end
      | None => l
      end
  end.

(** The velocity of [s] is what the log says: the serve, sped up once per
    hit, up to the signs. *)
Definition rally_at (s : state) (l : rally_log) : Prop :=
  ((serve_x l = 4 /\ serve_y l = 6) \/ (serve_x l = 2 /\ serve_y l = 3)) /\
  (hits l <= max_hits (serve_x l))%nat /\
  exists ux uy,
    speed (hits l) (PInt (serve_x l)) = Some ux /\
    speed (hits l) (PInt (serve_y l)) = Some uy /\
    pm ux (plusX s) /\ pm uy (plusY s).

(** Anything but a NaN. *)
Definition is_number (a : num) : bool :=
  match a with
  | PInt _ => true
  | PFloat f => negb (B64.is_nan f)
  end.

End Inv.

Import Inv.

Import B64.

(** * Facts about binary64 rounding

    The game multiplies doubles by two constants only, [-1] and [1.259].
    Both have a 53-bit mantissa at exponent [-52], that is a magnitude in
    [1, 2).  This part establishes what such a product does to a
    well-formed double: it stays well formed, it does not shrink, and it is
    at most one unit in the last place away from the exact product. *)

Lemma digits2_size p : digits2_pos p = Pos.size p.
Proof. induction p; simpl; congruence. Qed.

Lemma digits_bounds p :
  2 ^ (Zpos (digits2_pos p) - 1) <= Zpos p < 2 ^ Zpos (digits2_pos p).
Proof.
  rewrite digits2_size. split.
  - pose proof (Pos.size_le p) as H.
    assert (Hs : Zpos (Pos.size p) = Z.succ (Zpos (Pos.size p) - 1)) by lia.
    assert (H2 : (2 ^ Zpos (Pos.size p) <= Zpos p~0)%Z).
    { rewrite <- Pos2Z.inj_pow. apply Pos2Z.pos_le_pos. exact H. }
    rewrite Hs, Z.pow_succ_r in H2 by lia. lia.
  - rewrite <- Pos2Z.inj_pow. apply Pos2Z.pos_lt_pos. apply Pos.size_gt.
Qed.

Lemma digits_unique p k :
  2 ^ (k - 1) <= Zpos p < 2 ^ k -> Zpos (digits2_pos p) = k.
Proof.
  intros [Hl Hu]. pose proof (digits_bounds p) as [Bl Bu].
  set (d := Zpos (digits2_pos p)) in *.
  assert (0 < k).
  { destruct (Z.ltb_spec 0 k); trivial. exfalso.
    destruct k; try lia. rewrite Z.pow_neg_r in Hu; lia. }
  destruct (Z.lt_trichotomy d k) as [Hlt | [He | Hgt]]; trivial; exfalso.
  - assert (2 ^ d <= 2 ^ (k - 1)) by (apply Z.pow_le_mono_r; lia). lia.
  - assert (2 ^ k <= 2 ^ (d - 1)) by (apply Z.pow_le_mono_r; lia). lia.
Qed.

Lemma shr_1_m mrs : 0 <= shr_m mrs -> shr_m (shr_1 mrs) = shr_m mrs / 2.
Proof.
  destruct mrs as [m r s]; simpl. intros H.
  destruct m as [|p|p]; try lia.
  - reflexivity.
  - destruct p; simpl shr_m.
    + change (Z.pos p~1) with (2 * Z.pos p + 1). apply Z.div_unique with (r := 1); lia.
    + change (Z.pos p~0) with (2 * Z.pos p). apply Z.div_unique with (r := 0); lia.
    + reflexivity.
Qed.

Lemma iter_shr_1_m n : forall mrs,
  0 <= shr_m mrs -> shr_m (iter_pos shr_1 n mrs) = shr_m mrs / 2 ^ Zpos n.
Proof.
  assert (Hnn : forall mrs k, 0 <= shr_m mrs -> 0 < k -> 0 <= shr_m mrs / k).
  { intros. apply Z.div_pos; lia. }
  induction n as [n IH | n IH |]; intros mrs H; simpl iter_pos.
  - rewrite IH, IH, shr_1_m; trivial.
    + rewrite !Z.div_div by lia.
      f_equal.
      replace (Zpos n~1) with (1 + Zpos n + Zpos n) by lia.
      rewrite !Z.pow_add_r by lia. lia.
    + rewrite shr_1_m by trivial. apply Z.div_pos; lia.
    + rewrite IH. apply Z.div_pos; try lia. rewrite shr_1_m by trivial. apply Z.div_pos; lia.
      rewrite shr_1_m by trivial. apply Z.div_pos; lia.
  - rewrite IH, IH; trivial.
    + rewrite !Z.div_div by lia. f_equal.
      replace (Zpos n~0) with (Zpos n + Zpos n) by lia.
      rewrite !Z.pow_add_r by lia. lia.
    + rewrite IH by trivial. apply Z.div_pos; lia.
  - rewrite shr_1_m by trivial. reflexivity.
Qed.

Lemma fexp_eq x : fexp prec emax x = Z.max (x - 53) (-1074).
Proof. reflexivity. Qed.

Lemma round_aux_finish sx mx ex lx :
  binary_round_aux prec emax sx mx ex lx =
  let '(mrs, e') := shr_fexp prec emax mx ex lx in
  finish sx (round_nearest_even (shr_m mrs) (loc_of_shr_record mrs)) e'.
Proof. unfold binary_round_aux, finish. destruct (shr_fexp prec emax mx ex lx). reflexivity. Qed.

Lemma round_nearest_even_cases m l :
  round_nearest_even m l = m \/ round_nearest_even m l = m + 1.
Proof.
  destruct l as [|[ | | ]]; simpl; auto. destruct (Z.even m); auto.
Qed.

Lemma shr_fexp_keep m e l :
  fexp prec emax (Zdigits2 m + e) <= e ->
  shr_fexp prec emax m e l = (shr_record_of_loc m l, e).
Proof.
  intros H. unfold shr_fexp, shr.
  destruct (fexp prec emax (Zdigits2 m + e) - e) eqn:E; trivial. lia.
Qed.

Lemma shr_fexp_shift m e l n :
  0 <= m -> 0 < n -> fexp prec emax (Zdigits2 m + e) - e = n ->
  exists mrs, shr_fexp prec emax m e l = (mrs, e + n) /\ shr_m mrs = m / 2 ^ n.
Proof.
  intros Hm Hn H. unfold shr_fexp, shr. rewrite H.
  destruct n as [|p|p]; try lia.
  eexists; split; [reflexivity|].
  rewrite iter_shr_1_m; destruct l as [|[ | | ]]; simpl; trivial.
Qed.

Lemma finish_keep sx p e :
  fexp prec emax (Zpos (digits2_pos p) + e) <= e ->
  finish sx (Zpos p) e =
  if e <=? 971 then S754_finite sx p e else S754_infinity sx.
Proof.
  intros H. unfold finish. rewrite shr_fexp_keep by exact H. reflexivity.
Qed.

Lemma finish_carry sx e :
  -1075 <= e ->
  finish sx (2 ^ 53) e =
  if e + 1 <=? 971 then S754_finite sx (2 ^ 52) (e + 1) else S754_infinity sx.
Proof.
  intros H. unfold finish, shr_fexp, shr.
  replace (fexp prec emax (Zdigits2 (2 ^ 53) + e) - e) with 1.
  - reflexivity.
  - change (Zdigits2 (2 ^ 53)) with 54. rewrite fexp_eq. lia.
Qed.

(** [bounded] spelled out for binary64. *)
Lemma bounded_spec m e :
  bounded prec emax m e = true <->
  (Z.max (Zpos (digits2_pos m) + e - 53) (-1074) = e /\ e <= 971).
Proof.
  unfold bounded, canonical_mantissa. rewrite andb_true_iff, Z.eqb_eq, Z.leb_le, fexp_eq.
  change (emax - prec) with 971. tauto.
Qed.

Lemma bounded_cases m e :
  bounded prec emax m e = true ->
  -1074 <= e <= 971 /\
  ((2 ^ 52 <= Zpos m < 2 ^ 53) \/ (e = -1074 /\ Zpos m < 2 ^ 52)).
Proof.
  rewrite bounded_spec. intros [Hc Hb].
  pose proof (digits_bounds m) as [Bl Bu].
  set (d := Zpos (digits2_pos m)) in *.
  split; [lia|].
  destruct (Z.eq_dec d 53) as [E|N].
  - left. rewrite E in Bl, Bu. simpl Z.sub in Bl. lia.
  - right. split; [lia|].
    assert (d <= 52) by lia.
    assert (2 ^ d <= 2 ^ 52) by (apply Z.pow_le_mono_r; lia). lia.
Qed.

Lemma bounded_intro m e :
  -1074 <= e <= 971 ->
  ((2 ^ 52 <= Zpos m < 2 ^ 53) \/ (e = -1074 /\ Zpos m < 2 ^ 52)) ->
  bounded prec emax m e = true.
Proof.
  intros He H. rewrite bounded_spec. split; [|lia].
  destruct H as [H | [E H]].
  - rewrite (digits_unique m 53) by exact H. lia.
  - pose proof (digits_bounds m) as [Bl Bu].
    set (d := Zpos (digits2_pos m)) in *.
    assert (d <= 52).
    { destruct (Z.leb_spec d 52); trivial. exfalso.
      assert (2 ^ 52 <= 2 ^ (d - 1)) by (apply Z.pow_le_mono_r; lia). lia. }
    lia.
Qed.

Lemma finish_normal sx m1 e1 :
  2 ^ 52 <= m1 <= 2 ^ 53 -> -1074 <= e1 ->
  finish sx m1 e1 = S754_infinity sx \/
  exists m' e', finish sx m1 e1 = S754_finite sx m' e' /\
    bounded prec emax m' e' = true /\
    ((Zpos m' = m1 /\ e' = e1) \/ (m1 = 2 ^ 53 /\ Zpos m' = 2 ^ 52 /\ e' = e1 + 1)).
Proof.
  intros Hm He.
  destruct (Z.eq_dec m1 (2 ^ 53)) as [E | N].
  - subst m1. rewrite finish_carry by lia.
    destruct (Z.leb_spec (e1 + 1) 971); [right | left; reflexivity].
    exists (2 ^ 52)%positive, (e1 + 1). split; [reflexivity|]. split.
    + apply bounded_intro; [lia|]. left. change (Zpos (2 ^ 52)) with (2 ^ 52). lia.
    + right. repeat split.
  - destruct m1 as [|p|p]; try lia.
    assert (Hd : Zpos (digits2_pos p) = 53) by (apply digits_unique; simpl Z.sub; lia).
    rewrite finish_keep by (rewrite Hd, fexp_eq; lia).
    destruct (Z.leb_spec e1 971); [right | left; reflexivity].
    exists p, e1. split; [reflexivity|]. split; [|left; split; reflexivity].
    apply bounded_intro; [lia|]. left. lia.
Qed.

Lemma finish_subnormal sx m1 :
  0 < m1 < 2 ^ 53 ->
  exists m', finish sx m1 (-1074) = S754_finite sx m' (-1074) /\
    bounded prec emax m' (-1074) = true /\ Zpos m' = m1.
Proof.
  intros Hm. destruct m1 as [|p|p]; try lia.
  pose proof (digits_bounds p) as [Bl Bu].
  assert (Hd : Zpos (digits2_pos p) <= 53).
  { destruct (Z.leb_spec (Zpos (digits2_pos p)) 53); trivial. exfalso.
    assert (2 ^ 53 <= 2 ^ (Zpos (digits2_pos p) - 1)) by (apply Z.pow_le_mono_r; lia). lia. }
  rewrite finish_keep by (rewrite fexp_eq; lia).
  exists p. split; [reflexivity|]. split; [|reflexivity].
  apply bounded_intro; [lia|].
  destruct (Z.ltb_spec (Zpos p) (2 ^ 52)); [right | left]; lia.
Qed.

(** The first shift of a product [M * 2^E] by [n] bits and the rounding
    of what is left: the rounded mantissa is the quotient or its successor,
    hence at most one unit away from [M / 2^n]. *)
Lemma shift_round s M E n :
  0 < M -> 0 < n -> fexp prec emax (Zdigits2 M + E) - E = n ->
  exists m1,
    binary_round_aux prec emax s M E loc_Exact = finish s m1 (E + n) /\
    M / 2 ^ n <= m1 <= M / 2 ^ n + 1 /\
    Z.abs (m1 * 2 ^ n - M) <= 2 ^ n.
Proof.
  intros HM Hn Hf. rewrite round_aux_finish.
  destruct (shr_fexp_shift M E loc_Exact n) as [mrs [Hs Hm]]; [lia | lia | exact Hf |].
  rewrite Hs. eexists. split; [reflexivity|].
  assert (Hw : 0 < 2 ^ n) by (apply Z.pow_pos_nonneg; lia).
  pose proof (Z.mul_div_le M (2 ^ n) Hw) as Hlo.
  pose proof (Z.mul_succ_div_gt M (2 ^ n) Hw) as Hhi.
  rewrite <- Hm in *.
  set (q := shr_m mrs) in *. set (w := 2 ^ n) in *. clearbody q w.
  unfold Z.succ in Hhi.
  destruct (round_nearest_even_cases q (loc_of_shr_record mrs)) as [-> | ->];
    clear - Hw Hlo Hhi; split; lia.
Qed.

Section Scale.
Variables (sc : bool) (mc : positive).
Hypothesis mc_range : 2 ^ 52 <= Zpos mc < 2 ^ 53.

Let c : spec_float := S754_finite sc mc (-52).

(** A well-formed finite double times a constant of magnitude in [1, 2):
    unless it overflows, the product is a well-formed finite double, not
    smaller in magnitude, and at most one unit in its last place away from
    the exact product. *)
Lemma fmul_scale_finite sx m e :
  bounded prec emax m e = true ->
  fmul (S754_finite sx m e) c = S754_infinity (xorb sx sc) \/
  exists m' e',
    fmul (S754_finite sx m e) c = S754_finite (xorb sx sc) m' e' /\
    bounded prec emax m' e' = true /\
    e <= e' /\ Zpos m <= Zpos m' * 2 ^ (e' - e) /\
    Z.abs (Zpos m' * 2 ^ (e' - e + 52) - Zpos m * Zpos mc) <= 2 ^ (e' - e + 52).
Proof.
  intros Hb. destruct (bounded_cases _ _ Hb) as [He Hcases].
  unfold fmul, c, SFmul.
  set (s := xorb sx sc).
  rewrite Pos2Z.inj_mul.
  set (M := Zpos m * Zpos mc).
  assert (HMlo : Zpos m * 2 ^ 52 <= M) by (apply Z.mul_le_mono_nonneg_l; lia).
  assert (HMhi : M <= Zpos m * (2 ^ 53 - 1)) by (apply Z.mul_le_mono_nonneg_l; lia).
  assert (HMpos : 0 < M) by lia.
  clearbody M.
  destruct Hcases as [Hn | [Hs Hm]].
  - (* normal: the product has 105 or 106 bits *)
    assert (Hcase : exists k, (k = 0 \/ k = 1) /\ Zdigits2 M = 105 + k /\
                              2 ^ (104 + k) <= M < 2 ^ (105 + k)).
    { destruct M as [|pM|pM]; try lia.
      destruct (Z.ltb_spec (Zpos pM) (2 ^ 105)) as [Hlt | Hge].
      - exists 0. split; [auto|]. split; [|simpl Z.add; lia].
        apply digits_unique. simpl Z.sub. lia.
      - exists 1. split; [auto|]. split; [|simpl Z.add; lia].
        apply digits_unique. simpl Z.sub. lia. }
    destruct Hcase as [k [Hk [Hd HM]]].
    destruct (shift_round s M (e + -52) (52 + k)) as [m1 [Hr [Hq Herr]]];
      [lia | lia | rewrite Hd, fexp_eq; lia |].
    rewrite Hr. replace (e + -52 + (52 + k)) with (e + k) by lia.
    assert (Hm1 : 2 ^ 52 <= m1 <= 2 ^ 53 /\ (k = 0 -> Zpos m <= m1)).
    { destruct Hk as [-> | ->]; simpl Z.add in *.
      - assert (Zpos m <= M / 2 ^ 52) by (apply Z.div_le_lower_bound; lia).
        assert (M / 2 ^ 52 < 2 ^ 53) by (apply Z.div_lt_upper_bound; lia). lia.
      - assert (2 ^ 52 <= M / 2 ^ 53) by (apply Z.div_le_lower_bound; lia).
        assert (M / 2 ^ 53 < 2 ^ 53) by (apply Z.div_lt_upper_bound; lia). lia. }
    destruct (finish_normal s m1 (e + k)) as [Hi | [m' [e' [Hf [Hb' Hv]]]]];
      [lia | lia | left; exact Hi | right].
    exists m', e'. split; [exact Hf|]. split; [exact Hb'|].
    clear Hr Hf Hb' Hb Hq.
    destruct Hk as [-> | ->], Hv as [[Hv1 Hv2] | [Hv1 [Hv2 Hv3]]]; subst e';
      simpl Z.add in *.
    + replace (e + 0 - e) with 0 by lia. replace (e + 0 - e + 52) with 52 by lia.
      simpl Z.pow in *. lia.
    + replace (e + 0 + 1 - e) with 1 by lia. replace (e + 0 + 1 - e + 52) with 53 by lia.
      simpl Z.pow in *. lia.
    + replace (e + 1 - e) with 1 by lia. replace (e + 1 - e + 52) with 53 by lia.
      simpl Z.pow in *. lia.
    + replace (e + 1 + 1 - e) with 2 by lia. replace (e + 1 + 1 - e + 52) with 54 by lia.
      simpl Z.pow in *. lia.
  - (* subnormal: the result keeps the least exponent *)
    subst e. right.
    assert (Hd : Zdigits2 M <= 105).
    { destruct M as [|pM|pM]; try lia. simpl Zdigits2.
      pose proof (digits_bounds pM) as [Bl Bu].
      destruct (Z.leb_spec (Zpos (digits2_pos pM)) 105); trivial. exfalso.
      assert (2 ^ 105 <= 2 ^ (Zpos (digits2_pos pM) - 1)) by (apply Z.pow_le_mono_r; lia).
      lia. }
    assert (Hd' : 0 <= Zdigits2 M) by (destruct M; simpl; lia).
    destruct (shift_round s M (-1074 + -52) 52) as [m1 [Hr [Hq Herr]]];
      [lia | lia | rewrite fexp_eq; lia |].
    rewrite Hr. change (-1074 + -52 + 52) with (-1074).
    assert (Hm1 : Zpos m <= m1 < 2 ^ 53).
    { assert (Zpos m <= M / 2 ^ 52) by (apply Z.div_le_lower_bound; lia).
      assert (M / 2 ^ 52 < 2 ^ 53 - 1) by (apply Z.div_lt_upper_bound; lia). lia. }
    destruct (finish_subnormal s m1) as [m' [Hf [Hb' Hv]]]; [lia|].
    exists m', (-1074). split; [exact Hf|]. split; [exact Hb'|].
    split; [lia|]. clear Hr Hf Hb' Hb Hq. simpl Z.pow in *. lia.
Qed.
End Scale.

(** ** Multiplying by [-1.0], converting an [int] *)

Lemma of_int_m1 : of_int (-1) = Some minus_one.
Proof. reflexivity. Qed.

Lemma fmul_minus_one f : valid f = true -> fmul f minus_one = SFopp f.
Proof.
  destruct f as [s | s | | s m e]; intros Hv; unfold fmul; simpl;
    try reflexivity; try (destruct s; reflexivity).
  unfold valid, valid_binary in Hv.
  destruct (bounded_cases _ _ Hv) as [He Hcases].
  rewrite round_aux_finish.
  set (M := (m * 4503599627370496)%positive).
  assert (HMz : Zpos M = Zpos m * 2 ^ 52) by (subst M; rewrite Pos2Z.inj_mul; reflexivity).
  assert (HMx : Zpos M =
    Zpos m~0~0~0~0~0~0~0~0~0~0~0~0~0~0~0~0~0~0~0~0~0~0~0~0~0~0~0~0~0~0~0~0~0~0~0~0~0~0~0~0~0~0~0~0~0~0~0~0~0~0~0~0)
    by (subst M; rewrite Pos.mul_comm; reflexivity).
  assert (Hn : fexp prec emax (Zdigits2 (Zpos M) + (e + -52)) - (e + -52) = 52).
  { rewrite fexp_eq. simpl Zdigits2. destruct Hcases as [Hn | [Hs Hm]].
    - rewrite (digits_unique M 105) by (simpl Z.sub; lia). lia.
    - pose proof (digits_bounds M) as [Bl Bu].
      assert (Zpos (digits2_pos M) <= 105).
      { destruct (Z.leb_spec (Zpos (digits2_pos M)) 105); trivial. exfalso.
        assert (2 ^ 105 <= 2 ^ (Zpos (digits2_pos M) - 1)) by (apply Z.pow_le_mono_r; lia).
        lia. }
      lia. }
  unfold shr_fexp. rewrite Hn, HMx. unfold shr.
  cbv [iter_pos shr_1 shr_record_of_loc orb shr_m loc_of_shr_record round_nearest_even].
  replace (e + -52 + 52) with e by lia.
  rewrite finish_keep.
  - destruct (Z.leb_spec e 971); [|lia]. destruct s; reflexivity.
  - apply bounded_spec in Hv. rewrite fexp_eq. lia.
Qed.

Lemma round_aux_exact sx m e :
  bounded prec emax m e = true ->
  binary_round_aux prec emax sx (Zpos m) e loc_Exact = S754_finite sx m e.
Proof.
  intros Hb. pose proof Hb as Hb'. apply bounded_spec in Hb' as [Hc He].
  rewrite round_aux_finish, shr_fexp_keep by (simpl Zdigits2; rewrite fexp_eq; lia).
  simpl. rewrite finish_keep by (rewrite fexp_eq; lia).
  destruct (Z.leb_spec e 971); [reflexivity | lia].
Qed.

Lemma round_aux_opp sx mx ex lx :
  binary_round_aux prec emax (negb sx) mx ex lx =
  SFopp (binary_round_aux prec emax sx mx ex lx).
Proof.
  unfold binary_round_aux.
  destruct (shr_fexp prec emax mx ex lx) as [mrs e'].
  destruct (shr_fexp prec emax _ e' loc_Exact) as [mrs' e''].
  destruct (shr_m mrs'); try reflexivity.
  destruct (e'' <=? emax - prec); reflexivity.
Qed.

Lemma iter_xO_mul p k : Zpos (Pos.iter xO p k) = Zpos p * 2 ^ Zpos k.
Proof.
  induction k as [|k IH] using Pos.peano_ind.
  - simpl Pos.iter. rewrite Pos2Z.inj_xO. change (2 ^ 1) with 2. lia.
  - rewrite Pos.iter_succ, Pos2Z.inj_xO, IH, Pos2Z.inj_succ, Z.pow_succ_r by lia. lia.
Qed.

Lemma normalize_pos sx p :
  Zpos p < 2 ^ 53 ->
  exists m e,
    binary_round prec emax sx p 0 = S754_finite sx m e /\
    bounded prec emax m e = true /\ e <= 0 /\ Zpos m = Zpos p * 2 ^ (- e).
Proof.
  intros Hp. unfold binary_round, shl_align.
  pose proof (digits_bounds p) as [Bl Bu].
  set (d := Zpos (digits2_pos p)) in *.
  assert (Hd : 1 <= d <= 53).
  { split; [subst d; lia|].
    destruct (Z.leb_spec d 53); trivial. exfalso.
    assert (2 ^ 53 <= 2 ^ (d - 1)) by (apply Z.pow_le_mono_r; lia). lia. }
  rewrite fexp_eq.
  replace (Z.max (d + 0 - 53) (-1074) - 0) with (d - 53) by lia.
  replace (Z.max (d + 0 - 53) (-1074)) with (d - 53) by lia.
  destruct (d - 53) as [|q|q] eqn:Eq; try lia.
  - exists p, 0. split; [|split; [|split]]; try lia.
    + apply round_aux_exact. apply bounded_intro; [lia|]. left.
      replace d with 53 in Bl by lia. simpl Z.sub in Bl. lia.
    + apply bounded_intro; [lia|]. left.
      replace d with 53 in Bl by lia. simpl Z.sub in Bl. lia.
  - assert (Hb : bounded prec emax (Pos.iter xO p q) (Zneg q) = true).
    { apply bounded_intro; [lia|]. left. rewrite iter_xO_mul.
      replace (2 ^ 52) with (2 ^ (d - 1) * 2 ^ Zpos q)
        by (rewrite <- Z.pow_add_r by lia; f_equal; lia).
      replace (2 ^ 53) with (2 ^ d * 2 ^ Zpos q)
        by (rewrite <- Z.pow_add_r by lia; f_equal; lia).
      assert (0 < 2 ^ Zpos q) by (apply Z.pow_pos_nonneg; lia).
      split; [apply Z.mul_le_mono_nonneg_r | apply Z.mul_lt_mono_pos_r]; lia. }
    exists (Pos.iter xO p q), (Zneg q). split; [|split; [|split]]; try lia.
    + apply round_aux_exact. exact Hb.
    + exact Hb.
    + rewrite iter_xO_mul. reflexivity.
Qed.

Lemma of_int_zero : of_int 0 = Some (S754_zero false).
Proof. reflexivity. Qed.

Lemma of_int_small z :
  z <> 0 -> Z.abs z < 2 ^ 53 ->
  exists m e,
    of_int z = Some (S754_finite (z <? 0) m e) /\
    bounded prec emax m e = true /\ e <= 0 /\ Zpos m = Z.abs z * 2 ^ (- e).
Proof.
  intros Hz Hs. unfold of_int, binary_normalize.
  destruct z as [|p|p]; try lia.
  - destruct (normalize_pos false p) as [m [e [H1 [H2 [H3 H4]]]]]; [lia|].
    exists m, e. rewrite H1. auto.
  - destruct (normalize_pos true p) as [m [e [H1 [H2 [H3 H4]]]]]; [lia|].
    exists m, e. rewrite H1. auto.
Qed.

Lemma of_int_opp z :
  z <> 0 -> of_int (- z) = option_map SFopp (of_int z).
Proof.
  intros Hz. unfold of_int, binary_normalize.
  destruct z as [|p|p]; try lia; simpl Z.opp; unfold binary_round;
    destruct (shl_align _ _ _) as [mz ez].
  - change true with (negb false). rewrite round_aux_opp.
    destruct (binary_round_aux prec emax false (Zpos mz) ez loc_Exact); reflexivity.
  - change false with (negb true) at 1. rewrite round_aux_opp.
    destruct (binary_round_aux prec emax true (Zpos mz) ez loc_Exact); reflexivity.
Qed.

(** A conversion that succeeds for [z] succeeds for [-z]. *)
Lemma of_int_opp_some z : of_int z <> None -> of_int (- z) <> None.
Proof.
  destruct (Z.eq_dec z 0) as [-> | Hnz]; trivial.
  rewrite of_int_opp by exact Hnz. destruct (of_int z); simpl; congruence.
Qed.

Lemma fmul_opp_l f g : fmul (SFopp f) g = SFopp (fmul f g).
Proof.
  unfold fmul.
  destruct f as [s | s | | s m e], g as [t | t | | t n k]; simpl; try reflexivity;
    try (destruct s, t; reflexivity).
  replace (xorb (negb s) t) with (negb (xorb s t)) by (destruct s, t; reflexivity).
  apply round_aux_opp.
Qed.

(** * Facts about Python numbers *)

Lemma mul_minus_one a :
  mul a (PInt (-1)) =
  Some match a with
       | PInt z => PInt (- z)
       | PFloat f => PFloat (fmul f minus_one)
       end.
Proof.
  destruct a as [z | f]; unfold mul, to_float, bind.
  - do 2 f_equal. lia.
  - rewrite of_int_m1. reflexivity.
Qed.

Lemma mul_m1 a : valid_num a = true -> mul a (PInt (-1)) = Some (neg a).
Proof.
  intros Hv. rewrite mul_minus_one. destruct a as [z | f]; simpl; trivial.
  rewrite fmul_minus_one by exact Hv. reflexivity.
Qed.

Lemma neg_involutive a : neg (neg a) = a.
Proof.
  destruct a as [z | [s | s | | s m e]]; simpl; rewrite ?Z.opp_involutive, ?negb_involutive;
    reflexivity.
Qed.

Lemma mag_neg a : mag (neg a) = mag a.
Proof.
  destruct a as [z | [s | s | | s m e]]; simpl; rewrite ?Z.abs_opp; reflexivity.
Qed.

Lemma valid_neg a : valid_num (neg a) = valid_num a.
Proof. destruct a as [z | [s | s | | s m e]]; reflexivity. Qed.

Lemma sane_neg a : sane (neg a) = sane a.
Proof.
  destruct a as [z | [s | s | | s m e]]; simpl; rewrite ?Z.abs_opp; reflexivity.
Qed.

Lemma sane_valid a : sane a = true -> valid_num a = true.
Proof.
  destruct a as [z | f]; simpl; trivial. now intros [H _]%andb_true_iff.
Qed.

Lemma mul_float a fa c :
  to_float a = Some fa -> mul a (PFloat c) = Some (PFloat (fmul fa c)).
Proof. destruct a; unfold mul; intros ->; reflexivity. Qed.

Lemma to_float_sane a : sane a = true -> exists f, to_float a = Some f.
Proof.
  destruct a as [z | f]; unfold sane, to_float; [|eauto].
  intros Hz%Z.ltb_lt. destruct (Z.eq_dec z 0) as [-> | Hnz].
  - rewrite of_int_zero. eauto.
  - destruct (of_int_small z Hnz Hz) as [m [e [Ho _]]]. rewrite Ho. eauto.
Qed.

Lemma add_sane a b :
  sane a = true -> sane b = true -> exists c, add a b = Some c.
Proof.
  intros Sa Sb.
  destruct (to_float_sane a Sa) as [fa Ha], (to_float_sane b Sb) as [fb Hb].
  destruct a as [x | f], b as [y | g]; unfold add; rewrite ?Ha, ?Hb; cbn [bind]; eauto.
Qed.

Lemma add_kind a b c :
  add a b = Some c ->
  match a, b with
  | PInt x, PInt y => c = PInt (x + y)
  | _, _ => exists f, c = PFloat f
  end.
Proof.
  destruct a as [x | f], b as [y | g]; unfold add, bind.
  - congruence.
  - destruct (to_float (PInt x)) as [fx|]; [|discriminate]. cbn [to_float].
    intros H. exists (fadd fx g). congruence.
  - cbn [to_float]. destruct (of_int y) as [fy|]; [|discriminate].
    intros H. exists (fadd f fy). congruence.
  - cbn [to_float]. intros H. exists (fadd f g). congruence.
Qed.

(** ** Order against an integer *)

Lemma cmp_int_lt_mono f k1 k2 :
  cmp_int f k1 = Some Lt -> k1 <= k2 -> cmp_int f k2 = Some Lt.
Proof.
  destruct f as [s | s | | s m e]; unfold cmp_int; cbv beta iota zeta; trivial.
  - intros H Hk. destruct k1, k2; simpl in *; trivial; try discriminate; lia.
  - intros H Hk. assert (H' := f_equal (fun o => match o with Some c => c | None => Eq end) H).
    clear H. cbv beta iota in H'. f_equal.
    set (mz := cond_Zopp s (Zpos m)) in *. clearbody mz.
    destruct e as [|p|p]; rewrite Z.compare_lt_iff in H'; apply Z.compare_lt_iff.
    + lia.
    + set (w := 2 ^ Zpos p) in *. clearbody w. lia.
    + assert (0 < 2 ^ Zpos p) by (apply Z.pow_pos_nonneg; lia).
      set (w := 2 ^ Zpos p) in *. clearbody w. nia.
Qed.

Lemma cmp_int_gt_mono f k1 k2 :
  cmp_int f k1 = Some Gt -> k2 <= k1 -> cmp_int f k2 = Some Gt.
Proof.
  destruct f as [s | s | | s m e]; unfold cmp_int; cbv beta iota zeta; trivial.
  - intros H Hk. destruct k1, k2; simpl in *; trivial; try discriminate; lia.
  - intros H Hk. assert (H' := f_equal (fun o => match o with Some c => c | None => Eq end) H).
    clear H. cbv beta iota in H'. f_equal.
    set (mz := cond_Zopp s (Zpos m)) in *. clearbody mz.
    destruct e as [|p|p]; rewrite Z.compare_gt_iff in H'; apply Z.compare_gt_iff.
    + lia.
    + set (w := 2 ^ Zpos p) in *. clearbody w. lia.
    + assert (0 < 2 ^ Zpos p) by (apply Z.pow_pos_nonneg; lia).
      set (w := 2 ^ Zpos p) in *. clearbody w. nia.
Qed.

Lemma lt_int_mono a k1 k2 :
  lt a (PInt k1) = true -> k1 <= k2 -> lt a (PInt k2) = true.
Proof.
  unfold lt. destruct a as [z | f]; simpl.
  - destruct (Z.compare_spec z k1); try discriminate. intros _ Hk.
    destruct (Z.compare_spec z k2); trivial; lia.
  - destruct (cmp_int f k1) as [[ | | ]|] eqn:E; try discriminate. intros _ Hk.
    now rewrite (cmp_int_lt_mono _ _ _ E Hk).
Qed.

Lemma gt_int_mono a k1 k2 :
  gt a (PInt k1) = true -> k2 <= k1 -> gt a (PInt k2) = true.
Proof.
  unfold gt. destruct a as [z | f]; simpl.
  - destruct (Z.compare_spec z k1); try discriminate. intros _ Hk.
    destruct (Z.compare_spec z k2); trivial; lia.
  - destruct (cmp_int f k1) as [[ | | ]|] eqn:E; try discriminate. intros _ Hk.
    now rewrite (cmp_int_gt_mono _ _ _ E Hk).
Qed.

Lemma lt_not_gt a b : lt a b = true -> gt a b = false.
Proof. unfold lt, gt. destruct (cmp a b) as [[ | | ]|]; trivial; discriminate. Qed.

Lemma gt_not_lt a b : gt a b = true -> lt a b = false.
Proof. unfold lt, gt. destruct (cmp a b) as [[ | | ]|]; trivial; discriminate. Qed.

Lemma le_not_gt a b : le a b = true -> gt a b = false.
Proof. unfold le, gt. destruct (cmp a b) as [[ | | ]|]; trivial; discriminate. Qed.

Lemma int_le_not_lt k a : le (PInt k) a = true -> lt a (PInt k) = false.
Proof.
  unfold le, lt. destruct a as [z | f]; simpl.
  - rewrite (Z.compare_antisym k z). destruct (k ?= z); trivial; discriminate.
  - destruct (cmp_int f k) as [[ | | ]|]; trivial; discriminate.
Qed.

(** A ball left of [k1] is not right of any [k2 >= k1]. *)
Lemma lt_gt_apart a k1 k2 :
  lt a (PInt k1) = true -> k1 <= k2 -> gt a (PInt k2) = false.
Proof. intros H Hk. apply lt_not_gt. exact (lt_int_mono _ _ _ H Hk). Qed.

Lemma gt_lt_apart a k1 k2 :
  gt a (PInt k1) = true -> k2 <= k1 -> lt a (PInt k2) = false.
Proof. intros H Hk. apply gt_not_lt. exact (gt_int_mono _ _ _ H Hk). Qed.

Lemma lt_int_int x k : lt (PInt x) (PInt k) = (x <? k).
Proof. unfold lt, cmp, Z.ltb. destruct (x ?= k); reflexivity. Qed.

Lemma gt_int_int x k : gt (PInt x) (PInt k) = (k <? x).
Proof.
  unfold gt, cmp, Z.ltb. rewrite (Z.compare_antisym x k).
  destruct (x ?= k); reflexivity.
Qed.

(** ** Magnitudes *)

Lemma mag_le_fin m1 e1 m2 e2 b :
  b <= e1 -> b <= e2 ->
  m1 * 2 ^ (e1 - b) <= m2 * 2 ^ (e2 - b) ->
  mag_le (MFin m1 e1) (MFin m2 e2) = true.
Proof.
  intros H1 H2 H. unfold mag_le. apply Z.leb_le.
  set (c := Z.min e1 e2).
  assert (Hc : b <= c) by (subst c; lia).
  assert (Hw : 0 < 2 ^ (c - b)) by (apply Z.pow_pos_nonneg; lia).
  replace (e1 - b) with ((e1 - c) + (c - b)) in H by lia.
  replace (e2 - b) with ((e2 - c) + (c - b)) in H by lia.
  rewrite !Z.pow_add_r, !Z.mul_assoc in H by (subst c; lia).
  apply Z.mul_le_mono_pos_r in H; trivial.
Qed.

Lemma mag_le_fin_inv m1 e1 m2 e2 b :
  b <= e1 -> b <= e2 ->
  mag_le (MFin m1 e1) (MFin m2 e2) = true ->
  m1 * 2 ^ (e1 - b) <= m2 * 2 ^ (e2 - b).
Proof.
  intros H1 H2 H. unfold mag_le in H. apply Z.leb_le in H.
  set (c := Z.min e1 e2) in *.
  assert (Hc : b <= c) by (subst c; lia).
  assert (Hw : 0 < 2 ^ (c - b)) by (apply Z.pow_pos_nonneg; lia).
  replace (e1 - b) with ((e1 - c) + (c - b)) by lia.
  replace (e2 - b) with ((e2 - c) + (c - b)) by lia.
  rewrite !Z.pow_add_r, !Z.mul_assoc by (subst c; lia).
  apply Z.mul_le_mono_pos_r; trivial.
Qed.

Lemma mag_le_refl a : sane a = true -> abs_le a a = true.
Proof.
  unfold abs_le. destruct a as [z | [s | s | | s m e]]; simpl; intros H;
    try discriminate; trivial; apply Z.leb_le; lia.
Qed.

Lemma mag_le_trans x y z :
  mag_le x y = true -> mag_le y z = true -> mag_le x z = true.
Proof.
  destruct x as [m1 e1| |], y as [m2 e2| |], z as [m3 e3| |];
    try discriminate; trivial.
  intros H1 H2.
  set (b := Z.min e1 (Z.min e2 e3)).
  apply (mag_le_fin_inv _ _ _ _ b) in H1; try (subst b; lia).
  apply (mag_le_fin_inv _ _ _ _ b) in H2; try (subst b; lia).
  apply (mag_le_fin _ _ _ _ b); try (subst b; lia).
Qed.

Lemma abs_le_trans a b c :
  abs_le a b = true -> abs_le b c = true -> abs_le a c = true.
Proof. apply mag_le_trans. Qed.

Lemma abs_le_neg_l a b : abs_le (neg a) b = abs_le a b.
Proof. unfold abs_le. now rewrite mag_neg. Qed.

Lemma abs_le_neg_r a b : abs_le a (neg b) = abs_le a b.
Proof. unfold abs_le. now rewrite mag_neg. Qed.

(** ** Equality up to the sign *)

Lemma pm_neg a b : pm a b -> pm (neg a) b.
Proof.
  intros [-> | ->]; [right | left]; rewrite ?neg_involutive; reflexivity.
Qed.

Lemma pm_sym a b : pm a b -> pm b a.
Proof. intros [-> | ->]; [left | right]; rewrite ?neg_involutive; reflexivity. Qed.

Lemma pm_mag a b : pm a b -> mag b = mag a.
Proof. intros [-> | ->]; rewrite ?mag_neg; reflexivity. Qed.

Lemma pm_trans a b c : pm a b -> pm b c -> pm a c.
Proof.
  intros [-> | ->] [-> | ->]; rewrite ?neg_involutive;
    [left | right | right | left]; reflexivity.
Qed.

Lemma pm_neg_r a b : pm a b -> pm a (neg b).
Proof. intros H. apply pm_sym, pm_neg, pm_sym, H. Qed.

Lemma mul_neg_scale a c :
  a <> PInt 0 -> mul (neg a) (PFloat c) = option_map neg (mul a (PFloat c)).
Proof.
  destruct a as [z | f]; unfold mul, neg, to_float, bind; intros Ha.
  - assert (Hz : z <> 0) by congruence.
    rewrite of_int_opp by exact Hz.
    destruct (of_int z) as [fz|]; [|reflexivity].
    cbn [option_map]. now rewrite fmul_opp_l.
  - cbn [option_map]. now rewrite fmul_opp_l.
Qed.

Lemma pm_scale a a' c b' :
  pm a a' -> mul a' (PFloat c) = Some b' ->
  exists b, mul a (PFloat c) = Some b /\ pm b b'.
Proof.
  intros [-> | ->] H.
  - exists b'. split; [exact H | left; reflexivity].
  - assert (Hdec : a = PInt 0 \/ a <> PInt 0).
    { destruct a as [z | f]; [|right; discriminate].
      destruct (Z.eq_dec z 0) as [-> | Hz]; [left; reflexivity | right; congruence]. }
    destruct Hdec as [-> | Ha].
    + exists b'. split; [exact H | left; reflexivity].
    + rewrite mul_neg_scale in H by exact Ha.
      destruct (mul a (PFloat c)) as [b|]; [|discriminate].
      injection H as <-. exists b. split; [reflexivity | right; reflexivity].
Qed.

(** Scaling [-a] gives the magnitude of scaling [a]. *)
Lemma mag_scale_neg a c :
  option_map mag (mul (neg a) (PFloat c)) = option_map mag (mul a (PFloat c)).
Proof.
  destruct a as [z | f]; unfold mul, neg, to_float, bind.
  - destruct (Z.eq_dec z 0) as [-> | Hz]; [reflexivity|].
    rewrite of_int_opp by exact Hz.
    destruct (of_int z) as [fz|]; [|reflexivity].
    cbn [option_map]. rewrite fmul_opp_l. f_equal.
    destruct (fmul fz c) as [s | s | | s m e]; reflexivity.
  - cbn [option_map]. rewrite fmul_opp_l. f_equal.
    destruct (fmul f c) as [s | s | | s m e]; reflexivity.
Qed.

(** ** The speed-up factor *)

Lemma c1259_range : 2 ^ 52 <= Zpos 5670031930859454 < 2 ^ 53.
Proof. split; [apply Z.leb_le | apply Z.ltb_lt]; reflexivity. Qed.

(** The literal is the double nearest to 1259/1000: they differ by at most
    half a unit in the last place, 2^-53. *)
Example c1259_nearest : 2 * Z.abs (c1259_m * 1000 - 1259 * 2 ^ 52) <= 1000.
Proof. apply Z.leb_le. reflexivity. Qed.

Lemma fmul_c1259 f :
  valid f = true -> is_nan f = false ->
  valid (fmul f c1259) = true /\ is_nan (fmul f c1259) = false /\
  mag_le (mag (PFloat f)) (mag (PFloat (fmul f c1259))) = true.
Proof.
  destruct f as [s | s | | s m e]; intros Hv Hn; try discriminate.
  - destruct s; repeat split; reflexivity.
  - destruct s; repeat split; reflexivity.
  - destruct (fmul_scale_finite false _ c1259_range s m e Hv)
      as [Hi | [m' [e' [Hf [Hb [He Hm]]]]]]; unfold c1259.
    + rewrite Hi. repeat split; reflexivity.
    + rewrite Hf. split; [exact Hb|]. split; [reflexivity|].
      simpl mag. apply (mag_le_fin _ _ _ _ e); try lia.
      replace (e - e) with 0 by lia. simpl (2 ^ 0). lia.
Qed.

Lemma scale_sane a :
  sane a = true ->
  exists b, mul a (PFloat c1259) = Some b /\ sane b = true /\ abs_le a b = true.
Proof.
  destruct a as [z | f]; unfold mul, to_float, bind, sane, abs_le.
  - intros Hz%Z.ltb_lt. destruct (Z.eq_dec z 0) as [-> | Hnz].
    + rewrite of_int_zero. eexists; split; [reflexivity|]. split; reflexivity.
    + destruct (of_int_small z Hnz Hz) as [m [e [Ho [Hb [He Hm]]]]]. rewrite Ho.
      eexists; split; [reflexivity|].
      destruct (fmul_scale_finite false _ c1259_range (z <? 0) m e Hb)
        as [Hi | [m' [e' [Hf [Hb' [He' Hm']]]]]]; unfold c1259.
      * rewrite Hi. split; reflexivity.
      * rewrite Hf. split; [simpl; rewrite Hb'; reflexivity|].
        simpl mag. apply (mag_le_fin _ _ _ _ e); try lia.
        replace (0 - e) with (- e) by lia. lia.
  - intros [Hv Hn]%andb_true_iff. apply negb_true_iff in Hn.
    destruct (fmul_c1259 f Hv Hn) as [H1 [H2 H3]].
    eexists; split; [reflexivity|]. cbn [sane]. rewrite H1, H2. split; [reflexivity | exact H3].
Qed.

(** ** How far a speed-up is from the exact product *)

Lemma near_rebase n k m0 e0 m e m1 e1 c :
  m = m0 * 2 ^ (e0 - e) -> e <= e0 -> e0 - k <= e1 -> e <= e1 ->
  Z.abs (m1 * 2 ^ (e1 - e + k) - m * c) <= n * 2 ^ (e1 - e + k) ->
  near n (m0 * c) (e0 - k) (MFin m1 e1).
Proof.
  intros -> H1 H2 H3 H. unfold near. split; [lia|].
  replace (e1 - (e0 - k)) with (e1 - e0 + k) by lia.
  replace (e1 - e + k) with ((e0 - e) + (e1 - e0 + k)) in H by lia.
  rewrite Z.pow_add_r in H by lia.
  assert (Hw : 0 < 2 ^ (e0 - e)) by (apply Z.pow_pos_nonneg; lia).
  set (w := 2 ^ (e0 - e)) in *. set (u := 2 ^ (e1 - e0 + k)) in *.
  replace (m1 * (w * u) - m0 * w * c) with (w * (m1 * u - m0 * c)) in H by ring.
  replace (n * (w * u)) with (w * (n * u)) in H by ring.
  rewrite Z.abs_mul, (Z.abs_eq w) in H by lia.
  apply Z.mul_le_mono_pos_l in H; lia.
Qed.

(** Two roundings in a row: one unit in the last place each time, three
    in all against the exact double product. *)
Lemma near_compose m e m1 e1 m2 e2 c :
  0 < c < 2 ^ 53 -> e <= e1 -> e1 <= e2 ->
  Z.abs (m1 * 2 ^ (e1 - e + 52) - m * c) <= 2 ^ (e1 - e + 52) ->
  Z.abs (m2 * 2 ^ (e2 - e1 + 52) - m1 * c) <= 2 ^ (e2 - e1 + 52) ->
  Z.abs (m2 * 2 ^ (e2 - e + 104) - m * c * c) <= 3 * 2 ^ (e2 - e + 104).
Proof.
  intros Hc H1 H2 Ha Hb.
  replace (e2 - e + 104) with ((e1 - e + 52) + (e2 - e1 + 52)) by lia.
  rewrite Z.pow_add_r by lia.
  assert (Hu : 0 < 2 ^ (e1 - e + 52)) by (apply Z.pow_pos_nonneg; lia).
  assert (Hv : 2 ^ 52 <= 2 ^ (e2 - e1 + 52)) by (apply Z.pow_le_mono_r; lia).
  set (u := 2 ^ (e1 - e + 52)) in *. set (v := 2 ^ (e2 - e1 + 52)) in *.
  clearbody u v.
  replace (m2 * (u * v) - m * c * c)
    with (u * (m2 * v - m1 * c) + c * (m1 * u - m * c)) by ring.
  eapply Z.le_trans; [apply Z.abs_triangle|].
  rewrite !Z.abs_mul, (Z.abs_eq u), (Z.abs_eq c) by lia.
  assert (u * Z.abs (m2 * v - m1 * c) <= u * v) by (apply Z.mul_le_mono_nonneg_l; lia).
  assert (c * Z.abs (m1 * u - m * c) <= c * u) by (apply Z.mul_le_mono_nonneg_l; lia).
  assert (c * u <= 2 * v * u) by (apply Z.mul_le_mono_nonneg_r; lia).
  lia.
Qed.

(** A sane number other than zero is, once converted, a well-formed finite
    double of the same value. *)
Lemma sane_rep a m0 e0 :
  sane a = true -> mag a = MFin m0 e0 -> m0 <> 0 ->
  exists s m e,
    to_float a = Some (S754_finite s m e) /\ bounded prec emax m e = true /\
    Zpos m = m0 * 2 ^ (e0 - e) /\ e <= e0 /\ e0 - 52 <= e.
Proof.
  destruct a as [z | [s | s | | s m e]]; unfold sane, to_float; try discriminate.
  - intros Hz%Z.ltb_lt [= <- <-] Hnz.
    destruct (of_int_small z ltac:(lia) Hz) as [m [e [Ho [Hb [He Hm]]]]].
    exists (z <? 0), m, e. repeat split; trivial; try lia.
    assert (Zpos m < 2 ^ 53) by (destruct (bounded_cases _ _ Hb) as [_ [? | [_ ?]]]; lia).
    destruct (Z.leb_spec (-52) e); [lia|]. exfalso.
    assert (2 ^ 53 <= 2 ^ (- e)) by (apply Z.pow_le_mono_r; lia).
    assert (1 <= Z.abs z) by lia.
    assert (0 < 2 ^ (- e)) by (apply Z.pow_pos_nonneg; lia).
    nia.
  - intros _ [= <- <-] Hnz. congruence.
  - intros [Hv _]%andb_true_iff [= <- <-] _.
    exists s, m, e. repeat split; trivial; try lia.
    replace (e - e) with 0 by lia. simpl. lia.
Qed.

Lemma sane_zero a e0 :
  sane a = true -> mag a = MFin 0 e0 ->
  e0 = 0 /\ exists s, to_float a = Some (S754_zero s).
Proof.
  destruct a as [z | [s | s | | s m e]]; unfold sane, to_float; try discriminate.
  - intros _ [= Hz <-]. split; trivial. assert (z = 0) by lia. subst z.
    exists false. reflexivity.
  - intros _ [= <-]. split; trivial. exists s. reflexivity.
Qed.

(** One speed-up of a sane number: within one unit in the last place of the
    exact product by the double 1.259, unless it overflows. *)
Lemma scale_near a b m0 e0 :
  sane a = true -> mul a (PFloat c1259) = Some b -> mag a = MFin m0 e0 ->
  mag b = MInf \/ near 1 (m0 * c1259_m) (e0 - 52) (mag b).
Proof.
  intros Sa Hb Hmag.
  destruct (Z.eq_dec m0 0) as [-> | Hnz].
  - destruct (sane_zero a e0 Sa Hmag) as [-> [s Hf]].
    rewrite (mul_float _ _ _ Hf) in Hb. injection Hb as <-. right.
    destruct s; simpl; split; simpl; lia.
  - destruct (sane_rep a m0 e0 Sa Hmag Hnz) as [s [m [e [Hf [Hbd [Hm [He1 He2]]]]]]].
    rewrite (mul_float _ _ _ Hf) in Hb.
    assert (b = PFloat (fmul (S754_finite s m e) c1259)) by congruence.
    subst b. clear Hb.
    destruct (fmul_scale_finite false _ c1259_range s m e Hbd)
      as [Hi | [m' [e' [Hr [Hb' [He' [_ Herr]]]]]]]; unfold c1259.
    + rewrite Hi. left. reflexivity.
    + rewrite Hr. right. simpl mag.
      apply (near_rebase 1 52 _ _ (Zpos m) e); try lia.
      rewrite Z.mul_1_l. exact Herr.
Qed.

(** Two speed-ups in a row: within three units in the last place of the
    exact product by the square of the double 1.259. *)
Lemma scale_twice_near a b d m0 e0 :
  sane a = true ->
  mul a (PFloat c1259) = Some b -> mul b (PFloat c1259) = Some d ->
  mag a = MFin m0 e0 ->
  mag d = MInf \/ near 3 (m0 * (c1259_m * c1259_m)) (e0 - 104) (mag d).
Proof.
  intros Sa Hb Hd Hmag.
  destruct (Z.eq_dec m0 0) as [-> | Hnz].
  - destruct (sane_zero a e0 Sa Hmag) as [-> [s Hf]].
    rewrite (mul_float _ _ _ Hf) in Hb. injection Hb as <-.
    injection Hd as <-. right.
    destruct s; simpl; split; simpl; lia.
  - destruct (sane_rep a m0 e0 Sa Hmag Hnz) as [s [m [e [Hf [Hbd [Hm [He1 He2]]]]]]].
    rewrite (mul_float _ _ _ Hf) in Hb.
    assert (b = PFloat (fmul (S754_finite s m e) c1259)) by congruence.
    subst b. clear Hb.
    assert (d = PFloat (fmul (fmul (S754_finite s m e) c1259) c1259))
      by (unfold mul, to_float, bind in Hd; congruence).
    subst d. clear Hd.
    destruct (fmul_scale_finite false _ c1259_range s m e Hbd)
      as [Hi | [m1 [e1 [Hr1 [Hb1 [He1' [_ Herr1]]]]]]]; unfold c1259 in *.
    + rewrite Hi. left. reflexivity.
    + rewrite Hr1.
      destruct (fmul_scale_finite false _ c1259_range (xorb s false) m1 e1 Hb1)
        as [Hi | [m2 [e2 [Hr2 [Hb2 [He2' [_ Herr2]]]]]]].
      * rewrite Hi. left. reflexivity.
      * rewrite Hr2. right. simpl mag.
        apply (near_rebase 3 104 _ _ (Zpos m) e); try lia.
        rewrite Z.mul_assoc.
        apply (near_compose _ _ (Zpos m1) e1); trivial; try lia.
        split; [reflexivity | apply Z.ltb_lt; reflexivity].
Qed.

(** * The tick, rule by rule *)

Lemma integrate_inv s s1 :
  integrate s = Some s1 ->
  exists x y,
    add (bouleX s) (plusX s) = Some x /\ add (bouleY s) (plusY s) = Some y /\
    s1 = set_bouleY y (set_bouleX x s).
Proof.
  unfold integrate, bind.
  destruct (add (bouleX s) (plusX s)) as [x|]; [|discriminate].
  cbn [set_bouleX bouleY plusY].
  destruct (add (bouleY s) (plusY s)) as [y|]; [|discriminate].
  intros [= <-]. exists x, y. auto.
Qed.

Lemma walls_spec s :
  walls s =
  Some (if lt (bouleY s) (PInt 10) || gt (bouleY s) (PInt 486)
        then set_plusY match plusY s with
                       | PInt z => PInt (- z)
                       | PFloat f => PFloat (fmul f minus_one)
                       end s
        else s).
Proof.
  unfold walls.
  destruct (lt (bouleY s) (PInt 10)); [|destruct (gt (bouleY s) (PInt 486))];
    cbn [orb]; rewrite ?mul_minus_one; reflexivity.
Qed.

Lemma walls_flip s :
  valid_num (plusY s) = true ->
  walls s =
  Some (if lt (bouleY s) (PInt 10) || gt (bouleY s) (PInt 486)
        then set_plusY (neg (plusY s)) s else s).
Proof.
  intros Hv. unfold walls.
  destruct (lt (bouleY s) (PInt 10)); [|destruct (gt (bouleY s) (PInt 486))];
    cbn [orb]; rewrite ?mul_m1 by exact Hv; reflexivity.
Qed.

(** The walls never touch anything but [plusY]. *)
Lemma walls_frame s s2 :
  walls s = Some s2 -> exists vy, s2 = set_plusY vy s.
Proof.
  rewrite walls_spec. intros [= <-].
  destruct (_ || _); [eexists; reflexivity|].
  exists (plusY s). destruct s; reflexivity.
Qed.

Lemma goals_spec s :
  goals s =
  Some (if lt (bouleX s) (PInt 1) then
          mkState (PInt 306) (PInt 256) (PInt 2) (PInt 3) (a1 s) (a2 s)
                  (SJ1 s) (SJ2 s + 1) (Score1 s) ("J2:" ++ str (SJ2 s + 1))
        else if gt (bouleX s) (PInt 612) then
          mkState (PInt 306) (PInt 256) (PInt 2) (PInt 3) (a1 s) (a2 s)
                  (SJ1 s + 1) (SJ2 s) ("J1:" ++ str (SJ1 s + 1)) (Score2 s)
        else s).
Proof.
  unfold goals.
  destruct (lt (bouleX s) (PInt 1)); [|destruct (gt (bouleX s) (PInt 612))];
    cbn [set_SJ1 set_SJ2 plusX]; rewrite ?mul_minus_one; reflexivity.
Qed.

(** The goal rule on a ball behind a baseline. *)
Lemma goals_reset s :
  lt (bouleX s) (PInt 1) = true \/ gt (bouleX s) (PInt 612) = true ->
  exists s3,
    goals s = Some s3 /\
    bouleX s3 = PInt 306 /\ bouleY s3 = PInt 256 /\
    plusX s3 = PInt 2 /\ plusY s3 = PInt 3.
Proof.
  intros Hg. rewrite goals_spec.
  destruct (lt (bouleX s) (PInt 1)).
  - eexists. repeat split.
  - destruct Hg as [Hg | Hg]; [discriminate|]. rewrite Hg.
    eexists. repeat split.
Qed.

Lemma paddles_spec s :
  paddles s = if hits_paddle s then speed_up s else Some s.
Proof.
  unfold paddles, hits_paddle, hits_paddle2, hits_paddle1.
  destruct (lt (bouleX s) (PInt 18) && _); [reflexivity|].
  cbn [negb andb orb]. destruct (gt (bouleX s) (PInt 592) && _); reflexivity.
Qed.

Lemma hits_paddle_raw s :
  hits_paddle s =
  (lt (bouleX s) (PInt 18)
   && (lt (PInt (a1 s)) (bouleY s) && lt (bouleY s) (PInt (a1 s + 80))))
  || (gt (bouleX s) (PInt 592)
      && (lt (PInt (a2 s)) (bouleY s) && lt (bouleY s) (PInt (a2 s + 80)))).
Proof.
  unfold hits_paddle, hits_paddle2, hits_paddle1.
  destruct (lt (bouleX s) (PInt 18) && _); reflexivity.
Qed.

Lemma speed_up_spec s :
  valid_num (plusX s) = true ->
  speed_up s =
  (vx <- mul (neg (plusX s)) (PFloat c1259) ;;
   vy <- mul (plusY s) (PFloat c1259) ;;
   Some (set_plusX vx (set_plusY vy s))).
Proof.
  intros Hv. unfold speed_up. rewrite (mul_m1 _ Hv). cbn [bind set_plusX set_plusY plusX plusY].
  destruct (mul (plusY s) (PFloat c1259)) as [vy|]; cbn [bind set_plusX set_plusY plusX plusY];
    destruct (mul (neg (plusX s)) (PFloat c1259)); reflexivity.
Qed.

Lemma speed_up_frame s s' :
  speed_up s = Some s' -> exists vx vy, s' = set_plusX vx (set_plusY vy s).
Proof.
  unfold speed_up, bind.
  destruct (mul (plusX s) (PInt (-1))) as [v1|]; [|discriminate].
  cbn [set_plusX set_plusY plusX plusY].
  destruct (mul (plusY s) (PFloat c1259)) as [vy|]; [|discriminate].
  destruct (mul v1 (PFloat c1259)) as [vx|]; [|discriminate].
  intros [= <-]. exists vx, vy. reflexivity.
Qed.

Lemma speed_up_floats s s' :
  speed_up s = Some s' ->
  exists fx fy, s' = set_plusX (PFloat fx) (set_plusY (PFloat fy) s).
Proof.
  unfold speed_up, bind.
  destruct (mul (plusX s) (PInt (-1))) as [v1|]; [|discriminate].
  cbn [set_plusX set_plusY plusX plusY].
  assert (Hk : forall a b, mul a (PFloat c1259) = Some b -> exists f, b = PFloat f).
  { intros a b. destruct a as [z | s0]; unfold mul, bind.
    - destruct (to_float (PInt z)) as [fz|]; [|discriminate]. cbn [to_float].
      intros H. exists (fmul fz c1259). congruence.
    - cbn [to_float]. intros H. exists (fmul s0 c1259). congruence. }
  destruct (mul (plusY s) (PFloat c1259)) as [vy|] eqn:Ey; [|discriminate].
  destruct (mul v1 (PFloat c1259)) as [vx|] eqn:Ex; [|discriminate].
  destruct (Hk _ _ Ey) as [fy ->], (Hk _ _ Ex) as [fx ->].
  intros [= <-]. exists fx, fy. reflexivity.
Qed.

(** A ball at the kick-off spot is out of reach of both paddles. *)
Lemma paddles_centre s :
  bouleX s = PInt 306 -> hits_paddle1 s = false /\ hits_paddle2 s = false /\
  paddles s = Some s.
Proof.
  intros Hx. rewrite paddles_spec. unfold hits_paddle, hits_paddle2, hits_paddle1.
  rewrite Hx. auto.
Qed.

Lemma paddles_frame s s' :
  paddles s = Some s' -> exists vx vy, s' = set_plusX vx (set_plusY vy s).
Proof.
  rewrite paddles_spec. destruct (hits_paddle s).
  - apply speed_up_frame.
  - intros [= <-]. exists (plusX s), (plusY s). destruct s; reflexivity.
Qed.

Lemma bouboule_inv s s' :
  bouboule s = Some s' ->
  exists s1 s2 s3,
    integrate s = Some s1 /\ walls s1 = Some s2 /\ goals s2 = Some s3 /\
    paddles s3 = Some s'.
Proof.
  unfold bouboule, bind.
  destruct (integrate s) as [s1|] eqn:E1; [|discriminate].
  destruct (walls s1) as [s2|] eqn:E2; [|discriminate].
  destruct (goals s2) as [s3|] eqn:E3; [|discriminate].
  intros H. exists s1, s2, s3. repeat split; trivial.
Qed.

(** The paddles and the scores through one tick. *)
Lemma bouboule_paddles s s' :
  bouboule s = Some s' -> a1 s' = a1 s /\ a2 s' = a2 s.
Proof.
  intros H. destruct (bouboule_inv _ _ H) as [s1 [s2 [s3 [Hi [Hw [Hg Hp]]]]]].
  destruct (integrate_inv _ _ Hi) as [x [y [_ [_ ->]]]].
  destruct (walls_frame _ _ Hw) as [vy ->].
  rewrite goals_spec in Hg. injection Hg as <-.
  destruct (paddles_frame _ _ Hp) as [vx' [vy' ->]].
  cbn [set_plusX set_plusY set_bouleX set_bouleY bouleX a1 a2].
  destruct (lt x (PInt 1)); [|destruct (gt x (PInt 612))]; split; reflexivity.
Qed.

Lemma bouboule_scores s s1 s' :
  integrate s = Some s1 -> bouboule s = Some s' ->
  (SJ1 s', SJ2 s', Score1 s', Score2 s') =
  if lt (bouleX s1) (PInt 1) then
    (SJ1 s, SJ2 s + 1, Score1 s, "J2:" ++ str (SJ2 s + 1))%string
  else if gt (bouleX s1) (PInt 612) then
    (SJ1 s + 1, SJ2 s, "J1:" ++ str (SJ1 s + 1), Score2 s)%string
  else (SJ1 s, SJ2 s, Score1 s, Score2 s).
Proof.
  intros Hi H. destruct (bouboule_inv _ _ H) as [s1' [s2 [s3 [Hi' [Hw [Hg Hp]]]]]].
  rewrite Hi in Hi'. injection Hi' as <-.
  destruct (integrate_inv _ _ Hi) as [x [y [_ [_ ->]]]].
  destruct (walls_frame _ _ Hw) as [vy ->].
  rewrite goals_spec in Hg. injection Hg as <-.
  destruct (paddles_frame _ _ Hp) as [vx' [vy' ->]].
  cbn [set_plusX set_plusY set_bouleX set_bouleY bouleX SJ1 SJ2 Score1 Score2].
  destruct (lt x (PInt 1)); [|destruct (gt x (PInt 612))]; reflexivity.
Qed.

(** What a tick can do to the ball, all at once. *)
Lemma bouboule_shape s s' :
  bouboule s = Some s' ->
  exists x1 y1 vy2,
    add (bouleX s) (plusX s) = Some x1 /\
    add (bouleY s) (plusY s) = Some y1 /\
    (lt y1 (PInt 10) || gt y1 (PInt 486) = false /\ vy2 = plusY s \/
     lt y1 (PInt 10) || gt y1 (PInt 486) = true /\
     mul (plusY s) (PInt (-1)) = Some vy2) /\
    (lt x1 (PInt 1) || gt x1 (PInt 612) = true /\
     bouleX s' = PInt 306 /\ bouleY s' = PInt 256 /\
     plusX s' = PInt 2 /\ plusY s' = PInt 3 \/
     lt x1 (PInt 1) || gt x1 (PInt 612) = false /\
     bouleX s' = x1 /\ bouleY s' = y1 /\
     (plusX s' = plusX s /\ plusY s' = vy2 \/
      exists fx fy, plusX s' = PFloat fx /\ plusY s' = PFloat fy)).
Proof.
  intros H. destruct (bouboule_inv _ _ H) as [s1 [s2 [s3 [Hi [Hw [Hg Hp]]]]]].
  destruct (integrate_inv _ _ Hi) as [x1 [y1 [Hx [Hy ->]]]].
  exists x1, y1.
  rewrite walls_spec in Hw.
  cbn [set_bouleX set_bouleY bouleY plusY] in Hw.
  assert (Hs2 : exists vy2,
    s2 = set_plusY vy2 (set_bouleY y1 (set_bouleX x1 s)) /\
    (lt y1 (PInt 10) || gt y1 (PInt 486) = false /\ vy2 = plusY s \/
     lt y1 (PInt 10) || gt y1 (PInt 486) = true /\
     mul (plusY s) (PInt (-1)) = Some vy2)).
  { destruct (lt y1 (PInt 10) || gt y1 (PInt 486)).
    - injection Hw as <-. eexists. split; [reflexivity|].
      right. split; trivial. apply mul_minus_one.
    - injection Hw as <-. exists (plusY s). split; [|left; auto].
      destruct s; reflexivity. }
  destruct Hs2 as [vy2 [-> Hvy2]]. exists vy2.
  split; [exact Hx|]. split; [exact Hy|]. split; [exact Hvy2|].
  rewrite goals_spec in Hg.
  cbn [set_plusY set_bouleX set_bouleY bouleX a1 a2 SJ1 SJ2 Score1 Score2] in Hg.
  rewrite paddles_spec in Hp.
  destruct (lt x1 (PInt 1)) eqn:Hl; [|destruct (gt x1 (PInt 612)) eqn:Hr];
    cbn [orb]; injection Hg as <-.
  - left. destruct (hits_paddle _) eqn:Hh in Hp.
    + unfold hits_paddle, hits_paddle2, hits_paddle1 in Hh. discriminate.
    + injection Hp as <-. repeat split.
  - left. destruct (hits_paddle _) eqn:Hh in Hp.
    + unfold hits_paddle, hits_paddle2, hits_paddle1 in Hh. discriminate.
    + injection Hp as <-. repeat split.
  - right. split; trivial. destruct (hits_paddle _) in Hp.
    + destruct (speed_up_floats _ _ Hp) as [fx [fy ->]].
      repeat split. right. exists fx, fy. split; reflexivity.
    + injection Hp as <-. repeat split. left. split; reflexivity.
Qed.

(** ** Ticks without a goal, ticks with a paddle hit *)

Lemma quiet_tick s s1 :
  integrate s = Some s1 ->
  valid_num (plusY s) = true ->
  lt (bouleX s1) (PInt 1) = false -> gt (bouleX s1) (PInt 612) = false ->
  exists s2,
    s2 = (if lt (bouleY s1) (PInt 10) || gt (bouleY s1) (PInt 486)
          then set_plusY (neg (plusY s)) s1 else s1) /\
    walls s1 = Some s2 /\ goals s2 = Some s2 /\ bouboule s = paddles s2 /\
    plusX s2 = plusX s /\ mag (plusY s2) = mag (plusY s) /\
    sane (plusY s2) = sane (plusY s).
Proof.
  intros Hi Hv Hl Hg.
  destruct (integrate_inv _ _ Hi) as [x [y [_ [_ E]]]].
  assert (Hvy : plusY s1 = plusY s) by (subst s1; reflexivity).
  assert (Hvx : plusX s1 = plusX s) by (subst s1; reflexivity).
  eexists. split; [reflexivity|].
  assert (Hw : walls s1 =
    Some (if lt (bouleY s1) (PInt 10) || gt (bouleY s1) (PInt 486)
          then set_plusY (neg (plusY s)) s1 else s1)).
  { rewrite walls_flip by (rewrite Hvy; exact Hv). rewrite Hvy. reflexivity. }
  split; [exact Hw|].
  assert (Hgo : forall t, bouleX t = bouleX s1 -> goals t = Some t).
  { intros t Ht. rewrite goals_spec, Ht, Hl, Hg. reflexivity. }
  split; [apply Hgo; destruct (_ || _); reflexivity|].
  split.
  { unfold bouboule. rewrite Hi. cbn [bind]. rewrite Hw. cbn [bind].
    rewrite Hgo by (destruct (_ || _); reflexivity). reflexivity. }
  destruct (_ || _); cbn [set_plusY plusX plusY];
    rewrite ?mag_neg, ?sane_neg, ?Hvx, ?Hvy; auto.
Qed.

(** A paddle branch can only fire in a tick without a goal. *)
Lemma paddle_fires_quiet s :
  paddle_fires s = true ->
  exists s1 s3,
    integrate s = Some s1 /\
    lt (bouleX s1) (PInt 1) = false /\ gt (bouleX s1) (PInt 612) = false /\
    (s1 <- integrate s ;; s2 <- walls s1 ;; goals s2) = Some s3 /\
    hits_paddle s3 = true.
Proof.
  unfold paddle_fires.
  destruct (integrate s) as [s1|] eqn:Hi; [|discriminate]. cbn [bind].
  rewrite walls_spec. cbn [bind]. rewrite goals_spec.
  set (s2 := if _ || _ then _ else s1).
  assert (Hx : bouleX s2 = bouleX s1) by (subst s2; destruct (_ || _); reflexivity).
  rewrite Hx. intros H. exists s1.
  destruct (lt (bouleX s1) (PInt 1)); [discriminate|].
  destruct (gt (bouleX s1) (PInt 612)); [discriminate|].
  exists s2. auto.
Qed.

Lemma hit_tick s :
  sane (plusX s) = true -> sane (plusY s) = true ->
  paddle_fires s = true ->
  exists s3 vx vy,
    (s1 <- integrate s ;; s2 <- walls s1 ;; goals s2) = Some s3 /\
    hits_paddle s3 = true /\
    plusX s3 = plusX s /\ pm (plusY s) (plusY s3) /\
    mul (neg (plusX s3)) (PFloat c1259) = Some vx /\
    mul (plusY s3) (PFloat c1259) = Some vy /\
    bouboule s = Some (set_plusX vx (set_plusY vy s3)) /\
    sane vx = true /\ sane vy = true.
Proof.
  intros Sx Sy Hf.
  destruct (paddle_fires_quiet _ Hf) as [s1 [s3 [Hi [Hl [Hg [Hpre Hh]]]]]].
  destruct (quiet_tick _ _ Hi (sane_valid _ Sy) Hl Hg)
    as [s2 [E2 [Hw [Hgo [Hb [Hvx [_ Hsy]]]]]]].
  assert (E3 : s3 = s2).
  { rewrite Hi in Hpre. cbn [bind] in Hpre. rewrite Hw in Hpre. cbn [bind] in Hpre.
    congruence. }
  subst s3.
  assert (Hpm : pm (plusY s) (plusY s2)).
  { assert (Hvy : plusY s1 = plusY s).
    { destruct (integrate_inv _ _ Hi) as [x [y [_ [_ ->]]]]. reflexivity. }
    rewrite E2. destruct (_ || _); cbn [set_plusY plusY];
      [right | left; rewrite Hvy]; reflexivity. }
  destruct (scale_sane (neg (plusX s2))) as [vx [Hmx [Svx _]]];
    [rewrite sane_neg, Hvx; exact Sx|].
  destruct (scale_sane (plusY s2)) as [vy [Hmy [Svy _]]];
    [rewrite Hsy; exact Sy|].
  exists s2, vx, vy. repeat split; trivial.
  rewrite Hb, paddles_spec, Hh, speed_up_spec
    by (apply sane_valid; rewrite Hvx; exact Sx).
  rewrite Hmx. cbn [bind]. rewrite Hmy. reflexivity.
Qed.

Lemma quiet_step s s1 :
  sane (plusX s) = true -> sane (plusY s) = true ->
  integrate s = Some s1 ->
  lt (bouleX s1) (PInt 1) = false -> gt (bouleX s1) (PInt 612) = false ->
  exists s',
    bouboule s = Some s' /\
    abs_le (plusX s) (plusX s') = true /\ abs_le (plusY s) (plusY s') = true /\
    sane (plusX s') = true /\ sane (plusY s') = true.
Proof.
  intros Sx Sy Hi Hl Hg.
  destruct (quiet_tick _ _ Hi (sane_valid _ Sy) Hl Hg)
    as [s2 [_ [Hw [Hgo [Hb [Hvx [Hmy Hsy]]]]]]].
  rewrite Hb, paddles_spec. destruct (hits_paddle s2) eqn:Hh.
  - rewrite speed_up_spec by (apply sane_valid; rewrite Hvx; exact Sx).
    destruct (scale_sane (neg (plusX s2))) as [vx [Hmx [Svx Lx]]];
      [rewrite sane_neg, Hvx; exact Sx|].
    destruct (scale_sane (plusY s2)) as [vy [Hmy' [Svy Ly]]];
      [rewrite Hsy; exact Sy|].
    rewrite Hmx. cbn [bind]. rewrite Hmy'. cbn [bind].
    eexists. split; [reflexivity|]. cbn [set_plusX set_plusY plusX plusY].
    rewrite abs_le_neg_l, Hvx in Lx. unfold abs_le in Ly |- *.
    rewrite Hmy in Ly. auto.
  - exists s2. split; [reflexivity|]. rewrite Hvx. unfold abs_le. rewrite Hmy.
    rewrite Hsy. repeat split; trivial; apply mag_le_refl; assumption.
Qed.

(** A tick returns as soon as the numbers it adds can be added. *)
Lemma bouboule_returns s :
  sane (plusX s) = true -> sane (plusY s) = true ->
  (forall x, bouleX s = PInt x -> Z.abs x < 2 ^ 53) ->
  (forall y, bouleY s = PInt y -> Z.abs y < 2 ^ 53) ->
  exists s', bouboule s = Some s'.
Proof.
  intros Sx Sy Hx Hy.
  assert (Hi : exists s1, integrate s = Some s1).
  { unfold integrate.
    assert (Ax : exists x1, add (bouleX s) (plusX s) = Some x1).
    { destruct (bouleX s) as [x | fx] eqn:Ex.
      - apply add_sane; trivial. apply Z.ltb_lt. apply Hx. reflexivity.
      - destruct (to_float_sane _ Sx) as [g Hg]. unfold add. rewrite Hg.
        destruct (plusX s); cbn; eauto. }
    destruct Ax as [x1 ->]. cbn [bind set_bouleX bouleY plusY].
    assert (Ay : exists y1, add (bouleY s) (plusY s) = Some y1).
    { destruct (bouleY s) as [y | fy] eqn:Ey.
      - apply add_sane; trivial. apply Z.ltb_lt. apply Hy. reflexivity.
      - destruct (to_float_sane _ Sy) as [g Hg]. unfold add. rewrite Hg.
        destruct (plusY s); cbn; eauto. }
    destruct Ay as [y1 ->]. cbn [bind]. eauto. }
  destruct Hi as [s1 Hi].
  destruct (lt (bouleX s1) (PInt 1)) eqn:Hl;
    [|destruct (gt (bouleX s1) (PInt 612)) eqn:Hg].
  - unfold bouboule. rewrite Hi. cbn [bind]. rewrite walls_spec. cbn [bind].
    rewrite goals_spec.
    set (s2 := if _ || _ then _ else s1).
    replace (bouleX s2) with (bouleX s1) by (subst s2; destruct (_ || _); reflexivity).
    rewrite Hl. cbn [bind]. eexists. apply paddles_centre. reflexivity.
  - unfold bouboule. rewrite Hi. cbn [bind]. rewrite walls_spec. cbn [bind].
    rewrite goals_spec.
    set (s2 := if _ || _ then _ else s1).
    replace (bouleX s2) with (bouleX s1) by (subst s2; destruct (_ || _); reflexivity).
    rewrite Hl, Hg. cbn [bind]. eexists. apply paddles_centre. reflexivity.
  - destruct (quiet_step s s1 Sx Sy Hi Hl Hg) as [s' [H _]]. eauto.
Qed.

(** * Runs *)

(** Along a whole run. *)
Lemma run_scores evs : forall s s',
  run evs s = Some s' -> SJ1 s <= SJ1 s' /\ SJ2 s <= SJ2 s'.
Proof.
  induction evs as [|ev evs IH]; intros s s'; cbn [run].
  - intros [= <-]. lia.
  - destruct (handle ev s) as [t|] eqn:E; [|discriminate]. cbn [bind]. intros H.
    destruct (IH _ _ H) as [H3 H4].
    destruct ev as [|k]; cbn [handle] in E.
    + destruct (bouboule_inv _ _ E) as [s1 [_ [_ [Hi _]]]].
      pose proof (bouboule_scores _ _ _ Hi E) as Es.
      destruct (lt (bouleX s1) (PInt 1)); [|destruct (gt (bouleX s1) (PInt 612))];
        injection Es as E1 E2 _ _; lia.
    + injection E as <-. unfold ControlesJ1etJ2 in H3, H4.
      repeat match type of H3 with context [if ?b then _ else _] => destruct b end;
        cbn in H3, H4; lia.
Qed.

Lemma keys_paddles k s :
  (-25 <= a1 s <= 446 -> -25 <= a1 (ControlesJ1etJ2 k s) <= 446) /\
  (-25 <= a2 s <= 446 -> -25 <= a2 (ControlesJ1etJ2 k s) <= 446).
Proof.
  unfold ControlesJ1etJ2.
  destruct ((k =? "s")%string && (a1 s + 25 <=? 446)) eqn:E1;
    [|destruct ((k =? "z")%string && (a1 s - 25 >=? -25)) eqn:E2;
      [|destruct ((k =? "Down")%string && (a2 s + 25 <=? 446)) eqn:E3;
        [|destruct ((k =? "Up")%string && (a2 s - 25 >=? -25)) eqn:E4]]];
    cbn [set_a1 set_a2 a1 a2];
    repeat match goal with
           | H : _ && _ = true |- _ => apply andb_true_iff in H; destruct H
           end; lia.
Qed.

Lemma handle_paddle_range ev s s' :
  handle ev s = Some s' ->
  (-25 <= a1 s <= 446 -> -25 <= a1 s' <= 446) /\
  (-25 <= a2 s <= 446 -> -25 <= a2 s' <= 446).
Proof.
  destruct ev as [|k]; cbn [handle].
  - intros H. destruct (bouboule_paddles _ _ H) as [-> ->]. auto.
  - intros [= <-]. apply keys_paddles.
Qed.

Lemma run_paddle_range evs : forall s s',
  run evs s = Some s' ->
  (-25 <= a1 s <= 446 -> -25 <= a1 s' <= 446) /\
  (-25 <= a2 s <= 446 -> -25 <= a2 s' <= 446).
Proof.
  induction evs as [|ev evs IH]; intros s s'; cbn [run].
  - intros [= <-]. auto.
  - destruct (handle ev s) as [t|] eqn:E; [|discriminate]. cbn [bind]. intros H.
    destruct (handle_paddle_range _ _ _ E) as [H1 H2].
    destruct (IH _ _ H) as [H3 H4]. auto.
Qed.

Lemma keys_lattice k s :
  (paddle_lattice (a1 s) -> paddle_lattice (a1 (ControlesJ1etJ2 k s))) /\
  (paddle_lattice (a2 s) -> paddle_lattice (a2 (ControlesJ1etJ2 k s))).
Proof.
  unfold ControlesJ1etJ2, paddle_lattice.
  destruct ((k =? "s")%string && (a1 s + 25 <=? 446)) eqn:E1;
    [|destruct ((k =? "z")%string && (a1 s - 25 >=? -25)) eqn:E2;
      [|destruct ((k =? "Down")%string && (a2 s + 25 <=? 446)) eqn:E3;
        [|destruct ((k =? "Up")%string && (a2 s - 25 >=? -25)) eqn:E4]]];
    cbn [set_a1 set_a2 a1 a2];
    repeat match goal with
           | H : _ && _ = true |- _ => apply andb_true_iff in H; destruct H
           end;
    split; intros [Hr Hm]; Z.div_mod_to_equations; lia.
Qed.

Lemma handle_lattice ev s s' :
  handle ev s = Some s' ->
  (paddle_lattice (a1 s) -> paddle_lattice (a1 s')) /\
  (paddle_lattice (a2 s) -> paddle_lattice (a2 s')).
Proof.
  destruct ev as [|k]; cbn [handle].
  - intros H. destruct (bouboule_paddles _ _ H) as [-> ->]. auto.
  - intros [= <-]. apply keys_lattice.
Qed.

Lemma run_lattice evs : forall s s',
  run evs s = Some s' ->
  (paddle_lattice (a1 s) -> paddle_lattice (a1 s')) /\
  (paddle_lattice (a2 s) -> paddle_lattice (a2 s')).
Proof.
  induction evs as [|ev evs IH]; intros s s'; cbn [run].
  - intros [= <-]. auto.
  - destruct (handle ev s) as [t|] eqn:E; [|discriminate]. cbn [bind]. intros H.
    destruct (handle_lattice _ _ _ E) as [H1 H2].
    destruct (IH _ _ H) as [H3 H4]. auto.
Qed.

Lemma keys_ball k s :
  bouleX (ControlesJ1etJ2 k s) = bouleX s /\ bouleY (ControlesJ1etJ2 k s) = bouleY s /\
  plusX (ControlesJ1etJ2 k s) = plusX s /\ plusY (ControlesJ1etJ2 k s) = plusY s.
Proof.
  unfold ControlesJ1etJ2.
  repeat match goal with |- context [if ?b then _ else _] => destruct b end;
    repeat split.
Qed.

(** ** Velocities stay sane *)

Lemma bouboule_sane s s' :
  sane (plusX s) = true -> sane (plusY s) = true ->
  bouboule s = Some s' ->
  sane (plusX s') = true /\ sane (plusY s') = true.
Proof.
  intros Sx Sy H. destruct (bouboule_inv _ _ H) as [s1 [s2 [s3 [Hi [Hw [Hgo Hp]]]]]].
  assert (Hx : bouleX s2 = bouleX s1).
  { destruct (walls_frame _ _ Hw) as [vy ->]. reflexivity. }
  destruct (lt (bouleX s1) (PInt 1)) eqn:Hl;
    [|destruct (gt (bouleX s1) (PInt 612)) eqn:Hg].
  - destruct (goals_reset s2) as [t [Ht [Ex [_ [Evx Evy]]]]];
      [left; rewrite Hx; exact Hl|].
    assert (t = s3) by congruence. subst t.
    destruct (paddles_centre s3 Ex) as [_ [_ Hc]].
    assert (s' = s3) by congruence. subst s'. rewrite Evx, Evy. split; reflexivity.
  - destruct (goals_reset s2) as [t [Ht [Ex [_ [Evx Evy]]]]];
      [right; rewrite Hx; exact Hg|].
    assert (t = s3) by congruence. subst t.
    destruct (paddles_centre s3 Ex) as [_ [_ Hc]].
    assert (s' = s3) by congruence. subst s'. rewrite Evx, Evy. split; reflexivity.
  - destruct (quiet_step s s1 Sx Sy Hi Hl Hg) as [t [Ht [_ [_ [S1 S2]]]]].
    rewrite Ht in H. injection H as <-. auto.
Qed.

Lemma handle_sane ev s s' :
  sane (plusX s) = true -> sane (plusY s) = true ->
  handle ev s = Some s' ->
  sane (plusX s') = true /\ sane (plusY s') = true.
Proof.
  destruct ev as [|k]; cbn [handle]; intros Sx Sy H.
  - exact (bouboule_sane _ _ Sx Sy H).
  - injection H as <-. unfold ControlesJ1etJ2.
    repeat match goal with |- context [if ?b then _ else _] => destruct b end;
      cbn [set_a1 set_a2 plusX plusY]; auto.
Qed.

(** Every reachable velocity is a small integer or a well-formed double
    other than NaN. *)
Lemma run_sane evs : forall s s',
  sane (plusX s) = true -> sane (plusY s) = true ->
  run evs s = Some s' ->
  sane (plusX s') = true /\ sane (plusY s') = true.
Proof.
  induction evs as [|ev evs IH]; intros s s' Sx Sy; cbn [run].
  - intros [= <-]. auto.
  - destruct (handle ev s) as [t|] eqn:E; [|discriminate]. cbn [bind]. intros H.
    destruct (handle_sane _ _ _ Sx Sy E) as [Tx Ty]. exact (IH _ _ Tx Ty H).
Qed.

(** X12. The velocity of a reachable state is never a NaN: each component
    is an [int] below 2^53 in absolute value or a well-formed double other
    than NaN. *)
Lemma reachable_sane s :
  reachable s -> sane (plusX s) = true /\ sane (plusY s) = true.
Proof. intros [evs H]. exact (run_sane evs init s eq_refl eq_refl H). Qed.

Lemma handle_quiet ev s s' :
  sane (plusX s) = true -> sane (plusY s) = true ->
  quiet ev s = true -> handle ev s = Some s' ->
  abs_le (plusX s) (plusX s') = true /\ abs_le (plusY s) (plusY s') = true.
Proof.
  destruct ev as [|k]; cbn [handle quiet]; intros Sx Sy Hq H.
  - destruct (bouboule_inv _ _ H) as [s1 [_ [_ [Hi _]]]]. rewrite Hi in Hq.
    apply negb_true_iff, orb_false_iff in Hq as [Hl Hg].
    destruct (quiet_step s s1 Sx Sy Hi Hl Hg) as [t [Ht [Lx [Ly _]]]].
    rewrite Ht in H. injection H as <-. auto.
  - injection H as <-.
    assert (E : plusX (ControlesJ1etJ2 k s) = plusX s /\
                plusY (ControlesJ1etJ2 k s) = plusY s).
    { unfold ControlesJ1etJ2.
      repeat match goal with |- context [if ?b then _ else _] => destruct b end;
        split; reflexivity. }
    destruct E as [-> ->]. split; apply mag_le_refl; assumption.
Qed.

Lemma run_quiet_speed evs : forall s s',
  sane (plusX s) = true -> sane (plusY s) = true ->
  run_quiet evs s = true -> run evs s = Some s' ->
  abs_le (plusX s) (plusX s') = true /\ abs_le (plusY s) (plusY s') = true.
Proof.
  induction evs as [|ev evs IH]; intros s s' Sx Sy; cbn [run run_quiet].
  - intros _ [= <-]. split; apply mag_le_refl; assumption.
  - destruct (handle ev s) as [t|] eqn:E; [|discriminate]. cbn [bind].
    intros [Hq Hr]%andb_true_iff H.
    destruct (handle_sane _ _ _ Sx Sy E) as [Tx Ty].
    destruct (handle_quiet _ _ _ Sx Sy Hq E) as [L1 L2].
    destruct (IH _ _ Tx Ty Hr H) as [L3 L4].
    split; eapply abs_le_trans; eassumption.
Qed.

(** ** Between two hits *)

(** A tick in which neither a goal nor a paddle branch fires leaves [plusX]
    alone and [plusY] up to its sign. *)
Lemma idle_tick s s' :
  sane (plusY s) = true ->
  idle Tick s = true -> bouboule s = Some s' ->
  plusX s' = plusX s /\ pm (plusY s) (plusY s').
Proof.
  intros Sy Hidle H. unfold idle, quiet in Hidle.
  destruct (bouboule_inv _ _ H) as [s1 [_ [_ [Hi _]]]]. rewrite Hi in Hidle.
  apply andb_true_iff in Hidle as [Hq Hf].
  apply negb_true_iff, orb_false_iff in Hq as [Hl Hg].
  apply negb_true_iff in Hf.
  destruct (quiet_tick _ _ Hi (sane_valid _ Sy) Hl Hg)
    as [s2 [E2 [Hw [Hgo [Hb [Hvx _]]]]]].
  assert (Hh : hits_paddle s2 = false).
  { unfold paddle_fires in Hf. rewrite Hi in Hf. cbn [bind] in Hf.
    rewrite Hw in Hf. cbn [bind] in Hf. rewrite Hgo in Hf. exact Hf. }
  rewrite Hb, paddles_spec, Hh in H. injection H as <-.
  split; [exact Hvx|].
  assert (Hvy : plusY s1 = plusY s).
  { destruct (integrate_inv _ _ Hi) as [x [y [_ [_ ->]]]]. reflexivity. }
  rewrite E2.
  destruct (lt (bouleY s1) (PInt 10) || gt (bouleY s1) (PInt 486));
    cbn [set_plusY plusY]; [right | left; rewrite Hvy]; reflexivity.
Qed.

Lemma run_idle_velocity evs : forall s s',
  sane (plusX s) = true -> sane (plusY s) = true ->
  run_idle evs s = true -> run evs s = Some s' ->
  plusX s' = plusX s /\ pm (plusY s) (plusY s').
Proof.
  induction evs as [|ev evs IH]; intros s s' Sx Sy; cbn [run run_idle].
  - intros _ [= <-]. split; [reflexivity | left; reflexivity].
  - destruct (handle ev s) as [t|] eqn:E; [|discriminate]. cbn [bind].
    intros [Hq Hr]%andb_true_iff H.
    destruct (handle_sane _ _ _ Sx Sy E) as [Tx Ty].
    destruct (IH _ _ Tx Ty Hr H) as [Ex Py].
    assert (Hstep : plusX t = plusX s /\ pm (plusY s) (plusY t)).
    { destruct ev as [|k]; cbn [handle] in E.
      - exact (idle_tick _ _ Sy Hq E).
      - injection E as <-. destruct (keys_ball k s) as (_ & _ & -> & ->).
        split; [reflexivity | left; reflexivity]. }
    destruct Hstep as [Ex' Py']. split; [congruence|].
    exact (pm_trans _ _ _ Py' Py).
Qed.

(** ** No reachable tick raises *)

Lemma tick_int_phase_x s s' :
  bouboule s = Some s' -> int_phase_x s -> int_phase_x s'.
Proof.
  intros H I. destruct (bouboule_shape _ _ H) as [x1 [y1 [vy2 [Hx [_ [_ Hg]]]]]].
  unfold int_phase_x in *.
  destruct Hg as [[_ [-> [_ [-> _]]]] | [Hq [-> [_ Hv]]]]; [split; [lia | auto]|].
  apply add_kind in Hx.
  destruct (bouleX s) as [x | fx]; [|destruct Hx as [f ->]; exact Logic.I].
  destruct (plusX s) as [vx | fvx]; [|destruct Hx as [f ->]; exact Logic.I].
  subst x1. rewrite lt_int_int, gt_int_int in Hq.
  apply orb_false_iff in Hq as [_ Hq%Z.ltb_ge].
  destruct I as [Ix Iv]. split; [lia|].
  destruct Hv as [[-> _] | [fx [fy [-> _]]]]; trivial.
Qed.

Lemma bounces_step step lo hi y vy :
  (step = 6 /\ lo = 4 /\ hi = 490) \/ (step = 3 /\ lo = 7 /\ hi = 487) ->
  bounces step lo hi y vy ->
  lo <= y + vy <= hi /\
  bounces step lo hi (y + vy)
    (if (y + vy <? 10) || (486 <? y + vy) then vy * -1 else vy).
Proof.
  unfold bounces. intros Hc (Ha & Hm & Hr & Hd & Hu).
  assert (Hrange : lo <= y + vy <= hi).
  { destruct Hc as [(-> & -> & ->) | (-> & -> & ->)];
      change (4 mod 6) with 4 in *; change (7 mod 3) with 1 in *;
      Z.div_mod_to_equations; lia. }
  split; [exact Hrange|].
  destruct (Z.ltb_spec (y + vy) 10) as [Hl | Hl];
    [|destruct (Z.ltb_spec 486 (y + vy)) as [Hh | Hh]]; cbn [orb];
    destruct Hc as [(-> & -> & ->) | (-> & -> & ->)];
    change (4 mod 6) with 4 in *; change (7 mod 3) with 1 in *;
    repeat split; try lia; Z.div_mod_to_equations; lia.
Qed.

Lemma tick_int_phase_y s s' :
  bouboule s = Some s' -> int_phase_y s -> int_phase_y s'.
Proof.
  intros H I. destruct (bouboule_shape _ _ H) as [x1 [y1 [vy2 [_ [Hy [Hw Hg]]]]]].
  unfold int_phase_y in *.
  destruct Hg as [[_ [_ [-> [_ ->]]]] | [_ [_ [-> Hv]]]].
  { right. unfold bounces. repeat split; try lia; reflexivity. }
  apply add_kind in Hy.
  destruct (bouleY s) as [y | fy]; [|destruct Hy as [f ->]; exact Logic.I].
  destruct (plusY s) as [vy | fvy]; [|destruct Hy as [f ->]; exact Logic.I].
  subst y1. rewrite lt_int_int, gt_int_int in Hw.
  assert (Hvy2 : vy2 = PInt (if (y + vy <? 10) || (486 <? y + vy) then vy * -1 else vy)).
  { destruct Hw as [[-> ->] | [-> Hm]]; [reflexivity|].
    unfold mul in Hm. congruence. }
  assert (Hb : 4 <= y + vy <= 490 /\
               (bounces 6 4 490 (y + vy)
                  (if (y + vy <? 10) || (486 <? y + vy) then vy * -1 else vy) \/
                bounces 3 7 487 (y + vy)
                  (if (y + vy <? 10) || (486 <? y + vy) then vy * -1 else vy))).
  { destruct I as [I | I].
    - destruct (bounces_step 6 4 490 y vy) as [Hr Hb];
        [left; auto | exact I | split; [lia | left; exact Hb]].
    - destruct (bounces_step 3 7 487 y vy) as [Hr Hb];
        [right; auto | exact I | split; [lia | right; exact Hb]]. }
  destruct Hv as [[_ ->] | [fx [fy' [_ ->]]]].
  - rewrite Hvy2. apply Hb.
  - apply Hb.
Qed.

Lemma handle_court ev s s' :
  handle ev s = Some s' -> court_inv s -> court_inv s'.
Proof.
  unfold court_inv. intros H (Sx & Sy & Ix & Iy). destruct ev as [|k]; cbn [handle] in H.
  - destruct (bouboule_sane _ _ Sx Sy H) as [Sx' Sy'].
    repeat split; trivial;
      [exact (tick_int_phase_x _ _ H Ix) | exact (tick_int_phase_y _ _ H Iy)].
  - injection H as <-. destruct (keys_ball k s) as (Ex & Ey & Evx & Evy).
    unfold int_phase_x, int_phase_y. rewrite Ex, Ey, Evx, Evy. auto.
Qed.

Lemma run_court evs : forall s s',
  run evs s = Some s' -> court_inv s -> court_inv s'.
Proof.
  induction evs as [|ev evs IH]; intros s s'; cbn [run].
  - intros [= <-]. auto.
  - destruct (handle ev s) as [t|] eqn:E; [|discriminate]. cbn [bind]. intros H I.
    exact (IH _ _ H (handle_court _ _ _ E I)).
Qed.

Lemma court_inv_init : court_inv init.
Proof.
  unfold court_inv, int_phase_x, int_phase_y, bounces.
  cbn [init bouleX bouleY plusX plusY].
  split; [reflexivity|]. split; [reflexivity|]. split; [split; [lia | auto]|].
  left. repeat split; try lia; reflexivity.
Qed.

Lemma reachable_court s : reachable s -> court_inv s.
Proof. intros [evs H]. exact (run_court _ _ _ H court_inv_init). Qed.

(** X1. In every reachable state the tick returns: no addition or product
    of the game ever meets an [int] too large for a [float], and the next
    state is reachable again.  The loop never stops on an exception. *)
Lemma reachable_tick_returns s :
  reachable s -> exists s', bouboule s = Some s' /\ reachable s'.
Proof.
  intros R. destruct (reachable_court s R) as (Sx & Sy & Ix & Iy).
  destruct (bouboule_returns s Sx Sy) as [s' H].
  - intros x Ex. unfold int_phase_x in Ix. rewrite Ex in Ix. lia.
  - intros y Ey. unfold int_phase_y, bounces in Iy. rewrite Ey in Iy.
    destruct (plusY s); lia.
  - exists s'. split; [exact H|]. destruct R as [evs Hr].
    exists (evs ++ [Tick]).
    clear - Hr H. revert Hr. generalize init. induction evs as [|ev evs IH]; intros s0; cbn.
    + intros [= ->]. rewrite H. reflexivity.
    + destruct (handle ev s0) as [t|]; [|discriminate]. cbn. apply IH.
Qed.

(** * The claims *)

(** C1. In every tick in which a goal branch fires, that is when the ball is
    at [x < 1] or [x > 612] once integrated, the tick returns and leaves the
    ball at exactly (306, 256) with velocity exactly (2, 3), whatever the
    velocity was before: the sign flip of [plusX] is overwritten. *)
Theorem goal_resets_ball s s1 :
  integrate s = Some s1 ->
  lt (bouleX s1) (PInt 1) = true \/ gt (bouleX s1) (PInt 612) = true ->
  exists s',
    bouboule s = Some s' /\
    bouleX s' = PInt 306 /\ bouleY s' = PInt 256 /\
    plusX s' = PInt 2 /\ plusY s' = PInt 3.
Proof.
  intros Hi Hg. unfold bouboule. rewrite Hi. cbn [bind].
  destruct (walls s1) as [s2|] eqn:Hw; [|rewrite walls_spec in Hw; discriminate].
  destruct (walls_frame _ _ Hw) as [vy ->]. cbn [bind].
  destruct (goals_reset (set_plusY vy s1) Hg) as [s3 [Hgo [Ex [Ey [Evx Evy]]]]].
  rewrite Hgo. cbn [bind].
  destruct (paddles_centre s3 Ex) as [_ [_ Hp]].
  exists s3. auto.
Qed.

Lemma goal_resets_ball_witness :
  exists s',
    bouboule scenario_goal = Some s' /\
    bouleX s' = PInt 306 /\ bouleY s' = PInt 256 /\
    plusX s' = PInt 2 /\ plusY s' = PInt 3.
Proof.
  apply (goal_resets_ball scenario_goal goal_s1).
  - reflexivity.
  - left. reflexivity.
Defined.

(** C2. In every tick in which a paddle branch fires ([x < 18] with [y]
    strictly between [a1] and [a1 + 80], or [x > 592] with [y] strictly
    between [a2] and [a2 + 80]), the velocity [(vx, vy)] the paddle rule
    finds becomes exactly [(-vx * 1.259, vy * 1.259)] in Python's arithmetic,
    the position and everything else being left alone; each product is
    within one unit in its last place of the exact one.  The factor
    compounds from hit to hit: take this hit, then any run of ticks and key
    presses in which neither a goal nor a paddle branch fires (none at all
    when the same paddle catches the ball twice in a row), then the next
    hit.  After it each component has the magnitude of [v * 1.259 * 1.259],
    which is within three units in its last place of [v] times the square
    of the double 1.259.  Velocities are taken as the program produces them,
    see [sane] and [reachable_sane]. *)
Theorem paddle_hit_speeds_up s s3 :
  sane (plusX s) = true -> sane (plusY s) = true ->
  (s1 <- integrate s ;; s2 <- walls s1 ;; goals s2) = Some s3 ->
  lt (bouleX s3) (PInt 18)
  && (lt (PInt (a1 s3)) (bouleY s3) && lt (bouleY s3) (PInt (a1 s3 + 80))) = true
  \/ gt (bouleX s3) (PInt 592)
     && (lt (PInt (a2 s3)) (bouleY s3) && lt (bouleY s3) (PInt (a2 s3 + 80))) = true ->
  exists vx vy,
    mul (neg (plusX s3)) (PFloat c1259) = Some vx /\
    mul (plusY s3) (PFloat c1259) = Some vy /\
    bouboule s = Some (set_plusX vx (set_plusY vy s3)) /\
    plusX s3 = plusX s /\ mag (plusY s3) = mag (plusY s) /\
    (forall m0 e0, mag (plusX s3) = MFin m0 e0 ->
       mag vx = MInf \/ near 1 (m0 * c1259_m) (e0 - 52) (mag vx)) /\
    (forall m0 e0, mag (plusY s3) = MFin m0 e0 ->
       mag vy = MInf \/ near 1 (m0 * c1259_m) (e0 - 52) (mag vy)) /\
    forall s' evs t s'',
      bouboule s = Some s' ->
      run evs s' = Some t -> run_idle evs s' = true ->
      paddle_fires t = true -> bouboule t = Some s'' ->
      (exists cx dx cy dy,
         mul (plusX s) (PFloat c1259) = Some cx /\ mul cx (PFloat c1259) = Some dx /\
         mul (plusY s) (PFloat c1259) = Some cy /\ mul cy (PFloat c1259) = Some dy /\
         mag (plusX s'') = mag dx /\ mag (plusY s'') = mag dy) /\
      (forall m0 e0, mag (plusX s) = MFin m0 e0 ->
         mag (plusX s'') = MInf \/
         near 3 (m0 * (c1259_m * c1259_m)) (e0 - 104) (mag (plusX s''))) /\
      (forall m0 e0, mag (plusY s) = MFin m0 e0 ->
         mag (plusY s'') = MInf \/
         near 3 (m0 * (c1259_m * c1259_m)) (e0 - 104) (mag (plusY s''))).
Proof.
  intros Sx Sy Hpre Hraw.
  assert (Hf : paddle_fires s = true).
  { unfold paddle_fires. rewrite Hpre, hits_paddle_raw.
    destruct Hraw as [-> | ->]; [reflexivity | apply orb_true_r]. }
  destruct (hit_tick s Sx Sy Hf)
    as [s3' [vx [vy [Hpre' [Hh [Hvx [Hpm [Hmx [Hmy [Hb [Svx Svy]]]]]]]]]]].
  assert (s3' = s3) by congruence. subst s3'.
  assert (Hmagy : mag (plusY s3) = mag (plusY s)) by apply pm_mag, Hpm.
  assert (Sy3 : sane (plusY s3) = true).
  { destruct Hpm as [-> | ->]; rewrite ?sane_neg; exact Sy. }
  exists vx, vy. repeat match goal with |- _ /\ _ => split end; trivial.
  { intros m0 e0 Hm. apply (scale_near (neg (plusX s3))); trivial.
    - rewrite sane_neg, Hvx. exact Sx.
    - rewrite mag_neg. exact Hm. }
  { intros m0 e0 Hm. apply (scale_near (plusY s3)); trivial. }
  intros s' evs t s'' Hb' Hrun Hidle Hf' Hb''.
  assert (s' = set_plusX vx (set_plusY vy s3)) by congruence. subst s'.
  (* between the two hits the velocity keeps [plusX] and, up to the sign,
     [plusY] *)
  destruct (run_sane evs (set_plusX vx (set_plusY vy s3)) t Svx Svy Hrun)
    as [Stx Sty].
  destruct (run_idle_velocity evs (set_plusX vx (set_plusY vy s3)) t
              Svx Svy Hidle Hrun) as [Etx Pty].
  cbn [set_plusX set_plusY plusX plusY] in Etx, Pty.
  destruct (hit_tick t Stx Sty Hf')
    as [t3 [wx [wy [_ [_ [Hwx [Hqm [Hnx [Hny [Hc _]]]]]]]]]].
  rewrite Etx in Hwx. apply (pm_trans _ _ _ Pty) in Hqm.
  assert (s'' = set_plusX wx (set_plusY wy t3)) by congruence. subst s''.
  cbn [set_plusX set_plusY plusX plusY].
  (* the x component: two sign flips *)
  destruct (pm_scale (plusX s) (neg (plusX s3)) c1259 vx) as [cx [Hcx Pcx]];
    [right; now rewrite Hvx | exact Hmx |].
  destruct (pm_scale cx (neg (plusX t3)) c1259 wx) as [dx [Hdx Pdx]];
    [rewrite Hwx; apply pm_sym, pm_neg, pm_sym, Pcx | exact Hnx |].
  (* the y component: a wall may flip it at any tick *)
  destruct (pm_scale (plusY s) (plusY s3) c1259 vy) as [cy [Hcy Pcy]];
    [exact Hpm | exact Hmy |].
  destruct (pm_scale cy (plusY t3) c1259 wy) as [dy [Hdy Pdy]];
    [| exact Hny |].
  { destruct Pcy as [-> | ->]; [exact Hqm|].
    apply pm_neg in Hqm. rewrite neg_involutive in Hqm. exact Hqm. }
  split; [|split].
  - exists cx, dx, cy, dy. repeat split; trivial; apply pm_mag; assumption.
  - intros m0 e0 Hm. rewrite (pm_mag _ _ Pdx).
    exact (scale_twice_near _ _ _ _ _ Sx Hcx Hdx Hm).
  - intros m0 e0 Hm. rewrite (pm_mag _ _ Pdy).
    exact (scale_twice_near _ _ _ _ _ Sy Hcy Hdy Hm).
Qed.

(** The rally of [rally_start]: a hit on the right at the first tick, 114
    ticks across the court with one bounce on the upper wall, and a hit on
    the left; (4, -6) has become (4 * 1.259 * 1.259, 6 * 1.259 * 1.259) up
    to the signs. *)
Lemma paddle_hit_speeds_up_witness :
  exists s' t s'',
    run rally_keys init = Some (set_a2 240 (set_a1 340 init)) /\
    run (repeat Tick 71) (set_a2 240 (set_a1 340 init)) = Some rally_start /\
    bouboule rally_start = Some s' /\
    run (repeat Tick 114) s' = Some t /\ run_idle (repeat Tick 114) s' = true /\
    paddle_fires t = true /\ bouboule t = Some s'' /\
    exists cx dx cy dy,
      mul (plusX rally_start) (PFloat c1259) = Some cx /\
      mul cx (PFloat c1259) = Some dx /\
      mul (plusY rally_start) (PFloat c1259) = Some cy /\
      mul cy (PFloat c1259) = Some dy /\
      mag (plusX s'') = mag dx /\ mag (plusY s'') = mag dy.
Proof.
  destruct (paddle_hit_speeds_up rally_start rally_s1 eq_refl eq_refl eq_refl
              (or_intror eq_refl))
    as (vx & vy & Hmx & Hmy & Hb & _ & _ & _ & _ & Hc).
  vm_compute in Hmx, Hmy. injection Hmx as <-. injection Hmy as <-.
  lazymatch type of Hb with
  | _ = Some ?s' =>
      let r := eval vm_compute in (run (repeat Tick 114) s') in
      lazymatch r with
      | Some ?t =>
          let r2 := eval vm_compute in (bouboule t) in
          lazymatch r2 with
          | Some ?u => exists s', t, u
          end
      end
  end.
  assert (Hr : forall A B : Prop, A -> (A -> B) -> A /\ B) by (intros A B a f; auto).
  split; [reflexivity|]. split; [vm_compute; reflexivity|].
  split; [exact Hb|].
  apply Hr; [vm_compute; reflexivity | intros Hrun].
  apply Hr; [vm_compute; reflexivity | intros Hidle].
  apply Hr; [vm_compute; reflexivity | intros Hf].
  apply Hr; [vm_compute; reflexivity | intros Hu].
  exact (proj1 (Hc _ _ _ _ Hb Hrun Hidle Hf Hu)).
Defined.

(** The end-to-end scenario of the specification, and the tick after it,
    in which the ball is still within reach of the paddle and is hit a
    second time: (-4, 6) becomes (4 * 1.259, 6 * 1.259), printed by Python
    as (5.036, 7.553999999999999), then (-4 * 1.259 * 1.259,
    6 * 1.259 * 1.259). *)
Example two_hits_in_a_row :
  let v1x := PFloat (S754_finite false 5670031930859454 (-50)) in
  let v1y := PFloat (S754_finite false 8505047896289181 (-50)) in
  let v2x := PFloat (S754_finite true 7138570200952052 (-50)) in
  let v2y := PFloat (S754_finite false 5353927650714039 (-49)) in
  exists s' s'',
    bouboule scenario_hit = Some s' /\ bouboule s' = Some s'' /\
    paddle_fires scenario_hit = true /\ paddle_fires s' = true /\
    plusX s' = v1x /\ plusY s' = v1y /\ plusX s'' = v2x /\ plusY s'' = v2y /\
    (c <- mul (PInt 4) (PFloat c1259) ;; mul c (PFloat c1259)) = Some (neg v2x) /\
    (c <- mul (PInt 6) (PFloat c1259) ;; mul c (PFloat c1259)) = Some v2y.
Proof.
  cbv zeta. eexists. eexists.
  split; [reflexivity|]. split; [vm_compute; reflexivity|].
  repeat split; reflexivity.
Qed.

(** C3. In every tick the wall rule sees the integrated position.  When
    [y < 10] or [y > 486], both strict, it replaces [plusY] by its exact
    opposite (same magnitude, other sign) and touches nothing else, [plusX]
    included; for every [y] with [10 <= y <= 486], the two bounds included,
    it changes nothing. *)
Theorem wall_reflection s s1 :
  integrate s = Some s1 ->
  valid_num (plusY s) = true ->
  walls s1 =
    Some (if lt (bouleY s1) (PInt 10) || gt (bouleY s1) (PInt 486)
          then set_plusY (neg (plusY s)) s1 else s1) /\
  mag (neg (plusY s)) = mag (plusY s) /\
  plusX (set_plusY (neg (plusY s)) s1) = plusX s /\
  (le (PInt 10) (bouleY s1) = true -> le (bouleY s1) (PInt 486) = true ->
   walls s1 = Some s1) /\
  bouboule s = (s2 <- walls s1 ;; s3 <- goals s2 ;; paddles s3).
Proof.
  intros Hi Hv.
  destruct (integrate_inv _ _ Hi) as [x [y [Hx [Hy E]]]].
  assert (Hvy : plusY s1 = plusY s) by (subst s1; reflexivity).
  assert (Hvx : plusX s1 = plusX s) by (subst s1; reflexivity).
  split; [|split; [|split; [|split]]].
  - rewrite walls_flip by (rewrite Hvy; exact Hv). rewrite Hvy. reflexivity.
  - apply mag_neg.
  - exact Hvx.
  - intros H1 H2. rewrite walls_flip by (rewrite Hvy; exact Hv).
    rewrite (int_le_not_lt _ _ H1), (le_not_gt _ _ H2). reflexivity.
  - unfold bouboule. rewrite Hi. reflexivity.
Qed.

Lemma wall_reflection_witness :
  walls wall_s1 =
    Some (if lt (bouleY wall_s1) (PInt 10) || gt (bouleY wall_s1) (PInt 486)
          then set_plusY (neg (plusY scenario_wall)) wall_s1 else wall_s1) /\
  mag (neg (plusY scenario_wall)) = mag (plusY scenario_wall) /\
  plusX (set_plusY (neg (plusY scenario_wall)) wall_s1) = plusX scenario_wall /\
  (le (PInt 10) (bouleY wall_s1) = true -> le (bouleY wall_s1) (PInt 486) = true ->
   walls wall_s1 = Some wall_s1) /\
  bouboule scenario_wall = (s2 <- walls wall_s1 ;; s3 <- goals s2 ;; paddles s3).
Proof.
  apply (wall_reflection scenario_wall wall_s1); reflexivity.
Defined.

(** The two corners themselves, as [int] and as [float]: no reflection. *)
Example wall_corner_10 s :
  bouleY s = PInt 10 \/ bouleY s = PFloat (S754_finite false 5 1) -> walls s = Some s.
Proof.
  intros H. rewrite walls_spec. destruct H as [-> | ->]; reflexivity.
Qed.

Example wall_corner_486 s :
  bouleY s = PInt 486 \/ bouleY s = PFloat (S754_finite false 243 1) -> walls s = Some s.
Proof.
  intros H. rewrite walls_spec. destruct H as [-> | ->]; reflexivity.
Qed.

(** C4. Whatever the state, and so in every reachable one, a tick or a key
    press never lowers a score.  A key press changes none.  A tick changes a
    score only when a goal branch fires on the integrated position: [x < 1]
    adds exactly 1 to player 2 and leaves player 1 alone, [x > 612] adds
    exactly 1 to player 1 and leaves player 2 alone. *)
Theorem scores_only_grow ev s s' :
  handle ev s = Some s' ->
  SJ1 s <= SJ1 s' /\ SJ2 s <= SJ2 s' /\
  match ev with
  | KeyPress _ => SJ1 s' = SJ1 s /\ SJ2 s' = SJ2 s
  | Tick =>
      exists s1,
        integrate s = Some s1 /\
        (lt (bouleX s1) (PInt 1) = true ->
         SJ2 s' = SJ2 s + 1 /\ SJ1 s' = SJ1 s) /\
        (gt (bouleX s1) (PInt 612) = true ->
         SJ1 s' = SJ1 s + 1 /\ SJ2 s' = SJ2 s) /\
        (lt (bouleX s1) (PInt 1) = false -> gt (bouleX s1) (PInt 612) = false ->
         SJ1 s' = SJ1 s /\ SJ2 s' = SJ2 s)
  end.
Proof.
  destruct ev as [|k]; cbn [handle].
  - intros H. destruct (bouboule_inv _ _ H) as [s1 [_ [_ [Hi _]]]].
    pose proof (bouboule_scores _ _ _ Hi H) as E.
    assert (Hcases :
      (lt (bouleX s1) (PInt 1) = true -> SJ2 s' = SJ2 s + 1 /\ SJ1 s' = SJ1 s) /\
      (gt (bouleX s1) (PInt 612) = true -> SJ1 s' = SJ1 s + 1 /\ SJ2 s' = SJ2 s) /\
      (lt (bouleX s1) (PInt 1) = false -> gt (bouleX s1) (PInt 612) = false ->
       SJ1 s' = SJ1 s /\ SJ2 s' = SJ2 s)).
    { split; [|split].
      - intros Hl. rewrite Hl in E. injection E as E1 E2 _ _. auto.
      - intros Hg. rewrite (gt_lt_apart _ _ _ Hg), Hg in E by lia.
        injection E as E1 E2 _ _. auto.
      - intros Hl Hg. rewrite Hl, Hg in E. injection E as E1 E2 _ _. auto. }
    split; [|split; [|exists s1; split; [exact Hi | exact Hcases]]];
      destruct (lt (bouleX s1) (PInt 1)); [|destruct (gt (bouleX s1) (PInt 612))| |
        destruct (gt (bouleX s1) (PInt 612))];
      injection E as E1 E2 _ _; lia.
  - intros [= <-]. unfold ControlesJ1etJ2.
    repeat match goal with |- context [if ?b then _ else _] => destruct b end;
      cbn; repeat split; lia.
Qed.

Lemma scores_only_grow_witness :
  SJ1 scenario_goal <= SJ1 goal_end /\ SJ2 scenario_goal <= SJ2 goal_end /\
  exists s1,
    integrate scenario_goal = Some s1 /\
    (lt (bouleX s1) (PInt 1) = true ->
     SJ2 goal_end = SJ2 scenario_goal + 1 /\ SJ1 goal_end = SJ1 scenario_goal) /\
    (gt (bouleX s1) (PInt 612) = true ->
     SJ1 goal_end = SJ1 scenario_goal + 1 /\ SJ2 goal_end = SJ2 scenario_goal) /\
    (lt (bouleX s1) (PInt 1) = false -> gt (bouleX s1) (PInt 612) = false ->
     SJ1 goal_end = SJ1 scenario_goal /\ SJ2 goal_end = SJ2 scenario_goal).
Proof.
  apply (scores_only_grow Tick scenario_goal goal_end). reflexivity.
Defined.

(** C5. A tick runs integration, then the wall rule, then the goal rule,
    then the paddle rule.  When a goal branch fires, the goal rule leaves the
    ball at [x = 306], so that [x < 18] and [x > 592] are both false when the
    paddle rule runs: neither paddle branch fires in that tick. *)
Theorem goal_excludes_paddle s s1 s2 :
  integrate s = Some s1 ->
  walls s1 = Some s2 ->
  lt (bouleX s2) (PInt 1) = true \/ gt (bouleX s2) (PInt 612) = true ->
  exists s3,
    goals s2 = Some s3 /\
    bouleX s3 = PInt 306 /\
    lt (bouleX s3) (PInt 18) = false /\ gt (bouleX s3) (PInt 592) = false /\
    hits_paddle1 s3 = false /\ hits_paddle2 s3 = false /\
    paddles s3 = Some s3 /\
    bouboule s = Some s3.
Proof.
  intros Hi Hw Hg. unfold bouboule. rewrite Hi. cbn [bind]. rewrite Hw. cbn [bind].
  rewrite goals_spec. cbn [bind].
  destruct (lt (bouleX s2) (PInt 1)).
  - eexists. split; [reflexivity|].
    repeat split; apply paddles_centre; reflexivity.
  - destruct Hg as [Hg | Hg]; [discriminate|]. rewrite Hg.
    eexists. split; [reflexivity|].
    repeat split; apply paddles_centre; reflexivity.
Qed.

Lemma goal_excludes_paddle_witness :
  exists s3,
    goals goal_s1 = Some s3 /\
    bouleX s3 = PInt 306 /\
    lt (bouleX s3) (PInt 18) = false /\ gt (bouleX s3) (PInt 592) = false /\
    hits_paddle1 s3 = false /\ hits_paddle2 s3 = false /\
    paddles s3 = Some s3 /\
    bouboule scenario_goal = Some s3.
Proof.
  apply (goal_excludes_paddle scenario_goal goal_s1 goal_s1);
    [reflexivity | reflexivity | left; reflexivity].
Defined.

Example goal_wins_over_paddle :
  let s := mkState (PInt 4) (PInt 200) (PInt (-4)) (PInt 6) 140 140 0 0 "0" "0" in
  let s2 := set_bouleY (PInt 206) (set_bouleX (PInt 0) s) in
  integrate s = Some s2 /\ walls s2 = Some s2 /\
  lt (bouleX s2) (PInt 18) && (lt (PInt (a1 s2)) (bouleY s2)
                               && lt (bouleY s2) (PInt (a1 s2 + 80))) = true /\
  bouboule s =
  Some (mkState (PInt 306) (PInt 256) (PInt 2) (PInt 3) 140 140 0 1 "0" "J2:1").
Proof. repeat split. Qed.

(** C6. A key press moves a paddle by exactly 25 and only within its guard:
    [s] (resp. [Down]) adds 25 to [a1] (resp. [a2]) when the sum is at most
    446, [z] (resp. [Up]) subtracts 25 when the difference is at least -25.
    A recognised key whose guard fails and any other key leave the state as
    it is.  At most one paddle changes per press, and a top edge that lies in
    [-25, 446] stays there, through one press and through any run of key
    presses and ticks. *)
Theorem key_moves_one_paddle k s :
  (k = "s"%string -> a1 s + 25 <= 446 ->
   ControlesJ1etJ2 k s = set_a1 (a1 s + 25) s) /\
  (k = "z"%string -> -25 <= a1 s - 25 ->
   ControlesJ1etJ2 k s = set_a1 (a1 s - 25) s) /\
  (k = "Down"%string -> a2 s + 25 <= 446 ->
   ControlesJ1etJ2 k s = set_a2 (a2 s + 25) s) /\
  (k = "Up"%string -> -25 <= a2 s - 25 ->
   ControlesJ1etJ2 k s = set_a2 (a2 s - 25) s) /\
  (k = "s"%string -> 446 < a1 s + 25 -> ControlesJ1etJ2 k s = s) /\
  (k = "z"%string -> a1 s - 25 < -25 -> ControlesJ1etJ2 k s = s) /\
  (k = "Down"%string -> 446 < a2 s + 25 -> ControlesJ1etJ2 k s = s) /\
  (k = "Up"%string -> a2 s - 25 < -25 -> ControlesJ1etJ2 k s = s) /\
  (k <> "s"%string -> k <> "z"%string -> k <> "Down"%string -> k <> "Up"%string ->
   ControlesJ1etJ2 k s = s) /\
  (a1 (ControlesJ1etJ2 k s) = a1 s \/ a2 (ControlesJ1etJ2 k s) = a2 s) /\
  (-25 <= a1 s <= 446 -> -25 <= a1 (ControlesJ1etJ2 k s) <= 446) /\
  (-25 <= a2 s <= 446 -> -25 <= a2 (ControlesJ1etJ2 k s) <= 446) /\
  (forall evs s',
     run evs s = Some s' ->
     (-25 <= a1 s <= 446 -> -25 <= a1 s' <= 446) /\
     (-25 <= a2 s <= 446 -> -25 <= a2 s' <= 446)).
Proof.
  repeat match goal with |- _ /\ _ => split end.
  - intros -> H. unfold ControlesJ1etJ2. cbn [String.eqb Ascii.eqb Bool.eqb andb].
    destruct (Z.leb_spec (a1 s + 25) 446); [reflexivity | lia].
  - intros -> H. unfold ControlesJ1etJ2. cbn [String.eqb Ascii.eqb Bool.eqb andb].
    destruct (Z.geb_spec (a1 s - 25) (-25)); [reflexivity | lia].
  - intros -> H. unfold ControlesJ1etJ2. cbn [String.eqb Ascii.eqb Bool.eqb andb].
    destruct (Z.leb_spec (a2 s + 25) 446); [reflexivity | lia].
  - intros -> H. unfold ControlesJ1etJ2. cbn [String.eqb Ascii.eqb Bool.eqb andb].
    destruct (Z.geb_spec (a2 s - 25) (-25)); [reflexivity | lia].
  - intros -> H. unfold ControlesJ1etJ2. cbn [String.eqb Ascii.eqb Bool.eqb andb].
    destruct (Z.leb_spec (a1 s + 25) 446); [lia | reflexivity].
  - intros -> H. unfold ControlesJ1etJ2. cbn [String.eqb Ascii.eqb Bool.eqb andb].
    destruct (Z.geb_spec (a1 s - 25) (-25)); [lia | reflexivity].
  - intros -> H. unfold ControlesJ1etJ2. cbn [String.eqb Ascii.eqb Bool.eqb andb].
    destruct (Z.leb_spec (a2 s + 25) 446); [lia | reflexivity].
  - intros -> H. unfold ControlesJ1etJ2. cbn [String.eqb Ascii.eqb Bool.eqb andb].
    destruct (Z.geb_spec (a2 s - 25) (-25)); [lia | reflexivity].
  - intros H1 H2 H3 H4. unfold ControlesJ1etJ2.
    apply String.eqb_neq in H1, H2, H3, H4. rewrite H1, H2, H3, H4. reflexivity.
  - unfold ControlesJ1etJ2.
    repeat match goal with |- context [if ?b then _ else _] => destruct b end;
      cbn; auto.
  - apply keys_paddles.
  - apply keys_paddles.
  - intros evs t. apply run_paddle_range.
Qed.

Lemma key_moves_one_paddle_witness :
  ControlesJ1etJ2 "s" init = set_a1 165 init /\
  ControlesJ1etJ2 "z" (set_a1 (-10) init) = set_a1 (-10) init /\
  ControlesJ1etJ2 "x" init = init /\
  -25 <= a1 (ControlesJ1etJ2 "s" init) <= 446.
Proof.
  split; [|split; [|split]].
  - exact (proj1 (key_moves_one_paddle "s" init) eq_refl ltac:(cbn; lia)).
  - destruct (key_moves_one_paddle "z" (set_a1 (-10) init))
      as (_ & _ & _ & _ & _ & H & _).
    apply H; [reflexivity | cbn; lia].
  - destruct (key_moves_one_paddle "x" init) as (_ & _ & _ & _ & _ & _ & _ & _ & H & _).
    apply H; discriminate.
  - destruct (key_moves_one_paddle "s" init)
      as (_ & _ & _ & _ & _ & _ & _ & _ & _ & _ & H & _).
    apply H. cbn. lia.
Defined.

(** C7. The integration step of every tick replaces the position by the
    position plus the velocity, componentwise, in Python's arithmetic (on
    two [int]s that is the exact integer sum, on [float]s the binary64 sum),
    leaves every other global alone, and hands the new position to the
    wall, goal and paddle rules. *)
Theorem integration_adds_velocity s s' :
  bouboule s = Some s' ->
  exists s1,
    integrate s = Some s1 /\
    add (bouleX s) (plusX s) = Some (bouleX s1) /\
    add (bouleY s) (plusY s) = Some (bouleY s1) /\
    (forall x vx, bouleX s = PInt x -> plusX s = PInt vx -> bouleX s1 = PInt (x + vx)) /\
    (forall y vy, bouleY s = PInt y -> plusY s = PInt vy -> bouleY s1 = PInt (y + vy)) /\
    (forall x vx, bouleX s = PFloat x -> plusX s = PFloat vx ->
                  bouleX s1 = PFloat (fadd x vx)) /\
    (forall y vy, bouleY s = PFloat y -> plusY s = PFloat vy ->
                  bouleY s1 = PFloat (fadd y vy)) /\
    s1 = set_bouleY (bouleY s1) (set_bouleX (bouleX s1) s) /\
    (s2 <- walls s1 ;; s3 <- goals s2 ;; paddles s3) = Some s'.
Proof.
  unfold bouboule. destruct (integrate s) as [s1|] eqn:Hi; [|discriminate].
  cbn [bind]. intros Hr. exists s1. split; [reflexivity|].
  destruct (integrate_inv _ _ Hi) as [x [y [Hx [Hy ->]]]].
  cbn [set_bouleY set_bouleX bouleX bouleY].
  repeat split; trivial.
  - intros x0 vx E1 E2. rewrite E1, E2 in Hx. simpl in Hx. congruence.
  - intros y0 vy E1 E2. rewrite E1, E2 in Hy. simpl in Hy. congruence.
  - intros x0 vx E1 E2. rewrite E1, E2 in Hx. simpl in Hx. congruence.
  - intros y0 vy E1 E2. rewrite E1, E2 in Hy. simpl in Hy. congruence.
Qed.

Lemma integration_adds_velocity_witness :
  exists s1,
    integrate init = Some s1 /\
    add (bouleX init) (plusX init) = Some (bouleX s1) /\
    add (bouleY init) (plusY init) = Some (bouleY s1) /\
    (forall x vx, bouleX init = PInt x -> plusX init = PInt vx ->
                  bouleX s1 = PInt (x + vx)) /\
    (forall y vy, bouleY init = PInt y -> plusY init = PInt vy ->
                  bouleY s1 = PInt (y + vy)) /\
    (forall x vx, bouleX init = PFloat x -> plusX init = PFloat vx ->
                  bouleX s1 = PFloat (fadd x vx)) /\
    (forall y vy, bouleY init = PFloat y -> plusY init = PFloat vy ->
                  bouleY s1 = PFloat (fadd y vy)) /\
    s1 = set_bouleY (bouleY s1) (set_bouleX (bouleX s1) init) /\
    (s2 <- walls s1 ;; s3 <- goals s2 ;; paddles s3) =
    Some (set_bouleY (PInt 262) (set_bouleX (PInt 310) init)).
Proof.
  apply (integration_adds_velocity init). reflexivity.
Defined.

(** C8 as the specification words it: the label reads ["J2: 1"], with a
    space after the colon.  The program writes ["J2:1"]. *)
Lemma score_label_space_refuted :
  integrate scenario_goal = Some goal_s1 /\
  lt (bouleX goal_s1) (PInt 1) = true /\
  bouboule scenario_goal = Some goal_end /\
  SJ2 goal_end = 1 /\
  Score2 goal_end = "J2:1"%string /\
  Score2 goal_end <> spec_label 2 (SJ2 goal_end).
Proof.
  repeat split. discriminate.
Qed.

(** C8, amended.  On every goal the label of the scoring player is set to
    the player tag, a colon and the new count with nothing in between,
    ["J1:" + str(SJ1)] or ["J2:" + str(SJ2)]; the other label keeps its
    text, and a tick without a goal changes neither. *)
Theorem score_label_text s s1 s' :
  integrate s = Some s1 ->
  bouboule s = Some s' ->
  (lt (bouleX s1) (PInt 1) = true ->
   Score2 s' = ("J2:" ++ str (SJ2 s'))%string /\ SJ2 s' = SJ2 s + 1 /\
   Score1 s' = Score1 s) /\
  (gt (bouleX s1) (PInt 612) = true ->
   Score1 s' = ("J1:" ++ str (SJ1 s'))%string /\ SJ1 s' = SJ1 s + 1 /\
   Score2 s' = Score2 s) /\
  (lt (bouleX s1) (PInt 1) = false -> gt (bouleX s1) (PInt 612) = false ->
   Score1 s' = Score1 s /\ Score2 s' = Score2 s).
Proof.
  intros Hi H. pose proof (bouboule_scores _ _ _ Hi H) as E.
  split; [|split].
  - intros Hl. rewrite Hl in E. injection E as E1 E2 E3 E4.
    rewrite E2, E3, E4. auto.
  - intros Hg. rewrite (gt_lt_apart _ _ _ Hg), Hg in E by lia.
    injection E as E1 E2 E3 E4. rewrite E1, E3, E4. auto.
  - intros Hl Hg. rewrite Hl, Hg in E. injection E as E1 E2 E3 E4. auto.
Qed.

Lemma score_label_text_witness :
  (lt (bouleX goal_s1) (PInt 1) = true ->
   Score2 goal_end = ("J2:" ++ str (SJ2 goal_end))%string /\
   SJ2 goal_end = SJ2 scenario_goal + 1 /\
   Score1 goal_end = Score1 scenario_goal) /\
  (gt (bouleX goal_s1) (PInt 612) = true ->
   Score1 goal_end = ("J1:" ++ str (SJ1 goal_end))%string /\
   SJ1 goal_end = SJ1 scenario_goal + 1 /\
   Score2 goal_end = Score2 scenario_goal) /\
  (lt (bouleX goal_s1) (PInt 1) = false -> gt (bouleX goal_s1) (PInt 612) = false ->
   Score1 goal_end = Score1 scenario_goal /\ Score2 goal_end = Score2 scenario_goal).
Proof.
  apply (score_label_text scenario_goal goal_s1 goal_end); reflexivity.
Defined.

(** C9. From the initial top edge 140 the guarded steps of 25 only ever
    reach top edges in [-10, 440] that are congruent to 15 modulo 25: the
    ends -25 and 446 of the tolerated band are never reached. *)
Theorem reachable_paddles s :
  reachable s ->
  (-10 <= a1 s <= 440 /\ a1 s mod 25 = 15) /\
  (-10 <= a2 s <= 440 /\ a2 s mod 25 = 15) /\
  a1 s <> -25 /\ a1 s <> 446 /\ a2 s <> -25 /\ a2 s <> 446.
Proof.
  intros [evs H]. destruct (run_lattice _ _ _ H) as [H1 H2].
  assert (I : paddle_lattice 140) by (split; [lia | reflexivity]).
  specialize (H1 I). specialize (H2 I). unfold paddle_lattice in *.
  repeat split; lia.
Qed.

Lemma reachable_paddles_witness :
  (-10 <= 440 <= 440 /\ 440 mod 25 = 15) /\
  (-10 <= -10 <= 440 /\ -10 mod 25 = 15) /\
  440 <> -25 /\ 440 <> 446 /\ -10 <> -25 /\ -10 <> 446.
Proof.
  apply (reachable_paddles (set_a2 (-10) (set_a1 440 init))).
  exists (repeat (KeyPress "s") 12 ++ repeat (KeyPress "Up") 6). reflexivity.
Defined.

(** The two ends of the reachable range are reached, and no key moves a
    paddle past them. *)
Example paddle_range_is_tight :
  run (repeat (KeyPress "s") 13 ++ repeat (KeyPress "Up") 7) init =
  Some (set_a2 (-10) (set_a1 440 init)).
Proof. reflexivity. Qed.

(** C10. In a tick in which no goal branch fires the magnitudes of
    [plusX] and [plusY] do not decrease: integration leaves the velocity
    as it is, the wall rule at most flips the sign of [plusY], and a paddle
    hit multiplies both by 1.259.  Hence, through any run of ticks and key
    presses without a goal, the ball is at least as fast at the end as at
    the start.  Velocities are taken as the program produces them: [int]s
    below 2^53 in absolute value or well-formed doubles other than NaN,
    which is what every reachable state holds. *)
Theorem speed_never_drops s s1 :
  sane (plusX s) = true -> sane (plusY s) = true ->
  integrate s = Some s1 ->
  lt (bouleX s1) (PInt 1) = false -> gt (bouleX s1) (PInt 612) = false ->
  (plusX s1 = plusX s /\ plusY s1 = plusY s) /\
  (exists s2, walls s1 = Some s2 /\ plusX s2 = plusX s /\ pm (plusY s) (plusY s2)) /\
  (exists s',
     bouboule s = Some s' /\
     abs_le (plusX s) (plusX s') = true /\ abs_le (plusY s) (plusY s') = true /\
     sane (plusX s') = true /\ sane (plusY s') = true) /\
  (forall evs t,
     run_quiet evs s = true -> run evs s = Some t ->
     abs_le (plusX s) (plusX t) = true /\ abs_le (plusY s) (plusY t) = true).
Proof.
  intros Sx Sy Hi Hl Hg.
  assert (Hv : plusX s1 = plusX s /\ plusY s1 = plusY s).
  { destruct (integrate_inv _ _ Hi) as [x [y [_ [_ ->]]]]. split; reflexivity. }
  split; [exact Hv|]. split; [|split].
  - rewrite walls_flip by (destruct Hv as [_ ->]; apply sane_valid, Sy).
    eexists. split; [reflexivity|]. destruct Hv as [Hvx Hvy].
    destruct (_ || _); cbn [set_plusY plusX plusY]; rewrite ?Hvx, ?Hvy;
      split; trivial; [right | left]; reflexivity.
  - exact (quiet_step s s1 Sx Sy Hi Hl Hg).
  - intros evs t. apply run_quiet_speed; assumption.
Qed.

Lemma speed_never_drops_witness :
  exists s',
    bouboule scenario_hit = Some s' /\
    abs_le (plusX scenario_hit) (plusX s') = true /\
    abs_le (plusY scenario_hit) (plusY s') = true /\
    sane (plusX s') = true /\ sane (plusY s') = true.
Proof.
  apply (speed_never_drops scenario_hit hit_s1); reflexivity.
Defined.

(** * Beyond the claims

    Further properties of the two callbacks and of the canvas items they
    redraw: what a run can and cannot reach. *)

(** ** The serve *)

Lemma tick_serve_phase s s' :
  bouboule s = Some s' -> serve_phase s -> serve_phase s'.
Proof.
  intros H I.
  destruct (bouboule_shape _ _ H) as [x1 [y1 [vy2 [Hx [Hy [Hw Hg]]]]]].
  unfold serve_phase in *.
  destruct Hg as [(_ & -> & -> & -> & ->) | (_ & Ex & Ey & Hv)].
  { split; [right; split; reflexivity|]. split; eexists; reflexivity. }
  destruct Hv as [[Evx Evy] | (fx & fy & -> & ->)]; [|exact Logic.I].
  rewrite Evx, Evy, Ex, Ey.
  destruct (plusX s) as [vx | fvx], (plusY s) as [vy | fvy]; try contradiction.
  - destruct I as (Hs & [x Hbx] & [y Hby]). rewrite Hbx in Hx. rewrite Hby in Hy.
    apply add_kind in Hx, Hy. subst x1 y1.
    assert (Hvy2 : vy2 = PInt vy \/ vy2 = PInt (vy * -1)).
    { destruct Hw as [[_ ->] | [_ Hm]]; [left; reflexivity|].
      right. unfold mul in Hm. congruence. }
    destruct Hvy2 as [-> | ->]; (split; [lia|]); split; eexists; reflexivity.
  - destruct Hw as [[_ ->] | [_ Hm]]; [exact Logic.I|].
    rewrite mul_minus_one in Hm. injection Hm as <-. exact Logic.I.
Qed.

Lemma run_serve_phase evs : forall s s',
  run evs s = Some s' -> serve_phase s -> serve_phase s'.
Proof.
  induction evs as [|ev evs IH]; intros s s'; cbn [run].
  - intros [= <-]. auto.
  - destruct (handle ev s) as [t|] eqn:E; [|discriminate]. cbn [bind]. intros H I.
    apply (IH _ _ H). destruct ev as [|k]; cbn [handle] in E.
    + exact (tick_serve_phase _ _ E I).
    + injection E as <-. destruct (keys_ball k s) as (Ex & Ey & Evx & Evy).
      unfold serve_phase. rewrite Ex, Ey, Evx, Evy. exact I.
Qed.

Lemma serve_phase_init : serve_phase init.
Proof.
  unfold serve_phase. cbn. split; [left; split; reflexivity|].
  split; eexists; reflexivity.
Qed.


Lemma first_goal_reachable : reachable first_goal.
Proof. exists (repeat Tick 77). vm_compute. reflexivity. Defined.


(** X3. Until a paddle is hit the ball travels to the right: while the
    horizontal velocity is an [int] it is positive, and a tick from a
    reachable state does not give player 2 a point nor touch that player's
    label. *)
Theorem serve_goes_right s s' vx :
  reachable s -> plusX s = PInt vx -> bouboule s = Some s' ->
  0 < vx /\ SJ2 s' = SJ2 s /\ Score2 s' = Score2 s.
Proof.
  intros R Evx H.
  destruct (reachable_court s R) as (_ & _ & Ix & _).
  destruct R as [evs Hr]. pose proof (run_serve_phase _ _ _ Hr serve_phase_init) as I.
  unfold serve_phase in I. unfold int_phase_x in Ix. rewrite Evx in I, Ix.
  destruct (plusY s) as [vy|]; [|contradiction].
  destruct I as (_ & [x Ex] & _). rewrite Ex in Ix. destruct Ix as [Hx Hv].
  split; [lia|].
  destruct (bouboule_inv _ _ H) as [s1 [_ [_ [Hi _]]]].
  pose proof (bouboule_scores _ _ _ Hi H) as Es.
  destruct (integrate_inv _ _ Hi) as [x1 [y1 [Hax [_ ->]]]].
  rewrite Ex, Evx in Hax. apply add_kind in Hax. subst x1.
  cbn [set_bouleX set_bouleY bouleX] in Es. rewrite lt_int_int in Es.
  replace (x + vx <? 1) with false in Es by (symmetry; apply Z.ltb_ge; lia).
  destruct (gt (PInt (x + vx)) (PInt 612)); injection Es as _ E2 _ E4; auto.
Qed.

Lemma serve_goes_right_witness :
  0 < 2 /\ SJ2 (set_bouleY (PInt 259) (set_bouleX (PInt 308) first_goal)) = SJ2 first_goal /\
  Score2 (set_bouleY (PInt 259) (set_bouleX (PInt 308) first_goal)) = Score2 first_goal.
Proof.
  apply (serve_goes_right first_goal _ 2 first_goal_reachable); reflexivity.
Defined.

(** ** The score labels *)

Lemma tick_labels s s' :
  bouboule s = Some s' ->
  0 <= SJ1 s /\ Score1 s = label_of "J1:" (SJ1 s) ->
  0 <= SJ2 s /\ Score2 s = label_of "J2:" (SJ2 s) ->
  (0 <= SJ1 s' /\ Score1 s' = label_of "J1:" (SJ1 s')) /\
  (0 <= SJ2 s' /\ Score2 s' = label_of "J2:" (SJ2 s')).
Proof.
  intros H [P1 L1] [P2 L2].
  destruct (bouboule_inv _ _ H) as [s1 [_ [_ [Hi _]]]].
  pose proof (bouboule_scores _ _ _ Hi H) as Es.
  assert (Hl : forall tag n, 0 <= n -> label_of tag (n + 1) = (tag ++ str (n + 1))%string).
  { intros tag n Hn. unfold label_of.
    replace (n + 1 =? 0) with false by (symmetry; apply Z.eqb_neq; lia). reflexivity. }
  destruct (lt (bouleX s1) (PInt 1)); [|destruct (gt (bouleX s1) (PInt 612))];
    injection Es as -> -> -> ->; rewrite ?Hl by assumption;
    (split; split; first [lia | assumption | reflexivity]).
Qed.

Lemma keys_scores k s :
  SJ1 (ControlesJ1etJ2 k s) = SJ1 s /\ SJ2 (ControlesJ1etJ2 k s) = SJ2 s /\
  Score1 (ControlesJ1etJ2 k s) = Score1 s /\ Score2 (ControlesJ1etJ2 k s) = Score2 s.
Proof.
  unfold ControlesJ1etJ2.
  repeat match goal with |- context [if ?b then _ else _] => destruct b end;
    repeat split; reflexivity.
Qed.

Lemma run_labels evs : forall s s',
  run evs s = Some s' ->
  0 <= SJ1 s /\ Score1 s = label_of "J1:" (SJ1 s) ->
  0 <= SJ2 s /\ Score2 s = label_of "J2:" (SJ2 s) ->
  (0 <= SJ1 s' /\ Score1 s' = label_of "J1:" (SJ1 s')) /\
  (0 <= SJ2 s' /\ Score2 s' = label_of "J2:" (SJ2 s')).
Proof.
  induction evs as [|ev evs IH]; intros s s'; cbn [run].
  - intros [= <-]. auto.
  - destruct (handle ev s) as [t|] eqn:E; [|discriminate]. cbn [bind]. intros H I1 I2.
    destruct ev as [|k]; cbn [handle] in E.
    + destruct (tick_labels _ _ E I1 I2) as [J1 J2]. exact (IH _ _ H J1 J2).
    + injection E as <-. destruct (keys_scores k s) as (E1 & E2 & E3 & E4).
      apply (IH _ _ H); rewrite ?E1, ?E2, ?E3, ?E4; assumption.
Qed.

(** X4. The labels are always in step with the counters: in every reachable
    state both counters are non-negative, a label still reads ["0"] exactly
    while its counter is 0, and reads the player tag followed by the decimal
    count from the first goal on ([label_of]). *)
Theorem labels_follow_counters s :
  reachable s ->
  (0 <= SJ1 s /\ Score1 s = label_of "J1:" (SJ1 s)) /\
  (0 <= SJ2 s /\ Score2 s = label_of "J2:" (SJ2 s)).
Proof.
  intros [evs H].
  apply (run_labels _ _ _ H); split; first [reflexivity | cbn; lia].
Qed.

Lemma labels_follow_counters_witness :
  (0 <= SJ1 first_goal /\ Score1 first_goal = label_of "J1:" (SJ1 first_goal)) /\
  (0 <= SJ2 first_goal /\ Score2 first_goal = label_of "J2:" (SJ2 first_goal)).
Proof. exact (labels_follow_counters first_goal first_goal_reachable). Defined.

(** ** The keys *)

(** X5. Down then up on the left paddle is a round trip wherever the paddle
    can move down; at the lower stop ([a1 + 25 > 446]) the first press is
    lost and the pair moves the paddle up by one step.  The keys touch
    nothing but [a1]. *)
Theorem down_up_round_trip s :
  -25 <= a1 s ->
  ControlesJ1etJ2 "z" (ControlesJ1etJ2 "s" s) =
  if a1 s + 25 <=? 446 then s else set_a1 (a1 s - 25) s.
Proof.
  intros Hlo. destruct s as [x y vx vy p1 p2 n1 n2 l1 l2]. cbn [a1] in *.
  unfold ControlesJ1etJ2. cbn [String.eqb Ascii.eqb Bool.eqb andb a1 set_a1].
  destruct (p1 + 25 <=? 446) eqn:E1.
  - unfold set_a1. cbn.
    replace (p1 + 25 - 25 >=? -25) with true by (symmetry; apply Z.geb_le; lia).
    f_equal; lia.
  - cbn [a1]. apply Z.leb_gt in E1.
    replace (p1 - 25 >=? -25) with true by (symmetry; apply Z.geb_le; lia).
    reflexivity.
Qed.

Lemma down_up_round_trip_witness :
  ControlesJ1etJ2 "z" (ControlesJ1etJ2 "s" init) =
  if a1 init + 25 <=? 446 then init else set_a1 (a1 init - 25) init.
Proof. apply (down_up_round_trip init). cbn. lia. Defined.

(** X6. The two players do not interfere: a key of player 1 (["s"] or
    ["z"]) and any key that is not one of those two can be pressed in either
    order, with the same state as a result. *)
Theorem players_keys_commute k1 k2 s :
  k1 = "s"%string \/ k1 = "z"%string ->
  k2 <> "s"%string -> k2 <> "z"%string ->
  ControlesJ1etJ2 k2 (ControlesJ1etJ2 k1 s) = ControlesJ1etJ2 k1 (ControlesJ1etJ2 k2 s).
Proof.
  intros H1 Ns Nz.
  apply String.eqb_neq in Ns, Nz.
  destruct s as [x y vx vy p1 p2 n1 n2 l1 l2].
  unfold ControlesJ1etJ2. rewrite Ns, Nz. cbn [andb a1 a2 set_a1 set_a2].
  destruct H1 as [-> | ->]; cbn [String.eqb Ascii.eqb Bool.eqb andb];
    destruct (p1 + 25 <=? 446) eqn:A, (p1 - 25 >=? -25) eqn:B,
             ((k2 =? "Down")%string), ((k2 =? "Up")%string),
             (p2 + 25 <=? 446) eqn:D, (p2 - 25 >=? -25) eqn:U;
    cbn [andb a1 a2 set_a1 set_a2]; rewrite ?A, ?B, ?D, ?U; reflexivity.
Qed.

Lemma players_keys_commute_witness :
  ControlesJ1etJ2 "Up" (ControlesJ1etJ2 "s" init) =
  ControlesJ1etJ2 "s" (ControlesJ1etJ2 "Up" init).
Proof.
  apply (players_keys_commute "s"%string "Up"%string init); [left; reflexivity | discriminate | discriminate].
Defined.

Lemma keys_own_paddle k s :
  (existsb (String.eqb k) ["s"; "z"]%string = false -> a1 (ControlesJ1etJ2 k s) = a1 s) /\
  (existsb (String.eqb k) ["Down"; "Up"]%string = false -> a2 (ControlesJ1etJ2 k s) = a2 s).
Proof.
  unfold ControlesJ1etJ2. cbn [existsb]. rewrite !orb_false_r. split; intros H;
    apply orb_false_iff in H as [H1 H2]; rewrite ?H1, ?H2; cbn [andb];
    repeat match goal with |- context [if ?b then _ else _] => destruct b end;
    reflexivity.
Qed.

(** X7. A paddle answers to its own two keys and to nothing else: over a
    run in which neither ["s"] nor ["z"] is pressed, whatever the ball does
    and whatever else is typed, [a1] keeps its value; likewise [a2] with
    ["Down"] and ["Up"]. *)
Theorem paddle_moves_by_own_keys evs : forall s s',
  run evs s = Some s' ->
  (without_keys ["s"; "z"]%string evs = true -> a1 s' = a1 s) /\
  (without_keys ["Down"; "Up"]%string evs = true -> a2 s' = a2 s).
Proof.
  induction evs as [|ev evs IH]; intros s s'; cbn [run].
  - intros [= <-]. auto.
  - destruct (handle ev s) as [t|] eqn:E; [|discriminate]. cbn [bind]. intros H.
    destruct (IH _ _ H) as [I1 I2].
    destruct ev as [|k]; cbn [handle] in E; cbn [without_keys].
    + destruct (bouboule_paddles _ _ E) as [E1 E2]. rewrite <- E1, <- E2. auto.
    + injection E as <-. destruct (keys_own_paddle k s) as [K1 K2].
      split; intros W; apply andb_true_iff in W as [W1 W2];
        apply negb_true_iff in W1.
      * rewrite (I1 W2). exact (K1 W1).
      * rewrite (I2 W2). exact (K2 W1).
Qed.

Lemma paddle_moves_by_own_keys_witness :
  a1 (set_bouleY (PInt 262) (set_bouleX (PInt 310) (set_a2 115 init))) = a1 init.
Proof.
  apply (proj1 (paddle_moves_by_own_keys [KeyPress "Up"; Tick; KeyPress "q"] init _ eq_refl)).
  reflexivity.
Defined.

(** ** The canvas *)

Lemma add_five a : exists c, add a (PInt 5) = Some c.
Proof. destruct a; unfold add; cbn; eexists; reflexivity. Qed.

Lemma bouboule_canvas_inv g g' :
  bouboule_canvas g = Some g' ->
  exists s1 x5 y5,
    integrate (globals g) = Some s1 /\
    add (bouleX s1) (PInt 5) = Some x5 /\ add (bouleY s1) (PInt 5) = Some y5 /\
    bouboule (globals g) = Some (globals g') /\
    boule g' = mkOval (bouleX s1) (bouleY s1) x5 y5 /\
    raquette1 g' = raquette1 g /\ raquette2 g' = raquette2 g.
Proof.
  unfold bouboule_canvas, bouboule.
  destruct (integrate (globals g)) as [s1|]; [|discriminate]. cbn [bind].
  destruct (add (bouleX s1) (PInt 5)) as [x5|] eqn:Ex; [|discriminate]. cbn [bind].
  destruct (add (bouleY s1) (PInt 5)) as [y5|] eqn:Ey; [|discriminate]. cbn [bind].
  destruct (walls s1) as [s2|]; [|discriminate]. cbn [bind].
  destruct (goals s2) as [s3|]; [|discriminate]. cbn [bind].
  destruct (paddles s3) as [s4|]; [|discriminate]. cbn [bind].
  intros [= <-]. exists s1, x5, y5. cbn [globals boule raquette1 raquette2].
  repeat split; trivial.
Qed.

Lemma bouboule_canvas_globals g :
  option_map globals (bouboule_canvas g) = bouboule (globals g).
Proof.
  unfold bouboule_canvas, bouboule.
  destruct (integrate (globals g)) as [s1|]; [|reflexivity]. cbn [bind].
  destruct (add_five (bouleX s1)) as [x5 ->]. destruct (add_five (bouleY s1)) as [y5 ->].
  cbn [bind].
  destruct (walls s1) as [s2|]; [|reflexivity]. cbn [bind].
  destruct (goals s2) as [s3|]; [|reflexivity]. cbn [bind].
  destruct (paddles s3) as [s4|]; reflexivity.
Qed.

Lemma keys_canvas_globals k g :
  globals (ControlesJ1etJ2_canvas k g) = ControlesJ1etJ2 k (globals g).
Proof.
  unfold ControlesJ1etJ2_canvas, ControlesJ1etJ2. cbv zeta.
  repeat match goal with |- context [if ?b then _ else _] => destruct b end;
    reflexivity.
Qed.

Lemma handle_canvas_globals ev g :
  option_map globals (handle_canvas ev g) = handle ev (globals g).
Proof.
  destruct ev as [|k]; cbn [handle_canvas handle option_map].
  - apply bouboule_canvas_globals.
  - rewrite keys_canvas_globals. reflexivity.
Qed.

Lemma run_canvas_globals evs : forall g,
  option_map globals (run_canvas evs g) = run evs (globals g).
Proof.
  induction evs as [|ev evs IH]; intros g; cbn [run_canvas run].
  - reflexivity.
  - rewrite <- handle_canvas_globals.
    destruct (handle_canvas ev g) as [g1|]; cbn [bind option_map]; [apply IH | reflexivity].
Qed.

Lemma reachable_canvas_globals g : reachable_canvas g -> reachable (globals g).
Proof.
  intros [evs H]. exists evs. change init with (globals start).
  rewrite <- run_canvas_globals, H. reflexivity.
Qed.

Lemma keys_drawn k g :
  (drawn_at 12 (a1 (globals g)) (raquette1 g) ->
   drawn_at 12 (a1 (globals (ControlesJ1etJ2_canvas k g))) (raquette1 (ControlesJ1etJ2_canvas k g))) /\
  (drawn_at 600 (a2 (globals g)) (raquette2 g) ->
   drawn_at 600 (a2 (globals (ControlesJ1etJ2_canvas k g))) (raquette2 (ControlesJ1etJ2_canvas k g))).
Proof.
  unfold ControlesJ1etJ2_canvas, drawn_at. cbv zeta.
  repeat match goal with |- context [if ?b then _ else _] => destruct b end;
    cbn [globals raquette1 raquette2]; split; trivial; intros ->;
    unfold move; cbn; f_equal; lia.
Qed.

Lemma run_drawn evs : forall g g',
  run_canvas evs g = Some g' ->
  drawn_at 12 (a1 (globals g)) (raquette1 g) ->
  drawn_at 600 (a2 (globals g)) (raquette2 g) ->
  drawn_at 12 (a1 (globals g')) (raquette1 g') /\
  drawn_at 600 (a2 (globals g')) (raquette2 g').
Proof.
  induction evs as [|ev evs IH]; intros g g'; cbn [run_canvas].
  - intros [= <-]. auto.
  - destruct (handle_canvas ev g) as [t|] eqn:E; [|discriminate]. cbn [bind].
    intros H D1 D2. apply (IH _ _ H); destruct ev as [|k]; cbn [handle_canvas] in E.
    + destruct (bouboule_canvas_inv _ _ E) as (s1 & x5 & y5 & _ & _ & _ & Hb & _ & R1 & _).
      destruct (bouboule_paddles _ _ Hb) as [-> _]. rewrite R1. exact D1.
    + injection E as <-. exact (proj1 (keys_drawn k g) D1).
    + destruct (bouboule_canvas_inv _ _ E) as (s1 & x5 & y5 & _ & _ & _ & Hb & _ & _ & R2).
      destruct (bouboule_paddles _ _ Hb) as [_ ->]. rewrite R2. exact D2.
    + injection E as <-. exact (proj2 (keys_drawn k g) D2).
Qed.

(** X8. The paddles are drawn where the paddle rule looks for them: at
    every moment the left rectangle is [(12, a1, 16, a1 + 80)] and the right
    one [(600, a2, 604, a2 + 80)], so the band [a1 < y < a1 + 80] of the
    rule is the painted one.  At the ends of its course a paddle sticks out
    of the 512 pixels of the canvas, by 10 above or by 8 below at most. *)
Theorem paddles_drawn_where_tested g :
  reachable_canvas g ->
  (raquette1 g = mkRect 12 (a1 (globals g)) 16 (a1 (globals g) + 80) /\
   raquette2 g = mkRect 600 (a2 (globals g)) 604 (a2 (globals g) + 80)) /\
  (-10 <= ry1 (raquette1 g) /\ ry2 (raquette1 g) <= 520) /\
  (-10 <= ry1 (raquette2 g) /\ ry2 (raquette2 g) <= 520).
Proof.
  intros R. pose proof (reachable_canvas_globals g R) as [evs Hr].
  destruct R as [evs' H].
  destruct (run_drawn _ _ _ H eq_refl eq_refl) as [D1 D2].
  destruct (run_lattice _ _ _ Hr) as [L1 L2].
  assert (L0 : paddle_lattice 140) by (unfold paddle_lattice; split; [lia | reflexivity]).
  destruct (L1 L0) as [B1 _]. destruct (L2 L0) as [B2 _].
  unfold drawn_at in D1, D2. split; [split; [exact D1 | exact D2]|].
  rewrite D1, D2. cbn [ry1 ry2]. lia.
Qed.

Lemma paddles_drawn_where_tested_witness :
  (raquette1 (ControlesJ1etJ2_canvas "s" start) =
     mkRect 12 (a1 (globals (ControlesJ1etJ2_canvas "s" start))) 16
               (a1 (globals (ControlesJ1etJ2_canvas "s" start)) + 80) /\
   raquette2 (ControlesJ1etJ2_canvas "s" start) =
     mkRect 600 (a2 (globals (ControlesJ1etJ2_canvas "s" start))) 604
                (a2 (globals (ControlesJ1etJ2_canvas "s" start)) + 80)) /\
  (-10 <= ry1 (raquette1 (ControlesJ1etJ2_canvas "s" start)) /\
   ry2 (raquette1 (ControlesJ1etJ2_canvas "s" start)) <= 520) /\
  (-10 <= ry1 (raquette2 (ControlesJ1etJ2_canvas "s" start)) /\
   ry2 (raquette2 (ControlesJ1etJ2_canvas "s" start)) <= 520).
Proof.
  apply (paddles_drawn_where_tested (ControlesJ1etJ2_canvas "s" start)).
  exists [KeyPress "s"]. reflexivity.
Defined.




(** ** Sums that are not NaN *)

Lemma shr_fexp_nonneg m e l mrs e' :
  0 <= m -> shr_fexp prec emax m e l = (mrs, e') -> 0 <= shr_m mrs.
Proof.
  intros Hm. unfold shr_fexp, shr.
  destruct (fexp prec emax (Zdigits2 m + e) - e) as [|p|p]; intros [= <- _].
  - destruct l as [|[ | | ]]; exact Hm.
  - rewrite iter_shr_1_m by (destruct l as [|[ | | ]]; exact Hm).
    apply Z.div_pos; [destruct l as [|[ | | ]]; exact Hm | lia].
  - destruct l as [|[ | | ]]; exact Hm.
Qed.

Lemma round_aux_not_nan sx mx ex lx :
  0 <= mx -> is_nan (binary_round_aux prec emax sx mx ex lx) = false.
Proof.
  intros Hm. rewrite round_aux_finish.
  destruct (shr_fexp prec emax mx ex lx) as [mrs e'] eqn:E1.
  pose proof (shr_fexp_nonneg _ _ _ _ _ Hm E1) as H1.
  assert (H2 : 0 <= round_nearest_even (shr_m mrs) (loc_of_shr_record mrs)).
  { destruct (round_nearest_even_cases (shr_m mrs) (loc_of_shr_record mrs)) as [-> | ->]; lia. }
  unfold finish.
  destruct (shr_fexp prec emax _ e' loc_Exact) as [mrs2 e2] eqn:E2.
  pose proof (shr_fexp_nonneg _ _ _ _ _ H2 E2) as H3.
  destruct (shr_m mrs2); try lia; [reflexivity|].
  destruct (e2 <=? emax - prec); reflexivity.
Qed.

Lemma normalize_not_nan m e sz :
  is_nan (binary_normalize prec emax m e sz) = false.
Proof.
  destruct m as [|p|p]; cbn [binary_normalize]; [reflexivity| |];
    unfold binary_round;
    destruct (shl_align p e (fexp prec emax (Z.pos (digits2_pos p) + e))) as [mz ez];
    apply round_aux_not_nan; lia.
Qed.

Lemma fadd_not_nan x y :
  is_finite x = true -> is_nan y = false -> is_nan (fadd x y) = false.
Proof.
  destruct x as [sx | sx | | sx mx ex]; try discriminate; intros _;
    destruct y as [sy | sy | | sy my ey]; try discriminate; intros _;
    try reflexivity.
  - destruct sx, sy; reflexivity.
  - unfold fadd, SFadd. apply normalize_not_nan.
Qed.

Lemma of_int_finite z f : of_int z = Some f -> is_finite f = true.
Proof.
  unfold of_int. pose proof (normalize_not_nan z 0 false) as H.
  destruct (binary_normalize prec emax z 0 false); try discriminate;
    intros [= <-]; reflexivity.
Qed.

Lemma between_finite x f :
  between_baselines x = true -> to_float x = Some f -> is_finite f = true.
Proof.
  destruct x as [z | g]; cbn [to_float].
  - intros _. apply of_int_finite.
  - intros H [= <-]. unfold between_baselines, le, cmp in H.
    destruct g as [sg | sg | | sg mg eg]; try reflexivity; cbn in H.
    + destruct sg; discriminate.
    + discriminate.
Qed.

Lemma sane_not_nan a f : sane a = true -> to_float a = Some f -> is_nan f = false.
Proof.
  destruct a as [z | g]; cbn [to_float sane].
  - intros _ H. apply of_int_finite in H. destruct f; trivial; discriminate.
  - intros H [= <-]. apply andb_true_iff in H as [_ H]. apply negb_true_iff in H. exact H.
Qed.

(** Off a NaN, [x] neither below 1 nor above 612 lies between the two. *)
Lemma not_out_between x :
  match x with PFloat f => is_nan f = false | PInt _ => True end ->
  lt x (PInt 1) = false -> gt x (PInt 612) = false -> between_baselines x = true.
Proof.
  unfold between_baselines, lt, gt, le. destruct x as [z | f]; cbn [cmp].
  - intros _. rewrite (Z.compare_antisym z 1). destruct (z ?= 1), (z ?= 612); cbn; trivial; discriminate.
  - intros Hn. destruct (cmp_int f 1) as [c1|] eqn:E1.
    + destruct (cmp_int f 612) as [c2|] eqn:E2.
      * destruct c1, c2; cbn; trivial; discriminate.
      * destruct f; try discriminate.
    + destruct f; discriminate.
Qed.

Lemma tick_between s s' :
  bouboule s = Some s' ->
  sane (plusX s) = true -> between_baselines (bouleX s) = true ->
  between_baselines (bouleX s') = true.
Proof.
  intros H Sx Bx.
  destruct (bouboule_shape _ _ H) as [x1 [y1 [vy2 [Hx [_ [_ Hg]]]]]].
  destruct Hg as [(_ & -> & _) | (Hg & -> & _)]; [reflexivity|].
  apply orb_false_iff in Hg as [Hl Hgt]. apply not_out_between; trivial.
  destruct x1 as [z | f]; [exact I|].
  unfold add in Hx.
  destruct (bouleX s) as [x | fx] eqn:Ex, (plusX s) as [vx | fvx] eqn:Ev; try discriminate;
    match type of Hx with
    | bind (to_float ?a) _ = _ =>
        destruct (to_float a) as [fa|] eqn:Ea; [|discriminate]; cbn [bind] in Hx;
        match type of Hx with
        | bind (to_float ?b) _ = _ =>
            destruct (to_float b) as [fb|] eqn:Eb; [|discriminate]; cbn [bind] in Hx
        end
    end;
    injection Hx as <-; apply fadd_not_nan;
    [ exact (between_finite _ _ Bx Ea) | exact (sane_not_nan _ _ Sx Eb)
    | exact (between_finite _ _ Bx Ea) | exact (sane_not_nan _ _ Sx Eb)
    | exact (between_finite _ _ Bx Ea) | exact (sane_not_nan _ _ Sx Eb) ].
Qed.

Lemma run_between evs : forall s s',
  run evs s = Some s' ->
  sane (plusX s) = true -> sane (plusY s) = true ->
  between_baselines (bouleX s) = true ->
  between_baselines (bouleX s') = true.
Proof.
  induction evs as [|ev evs IH]; intros s s'; cbn [run].
  - intros [= <-]. auto.
  - destruct (handle ev s) as [t|] eqn:E; [|discriminate]. cbn [bind].
    intros H Sx Sy Bx. destruct (handle_sane _ _ _ Sx Sy E) as [Tx Ty].
    apply (IH _ _ H Tx Ty). destruct ev as [|k]; cbn [handle] in E.
    + exact (tick_between _ _ E Sx Bx).
    + injection E as <-. destruct (keys_ball k s) as (-> & _). exact Bx.
Qed.

(** X10. Between two ticks the stored [x] is always a number from 1 to 612,
    both included, whatever its kind: never a NaN, never an infinity, never
    behind a baseline.  A ball that leaves this range is put back at 306
    within the same tick. *)
Theorem ball_between_baselines s :
  reachable s -> le (PInt 1) (bouleX s) && le (bouleX s) (PInt 612) = true.
Proof.
  intros [evs H]. exact (run_between _ _ _ H eq_refl eq_refl eq_refl).
Qed.

Lemma first_hit_reachable : reachable first_hit.
Proof.
  exists (repeat (KeyPress "Down") 4 ++ repeat Tick 73). vm_compute. reflexivity.
Defined.

Lemma ball_between_baselines_witness :
  le (PInt 1) (bouleX first_hit) && le (bouleX first_hit) (PInt 612) = true.
Proof. exact (ball_between_baselines first_hit first_hit_reachable). Defined.



(** ** The court before the first hit *)

(** X11. While the position is made of [int]s, that is from a kick-off to
    the first paddle hit, the ball is in the right half of the court and
    never farther than 6 past a wall: [306 <= x <= 612] and
    [4 <= y <= 490]. *)
Theorem int_ball_in_right_half s :
  reachable s ->
  (forall x, bouleX s = PInt x -> 306 <= x <= 612) /\
  (forall y, bouleY s = PInt y -> 4 <= y <= 490).
Proof.
  intros R. destruct (reachable_court s R) as (_ & _ & Ix & Iy).
  unfold int_phase_x in Ix. unfold int_phase_y, bounces in Iy.
  split.
  - intros x E. rewrite E in Ix. lia.
  - intros y E. rewrite E in Iy. destruct (plusY s); lia.
Qed.

Lemma int_ball_in_right_half_witness :
  (forall x, bouleX first_goal = PInt x -> 306 <= x <= 612) /\
  (forall y, bouleY first_goal = PInt y -> 4 <= y <= 490).
Proof. exact (int_ball_in_right_half first_goal first_goal_reachable). Defined.

Lemma reachable_tick_returns_witness :
  exists s', bouboule first_hit = Some s' /\ reachable s'.
Proof. exact (reachable_tick_returns first_hit first_hit_reachable). Defined.

Lemma reachable_sane_witness :
  sane (plusX first_hit) = true /\ sane (plusY first_hit) = true.
Proof. exact (reachable_sane first_hit first_hit_reachable). Defined.

(** ** A sum that leaves the court *)

(** A rounded positive number keeps its sign and does not fall below an
    integer it was not below. *)
Lemma round_lower p e K :
  0 < K < 2 ^ 52 ->
  mag_le (MFin K 0) (MFin (Zpos p) e) = true ->
  match binary_round prec emax false p e with
  | S754_finite false m' e' => mag_le (MFin K 0) (MFin (Zpos m') e') = true
  | S754_infinity false => True
  | _ => False
  end.
Proof.
  intros HK H.
  pose proof (digits_bounds p) as [Bl Bu].
  set (d := Zpos (digits2_pos p)) in *.
  assert (Hd1 : 1 <= d) by (subst d; lia).
  assert (Hde : 1 <= d + e).
  { destruct (Z.leb_spec 1 (d + e)); trivial. exfalso.
    pose proof (mag_le_fin_inv K 0 (Zpos p) e e ltac:(lia) ltac:(lia) H) as H'.
    rewrite Z.sub_diag, Z.mul_1_r in H'.
    assert (2 ^ d <= 2 ^ (0 - e)) by (apply Z.pow_le_mono_r; lia).
    assert (0 < 2 ^ (0 - e)) by (apply Z.pow_pos_nonneg; lia). nia. }
  unfold binary_round, shl_align. fold d. rewrite fexp_eq.
  replace (Z.max (d + e - 53) (-1074)) with (d + e - 53) by lia.
  destruct (d + e - 53 - e) as [|n|n] eqn:En.
  - (* 53 digits: nothing to round *)
    assert (Hd : d = 53) by lia.
    rewrite round_aux_finish, shr_fexp_keep by (simpl Zdigits2; fold d; rewrite fexp_eq; lia).
    cbn [shr_record_of_loc shr_m loc_of_shr_record round_nearest_even].
    rewrite finish_keep by (fold d; rewrite fexp_eq; lia).
    destruct (e <=? 971); [exact H | exact I].
  - (* more than 53 digits: the last [n] go *)
    destruct (shift_round false (Zpos p) e (Zpos n)) as [m1 [Hr [Hq _]]];
      [lia | lia | simpl Zdigits2; fold d; rewrite fexp_eq; lia |].
    rewrite Hr.
    assert (Hw : 0 < 2 ^ Zpos n) by (apply Z.pow_pos_nonneg; lia).
    assert (Hp : 2 ^ 52 * 2 ^ Zpos n <= Zpos p < 2 ^ 53 * 2 ^ Zpos n).
    { rewrite <- !Z.pow_add_r by lia.
      replace (52 + Zpos n) with (d - 1) by lia. replace (53 + Zpos n) with d by lia.
      split; assumption. }
    assert (Hm1 : 2 ^ 52 <= m1 <= 2 ^ 53).
    { assert (2 ^ 52 <= Zpos p / 2 ^ Zpos n) by (apply Z.div_le_lower_bound; lia).
      assert (Zpos p / 2 ^ Zpos n < 2 ^ 53) by (apply Z.div_lt_upper_bound; lia). lia. }
    assert (Hfloor : forall b, b <= 0 -> b <= e + Zpos n ->
              K * 2 ^ (0 - b) <= m1 * 2 ^ (e + Zpos n - b)).
    { intros b Hb0 Hbt.
      destruct (Z.leb_spec 0 (e + Zpos n)) as [Ht | Ht].
      - (* the result is an integer of at least 2^52 *)
        replace (e + Zpos n - b) with (e + Zpos n + (0 - b)) by lia.
        rewrite Z.pow_add_r by lia.
        assert (HA : 1 <= 2 ^ (e + Zpos n)) by (apply (Z.pow_le_mono_r 2 0); lia).
        assert (HB : 0 < 2 ^ (0 - b)) by (apply Z.pow_pos_nonneg; lia).
        set (A := 2 ^ (e + Zpos n)) in *. set (B := 2 ^ (0 - b)) in *.
        assert (K * B <= m1 * B) by (apply Z.mul_le_mono_nonneg_r; lia).
        assert (0 <= m1 * B) by (apply Z.mul_nonneg_nonneg; lia).
        assert (m1 * B * 1 <= m1 * B * A) by (apply Z.mul_le_mono_nonneg_l; lia).
        lia.
      - pose proof (mag_le_fin_inv K 0 (Zpos p) e e ltac:(lia) ltac:(lia) H) as H'.
        rewrite Z.sub_diag, Z.mul_1_r in H'.
        replace (0 - e) with ((0 - (e + Zpos n)) + Zpos n) in H' by lia.
        rewrite Z.pow_add_r in H' by lia.
        assert (Hq' : K * 2 ^ (0 - (e + Zpos n)) <= m1).
        { assert (K * 2 ^ (0 - (e + Zpos n)) <= Zpos p / 2 ^ Zpos n)
            by (apply Z.div_le_lower_bound; lia). lia. }
        replace (0 - b) with ((0 - (e + Zpos n)) + (e + Zpos n - b)) by lia.
        rewrite Z.pow_add_r by lia.
        assert (0 < 2 ^ (e + Zpos n - b)) by (apply Z.pow_pos_nonneg; lia).
        nia. }
    destruct (finish_normal false m1 (e + Zpos n)) as [-> | [m' [e' [-> [_ Hv]]]]];
      [lia | lia | exact I |].
    destruct Hv as [[Hv1 Hv2] | [Hv1 [Hv2 Hv3]]].
    + subst e'. rewrite Hv1.
      apply (mag_le_fin _ _ _ _ (Z.min 0 (e + Zpos n))); [lia | lia |].
      apply Hfloor; lia.
    + subst e'. rewrite Hv2.
      apply (mag_le_fin _ _ _ _ (Z.min 0 (e + Zpos n))); [lia | lia |].
      pose proof (Hfloor (Z.min 0 (e + Zpos n)) ltac:(lia) ltac:(lia)) as Hf.
      rewrite Hv1 in Hf.
      replace (e + Zpos n + 1 - Z.min 0 (e + Zpos n))
        with (1 + (e + Zpos n - Z.min 0 (e + Zpos n))) by lia.
      rewrite Z.pow_add_r by lia. change (2 ^ 1) with 2.
      change (2 ^ 53) with (2 ^ 52 * 2) in Hf. lia.
  - (* fewer than 53 digits: the mantissa is padded *)
    assert (Hb : 2 ^ 52 <= Zpos (Pos.iter xO p n) < 2 ^ 53).
    { rewrite iter_xO_mul.
      assert (0 < 2 ^ Zpos n) by (apply Z.pow_pos_nonneg; lia).
      replace (2 ^ 52) with (2 ^ (d - 1) * 2 ^ Zpos n)
        by (rewrite <- Z.pow_add_r by lia; f_equal; lia).
      replace (2 ^ 53) with (2 ^ d * 2 ^ Zpos n)
        by (rewrite <- Z.pow_add_r by lia; f_equal; lia).
      split; [apply Z.mul_le_mono_nonneg_r | apply Z.mul_lt_mono_pos_r]; lia. }
    assert (Hdg : Zpos (digits2_pos (Pos.iter xO p n)) = 53)
      by (apply digits_unique; simpl Z.sub; lia).
    rewrite round_aux_finish, shr_fexp_keep
      by (simpl Zdigits2; rewrite Hdg, fexp_eq; lia).
    cbn [shr_record_of_loc shr_m loc_of_shr_record round_nearest_even].
    rewrite finish_keep by (rewrite Hdg, fexp_eq; lia).
    destruct (d + e - 53 <=? 971); [|exact I].
    set (t := d + e - 53) in *.
    apply (mag_le_fin _ _ _ _ (Z.min 0 t)); [lia | lia |].
    pose proof (mag_le_fin_inv K 0 (Zpos p) e (Z.min 0 t) ltac:(lia) ltac:(lia) H) as H'.
    rewrite iter_xO_mul.
    replace (e - Z.min 0 t) with (Zpos n + (t - Z.min 0 t)) in H' by lia.
    rewrite Z.pow_add_r in H' by lia. lia.
Qed.

Lemma round_aux_sign sx mx ex lx :
  0 <= mx ->
  match binary_round_aux prec emax sx mx ex lx with
  | S754_zero s | S754_infinity s | S754_finite s _ _ => s = sx
  | S754_nan => False
  end.
Proof.
  intros Hm. rewrite round_aux_finish.
  destruct (shr_fexp prec emax mx ex lx) as [mrs e'] eqn:E1.
  pose proof (shr_fexp_nonneg _ _ _ _ _ Hm E1) as H1.
  assert (H2 : 0 <= round_nearest_even (shr_m mrs) (loc_of_shr_record mrs)).
  { destruct (round_nearest_even_cases (shr_m mrs) (loc_of_shr_record mrs)) as [-> | ->]; lia. }
  unfold finish.
  destruct (shr_fexp prec emax _ e' loc_Exact) as [mrs2 e2] eqn:E2.
  pose proof (shr_fexp_nonneg _ _ _ _ _ H2 E2) as H3.
  destruct (shr_m mrs2); try lia; [reflexivity|].
  destruct (e2 <=? emax - prec); reflexivity.
Qed.

Lemma round_sign sx p e :
  match binary_round prec emax sx p e with
  | S754_zero s | S754_infinity s | S754_finite s _ _ => s = sx
  | S754_nan => False
  end.
Proof.
  unfold binary_round.
  destruct (shl_align p e (fexp prec emax (Z.pos (digits2_pos p) + e))) as [mz ez].
  apply round_aux_sign. lia.
Qed.

Lemma shl_align_value m e ez :
  ez <= e -> Zpos (fst (shl_align m e ez)) = Zpos m * 2 ^ (e - ez).
Proof.
  intros H. unfold shl_align. destruct (ez - e) as [|d|d] eqn:E; try lia; cbn [fst].
  - replace (e - ez) with 0 by lia. lia.
  - rewrite iter_xO_mul. f_equal. f_equal. lia.
Qed.

Lemma mag_gt_fin m1 e1 m2 e2 b :
  b <= e1 -> b <= e2 ->
  mag_le (MFin m1 e1) (MFin m2 e2) = false ->
  m2 * 2 ^ (e2 - b) < m1 * 2 ^ (e1 - b).
Proof.
  intros H1 H2 H.
  destruct (Z.ltb_spec (m2 * 2 ^ (e2 - b)) (m1 * 2 ^ (e1 - b))) as [Hlt | Hge]; trivial.
  rewrite (mag_le_fin _ _ _ _ b H1 H2 Hge) in H. discriminate.
Qed.

(** A negative double, zero or infinity is below 1; a positive one that is
    at least [K + 1] is above [K]. *)
Lemma negative_lt_one f :
  match f with
  | S754_zero s | S754_infinity s | S754_finite s _ _ => s = true
  | S754_nan => False
  end ->
  lt (PFloat f) (PInt 1) = true.
Proof.
  unfold lt, cmp, cmp_int. destruct f as [s | s | | s m e]; try contradiction;
    intros ->; try reflexivity.
  cbn [cond_Zopp Z.opp]. destruct e as [|q|q].
  - reflexivity.
  - replace (Z.neg m * 2 ^ Z.pos q ?= 1) with Lt; trivial.
    symmetry. apply Z.compare_lt_iff.
    assert (0 < 2 ^ Zpos q) by (apply Z.pow_pos_nonneg; lia). nia.
  - replace (Z.neg m ?= 1 * 2 ^ Z.pos q) with Lt; trivial.
    symmetry. apply Z.compare_lt_iff.
    assert (0 < 2 ^ Zpos q) by (apply Z.pow_pos_nonneg; lia). lia.
Qed.

Lemma above_gt m e K :
  0 <= K -> mag_le (MFin (K + 1) 0) (MFin (Zpos m) e) = true ->
  gt (PFloat (S754_finite false m e)) (PInt K) = true.
Proof.
  intros HK H. unfold gt, cmp, cmp_int. cbn [cond_Zopp].
  pose proof (mag_le_fin_inv (K + 1) 0 (Zpos m) e (Z.min 0 e) ltac:(lia) ltac:(lia) H) as H'.
  destruct e as [|q|q].
  - change (Z.min 0 0) with 0 in H'. cbn in H'.
    replace (Z.pos m * 2 ^ 0 ?= K) with Gt; trivial.
    symmetry. apply Z.compare_gt_iff. lia.
  - replace (Z.min 0 (Zpos q)) with 0 in H' by lia.
    rewrite !Z.sub_0_r in H'. change (2 ^ 0) with 1 in H'.
    replace (Z.pos m * 2 ^ Z.pos q ?= K) with Gt; trivial.
    symmetry. apply Z.compare_gt_iff. lia.
  - replace (Z.min 0 (Zneg q)) with (Zneg q) in H' by lia.
    rewrite Z.sub_diag in H'. change (2 ^ 0) with 1 in H'.
    change (0 - Zneg q) with (Zpos q) in H'.
    replace (Z.pos m ?= K * 2 ^ Z.pos q) with Gt; trivial.
    symmetry. apply Z.compare_gt_iff.
    assert (0 < 2 ^ Zpos q) by (apply Z.pow_pos_nonneg; lia). lia.
Qed.

(** A ball between the baselines and a step longer than 612 make a sum
    that is behind one of them. *)
Lemma fadd_far mx ex v :
  mag_le (MFin 1 0) (MFin (Zpos mx) ex) = true ->
  mag_le (MFin (Zpos mx) ex) (MFin 612 0) = true ->
  is_nan v = false ->
  mag_le (mag (PFloat v)) (MFin 612 0) = false ->
  lt (PFloat (fadd (S754_finite false mx ex) v)) (PInt 1)
  || gt (PFloat (fadd (S754_finite false mx ex) v)) (PInt 612) = true.
Proof.
  intros Hlo Hhi Hn Hv.
  destruct v as [sv | sv | | sv mv ev]; try discriminate.
  - destruct sv; reflexivity.
  - unfold fadd, SFadd.
    set (ez := Z.min ex ev).
    pose proof (shl_align_value mx ex ez ltac:(lia)) as Ex.
    pose proof (shl_align_value mv ev ez ltac:(lia)) as Ev.
    set (X := Zpos (fst (shl_align mx ex ez))) in *.
    set (V := Zpos (fst (shl_align mv ev ez))) in *.
    set (b := Z.min 0 ez).
    cbn [mag] in Hv.
    pose proof (mag_le_fin_inv 1 0 (Zpos mx) ex b ltac:(lia) ltac:(lia) Hlo) as Lo.
    pose proof (mag_le_fin_inv (Zpos mx) ex 612 0 b ltac:(lia) ltac:(lia) Hhi) as Hi.
    pose proof (mag_gt_fin (Zpos mv) ev 612 0 b ltac:(lia) ltac:(lia) Hv) as Gv.
    assert (Hw : 0 < 2 ^ (ez - b)) by (apply Z.pow_pos_nonneg; lia).
    assert (EX : Zpos mx * 2 ^ (ex - b) = X * 2 ^ (ez - b)).
    { rewrite Ex, <- Z.mul_assoc, <- Z.pow_add_r by lia. f_equal. f_equal. lia. }
    assert (EV : Zpos mv * 2 ^ (ev - b) = V * 2 ^ (ez - b)).
    { rewrite Ev, <- Z.mul_assoc, <- Z.pow_add_r by lia. f_equal. f_equal. lia. }
    rewrite EX in Lo, Hi. rewrite EV in Gv.
    destruct sv; cbn [cond_Zopp]; fold X; fold V.
    + (* a step to the left *)
      assert (HS : X + - V < 0) by nia.
      destruct (X + - V) as [|p|p] eqn:ES; try lia. cbn [binary_normalize].
      rewrite (negative_lt_one _ (round_sign true p ez)). reflexivity.
    + (* a step to the right *)
      assert (HS : 613 * 2 ^ (0 - b) <= (X + V) * 2 ^ (ez - b)) by nia.
      destruct (X + V) as [|p|p] eqn:ES; try lia. cbn [binary_normalize].
      pose proof (round_lower p ez 613 ltac:(lia)
                    (mag_le_fin 613 0 (Zpos p) ez b ltac:(lia) ltac:(lia) HS)) as Hr.
      destruct (binary_round prec emax false p ez) as [s | s | | s m' e'];
        try contradiction.
      * destruct s; [contradiction | apply orb_true_r].
      * destruct s; [contradiction|].
        rewrite (above_gt m' e' 612 ltac:(lia) Hr). apply orb_true_r.
Qed.

Lemma between_float sx mx ex :
  between_baselines (PFloat (S754_finite sx mx ex)) = true ->
  sx = false /\
  mag_le (MFin 1 0) (MFin (Zpos mx) ex) = true /\
  mag_le (MFin (Zpos mx) ex) (MFin 612 0) = true.
Proof.
  unfold between_baselines, le, cmp, cmp_int, option_map. intros H.
  apply andb_true_iff in H as [H1 H2].
  assert (Hs : sx = false).
  { destruct sx; trivial. exfalso. cbn [cond_Zopp Z.opp] in H1.
    destruct ex as [|q|q].
    - discriminate.
    - assert (E : (Z.neg mx * 2 ^ Z.pos q ?= 1) = Lt).
      { apply Z.compare_lt_iff.
        assert (0 < 2 ^ Zpos q) by (apply Z.pow_pos_nonneg; lia). nia. }
      rewrite E in H1. discriminate.
    - assert (E : (Z.neg mx ?= 1 * 2 ^ Z.pos q) = Lt).
      { apply Z.compare_lt_iff.
        assert (0 < 2 ^ Zpos q) by (apply Z.pow_pos_nonneg; lia). lia. }
      rewrite E in H1. discriminate. }
  subst sx. cbn [cond_Zopp] in H1, H2. split; [reflexivity|].
  destruct ex as [|q|q].
  - change (2 ^ 0) with 1 in H1, H2. rewrite Z.mul_1_r in H1, H2.
    split; (apply (mag_le_fin _ _ _ _ 0); [lia | lia |]); rewrite Z.sub_diag;
      change (2 ^ 0) with 1; rewrite !Z.mul_1_r.
    + destruct (Z.pos mx ?= 1) eqn:E; try discriminate;
        [rewrite Z.compare_eq_iff in E | rewrite Z.compare_gt_iff in E]; lia.
    + destruct (Z.pos mx ?= 612) eqn:E; try discriminate;
        [rewrite Z.compare_eq_iff in E | rewrite Z.compare_lt_iff in E]; lia.
  - split; (apply (mag_le_fin _ _ _ _ 0); [lia | lia |]); rewrite !Z.sub_0_r;
      change (2 ^ 0) with 1; rewrite ?Z.mul_1_r.
    + destruct (Z.pos mx * 2 ^ Z.pos q ?= 1) eqn:E; try discriminate;
        [rewrite Z.compare_eq_iff in E | rewrite Z.compare_gt_iff in E]; lia.
    + destruct (Z.pos mx * 2 ^ Z.pos q ?= 612) eqn:E; try discriminate;
        [rewrite Z.compare_eq_iff in E | rewrite Z.compare_lt_iff in E]; lia.
  - split; (apply (mag_le_fin _ _ _ _ (Zneg q)); [lia | lia |]); rewrite Z.sub_diag;
      change (0 - Zneg q) with (Zpos q); change (2 ^ 0) with 1; rewrite ?Z.mul_1_r.
    + destruct (Z.pos mx ?= 1 * 2 ^ Z.pos q) eqn:E; try discriminate;
        [rewrite Z.compare_eq_iff in E | rewrite Z.compare_gt_iff in E]; lia.
    + destruct (Z.pos mx ?= 612 * 2 ^ Z.pos q) eqn:E; try discriminate;
        [rewrite Z.compare_eq_iff in E | rewrite Z.compare_lt_iff in E]; lia.
Qed.

(** What the ball is added to, as a double: positive, from 1 to 612. *)
Lemma between_to_float x fx :
  between_baselines x = true -> to_float x = Some fx ->
  exists mx ex,
    fx = S754_finite false mx ex /\
    mag_le (MFin 1 0) (MFin (Zpos mx) ex) = true /\
    mag_le (MFin (Zpos mx) ex) (MFin 612 0) = true.
Proof.
  destruct x as [z | f]; cbn [to_float]; intros B E.
  - unfold between_baselines, le, cmp in B. apply andb_true_iff in B as [B1 B2].
    assert (Hz : 1 <= z <= 612).
    { split.
      - destruct (1 ?= z) eqn:C; try discriminate;
          [rewrite Z.compare_eq_iff in C | rewrite Z.compare_lt_iff in C]; lia.
      - destruct (z ?= 612) eqn:C; try discriminate;
          [rewrite Z.compare_eq_iff in C | rewrite Z.compare_lt_iff in C]; lia. }
    destruct (of_int_small z) as [m [e [Ho [_ [He Hm]]]]]; [lia | simpl; lia |].
    rewrite Ho in E. injection E as <-.
    replace (z <? 0) with false by (symmetry; apply Z.ltb_ge; lia).
    exists m, e. split; [reflexivity|].
    rewrite Z.abs_eq in Hm by lia.
    assert (0 < 2 ^ (- e)) by (apply Z.pow_pos_nonneg; lia).
    split; (apply (mag_le_fin _ _ _ _ e); [lia | lia |]); rewrite Z.sub_diag;
      replace (0 - e) with (- e) by lia; nia.
  - injection E as <-. destruct f as [s | s | | s m e].
    + unfold between_baselines, le, cmp in B. cbn in B. discriminate.
    + unfold between_baselines, le, cmp in B. cbn in B. destruct s; discriminate.
    + discriminate.
    + destruct (between_float _ _ _ B) as (-> & H1 & H2). exists m, e. auto.
Qed.

(** No goal, so the step was no longer than 612. *)
Lemma tick_slow s x1 :
  serve_phase s -> between_baselines (bouleX s) = true -> sane (plusX s) = true ->
  add (bouleX s) (plusX s) = Some x1 ->
  lt x1 (PInt 1) || gt x1 (PInt 612) = false ->
  mag_le (mag (plusX s)) (MFin 612 0) = true.
Proof.
  intros I B Sx Ha Hg. unfold serve_phase in I.
  destruct (plusX s) as [vx | fv] eqn:Ev.
  - destruct (plusY s) as [vy|]; [|contradiction].
    destruct I as (Hs & _). cbn [mag].
    apply (mag_le_fin _ _ _ _ 0); lia.
  - destruct (mag_le (mag (PFloat fv)) (MFin 612 0)) eqn:E; [reflexivity | exfalso].
    assert (Hn : is_nan fv = false).
    { cbn [sane] in Sx. apply andb_true_iff in Sx as [_ Sx].
      apply negb_true_iff in Sx. exact Sx. }
    assert (Hx : exists fx, to_float (bouleX s) = Some fx /\ x1 = PFloat (fadd fx fv)).
    { unfold add in Ha. destruct (bouleX s) as [z | f]; cbn [to_float] in *.
      - destruct (of_int z) as [fz|]; [|discriminate]. cbn [bind] in Ha.
        injection Ha as <-. eauto.
      - cbn [bind] in Ha. injection Ha as <-. eauto. }
    destruct Hx as [fx [Ef ->]].
    destruct (between_to_float _ _ B Ef) as (mx & ex & -> & H1 & H2).
    rewrite (fadd_far mx ex fv H1 H2 Hn E) in Hg. discriminate.
Qed.

(** ** The speeds of a rally *)

(** After as many hits as a serve can take the ball is too fast for the
    court. *)
Lemma last_speed_far vx vy n ux :
  (vx = 4 /\ vy = 6) \/ (vx = 2 /\ vy = 3) ->
  (n <= max_hits vx)%nat ->
  speed n (PInt vx) = Some ux -> mag_le (mag ux) (MFin 612 0) = true ->
  (n < max_hits vx)%nat.
Proof.
  intros [[-> _] | [-> _]] Hn Hs Hm; unfold max_hits in *; cbn [Z.eqb Pos.eqb] in *.
  - destruct (Nat.eq_dec n 22) as [-> | N]; [exfalso | lia].
    vm_compute in Hs. injection Hs as <-. vm_compute in Hm. discriminate.
  - destruct (Nat.eq_dec n 25) as [-> | N]; [exfalso | lia].
    vm_compute in Hs. injection Hs as <-. vm_compute in Hm. discriminate.
Qed.

Lemma paddle_fires_raw s s1 s2 :
  integrate s = Some s1 -> walls s1 = Some s2 -> goals s2 = Some s2 ->
  paddle_fires s = hits_paddle s2.
Proof.
  intros Hi Hw Hg. unfold paddle_fires. rewrite Hi. cbn [bind].
  rewrite Hw. cbn [bind]. rewrite Hg. reflexivity.
Qed.

(** One tick, with the log: a goal starts a new rally, a hit is one more
    factor, anything else keeps the velocity up to the sign of [plusY]. *)
Lemma tick_rally_at s s' l :
  bouboule s = Some s' ->
  serve_phase s -> between_baselines (bouleX s) = true ->
  sane (plusX s) = true -> sane (plusY s) = true ->
  rally_at s l -> rally_at s' (log_tick s l).
Proof.
  intros H I B Sx Sy (Hserve & Hn & ux & uy & Hux & Huy & Px & Py).
  destruct (bouboule_shape _ _ H) as [x1 [y1 [vy2 [Hx [Hy [_ Hg]]]]]].
  destruct (bouboule_inv _ _ H) as [s1 [_ [_ [Hi _]]]].
  assert (E1 : bouleX s1 = x1 /\ plusY s1 = plusY s).
  { destruct (integrate_inv _ _ Hi) as [x [y [Hx' [_ ->]]]].
    rewrite Hx in Hx'. injection Hx' as <-. split; reflexivity. }
  destruct E1 as [E1 Evy1].
  assert (Hgf : goal_fires s = lt x1 (PInt 1) || gt x1 (PInt 612)).
  { unfold goal_fires. rewrite Hi, E1. reflexivity. }
  unfold log_tick. rewrite Hgf.
  destruct Hg as [(G & _ & _ & Evx & Evy) | (G & _)]; rewrite G.
  { unfold rally_at. cbn [serve_x serve_y hits speed]. rewrite Evx, Evy.
    split; [right; split; reflexivity|]. split; [unfold max_hits; cbn; lia|].
    exists (PInt 2), (PInt 3). repeat split; left; reflexivity. }
  pose proof G as G'. apply orb_false_iff in G' as [Hl Hgt].
  rewrite <- E1 in Hl, Hgt.
  destruct (quiet_tick _ _ Hi (sane_valid _ Sy) Hl Hgt)
    as [s2 [E2 [Hw [Hgo [Hb [Hvx [_ Hsy]]]]]]].
  assert (Hpm : pm (plusY s) (plusY s2)).
  { rewrite E2.
    destruct (lt (bouleY s1) (PInt 10) || gt (bouleY s1) (PInt 486));
      cbn [set_plusY plusY]; [right | left; rewrite Evy1]; reflexivity. }
  rewrite (paddle_fires_raw _ _ _ Hi Hw Hgo).
  rewrite Hb, paddles_spec in H. destruct (hits_paddle s2).
  - (* a hit: one more factor *)
    rewrite speed_up_spec in H by (apply sane_valid; rewrite Hvx; exact Sx).
    destruct (mul (neg (plusX s2)) (PFloat c1259)) as [vx'|] eqn:Mx; [|discriminate].
    cbn [bind] in H.
    destruct (mul (plusY s2) (PFloat c1259)) as [vy'|] eqn:My; [|discriminate].
    cbn [bind] in H. injection H as <-.
    unfold rally_at. cbn [set_plusX set_plusY plusX plusY serve_x serve_y hits].
    pose proof (tick_slow s x1 I B Sx Hx G) as Slow.
    rewrite (pm_mag _ _ Px) in Slow.
    pose proof (last_speed_far _ _ _ ux Hserve Hn Hux Slow) as Hn'.
    destruct (pm_scale ux (neg (plusX s2)) c1259 vx') as [bx [Mbx Pbx]];
      [apply pm_neg_r; rewrite Hvx; exact Px | exact Mx |].
    destruct (pm_scale uy (plusY s2) c1259 vy') as [by' [Mby Pby]];
      [exact (pm_trans _ _ _ Py Hpm) | exact My |].
    split; [exact Hserve|]. split; [lia|].
    exists bx, by'. cbn [speed]. rewrite Hux, Huy. cbn [bind].
    repeat split; trivial.
  - injection H as <-. unfold rally_at. rewrite Hvx.
    split; [exact Hserve|]. split; [exact Hn|].
    exists ux, uy. repeat split; trivial. exact (pm_trans _ _ _ Py Hpm).
Qed.

Lemma rally_at_rally s l : rally_at s l -> rally s.
Proof.
  intros (Hserve & Hn & ux & uy & Hux & Huy & Px & Py).
  exists (serve_x l), (serve_y l), (hits l), ux, uy. auto 10.
Qed.

Lemma tick_rally s s' :
  bouboule s = Some s' ->
  serve_phase s -> between_baselines (bouleX s) = true ->
  sane (plusX s) = true -> sane (plusY s) = true ->
  rally s -> rally s'.
Proof.
  intros H I B Sx Sy (vx & vy & n & ux & uy & Hserve & Hn & Hux & Huy & Px & Py).
  apply (rally_at_rally s' (log_tick s (mkLog vx vy n))).
  apply tick_rally_at; trivial.
  unfold rally_at. cbn [serve_x serve_y hits]. eauto 10.
Qed.

Lemma run_rally_at evs : forall s s' l,
  run evs s = Some s' ->
  serve_phase s -> between_baselines (bouleX s) = true ->
  sane (plusX s) = true -> sane (plusY s) = true ->
  rally_at s l -> rally_at s' (log_run evs s l).
Proof.
  induction evs as [|ev evs IH]; intros s s' l; cbn [run log_run].
  - intros [= <-]. auto.
  - destruct (handle ev s) as [t|] eqn:E; [|discriminate]. cbn [bind].
    intros H I B Sx Sy R. destruct (handle_sane _ _ _ Sx Sy E) as [Tx Ty].
    destruct ev as [|k]; cbn [handle] in E.
    + exact (IH _ _ _ H (tick_serve_phase _ _ E I) (tick_between _ _ E Sx B) Tx Ty
                (tick_rally_at _ _ _ E I B Sx Sy R)).
    + injection E as <-. destruct (keys_ball k s) as (Ex & Ey & Evx & Evy).
      apply (IH _ _ _ H); trivial.
      * unfold serve_phase. rewrite Ex, Ey, Evx, Evy. exact I.
      * rewrite Ex. exact B.
      * unfold rally_at. rewrite Evx, Evy. exact R.
Qed.

Lemma run_rally evs : forall s s',
  run evs s = Some s' ->
  serve_phase s -> between_baselines (bouleX s) = true ->
  sane (plusX s) = true -> sane (plusY s) = true ->
  rally s -> rally s'.
Proof.
  induction evs as [|ev evs IH]; intros s s'; cbn [run].
  - intros [= <-]. auto.
  - destruct (handle ev s) as [t|] eqn:E; [|discriminate]. cbn [bind].
    intros H I B Sx Sy R. destruct (handle_sane _ _ _ Sx Sy E) as [Tx Ty].
    destruct ev as [|k]; cbn [handle] in E.
    + exact (IH _ _ H (tick_serve_phase _ _ E I) (tick_between _ _ E Sx B) Tx Ty
                (tick_rally _ _ E I B Sx Sy R)).
    + injection E as <-. destruct (keys_ball k s) as (Ex & Ey & Evx & Evy).
      apply (IH _ _ H); trivial.
      * unfold serve_phase. rewrite Ex, Ey, Evx, Evy. exact I.
      * rewrite Ex. exact B.
      * unfold rally. rewrite Evx, Evy. exact R.
Qed.

Lemma rally_init : rally init.
Proof.
  exists 4, 6, 0%nat, (PInt 4), (PInt 6).
  repeat split; try (left; reflexivity).
  - left. split; reflexivity.
  - unfold max_hits. cbn. lia.
Qed.

(** X13. The velocity of a reachable state is one of finitely many, and a
    rally has few hits.  Along any run from the start keep a log: the
    serve, (4, 6) until the first goal and (2, 3) after every goal, and the
    number of ticks since that kick-off in which a paddle branch fired
    ([log_run]).  At the end of the run [plusX] is, up to its sign, the
    serve multiplied once per logged hit by 1.259 in binary64, and [plusY]
    likewise.  A ball whose horizontal step exceeds 612 cannot end a tick
    between the baselines, so the log never counts more than 22 hits after
    the first serve nor more than 25 after a goal. *)
Theorem rally_has_few_hits evs s :
  run evs init = Some s ->
  let l := log_run evs init (mkLog 4 6 0) in
  ((serve_x l = 4 /\ serve_y l = 6 /\ (hits l <= 22)%nat) \/
   (serve_x l = 2 /\ serve_y l = 3 /\ (hits l <= 25)%nat)) /\
  exists ux uy,
    speed (hits l) (PInt (serve_x l)) = Some ux /\
    speed (hits l) (PInt (serve_y l)) = Some uy /\
    (plusX s = ux \/ plusX s = neg ux) /\ (plusY s = uy \/ plusY s = neg uy).
Proof.
  intros H l.
  assert (R0 : rally_at init (mkLog 4 6 0)).
  { unfold rally_at. cbn [serve_x serve_y hits speed].
    split; [left; split; reflexivity|]. split; [unfold max_hits; cbn; lia|].
    exists (PInt 4), (PInt 6). repeat split; left; reflexivity. }
  destruct (run_rally_at _ _ _ _ H serve_phase_init eq_refl eq_refl eq_refl R0)
    as (Hserve & Hn & ux & uy & Hux & Huy & Px & Py).
  fold l in Hserve, Hn, Hux, Huy. split.
  - destruct Hserve as [[E1 E2] | [E1 E2]]; rewrite E1 in Hn;
      unfold max_hits in Hn; cbn [Z.eqb Pos.eqb] in Hn; [left | right]; auto.
  - exists ux, uy. auto.
Qed.

Lemma bounded_speeds vx vy n ux uy :
  (vx = 4 /\ vy = 6) \/ (vx = 2 /\ vy = 3) -> (n <= max_hits vx)%nat ->
  speed n (PInt vx) = Some ux -> speed n (PInt vy) = Some uy ->
  mag_le (mag ux) (MFin 635 0) = true /\ mag_le (mag uy) (MFin 953 0) = true.
Proof.
  intros [[-> ->] | [-> ->]] Hn; unfold max_hits in Hn; cbn [Z.eqb Pos.eqb] in Hn.
  - do 23 (destruct n as [|n];
           [intros Hx Hy; vm_compute in Hx, Hy; injection Hx as <-; injection Hy as <-;
            split; vm_compute; reflexivity|]).
    lia.
  - do 26 (destruct n as [|n];
           [intros Hx Hy; vm_compute in Hx, Hy; injection Hx as <-; injection Hy as <-;
            split; vm_compute; reflexivity|]).
    lia.
Qed.

(** X14. The ball is never faster than 635 a tick across the court nor than
    953 along it: in every reachable state [abs plusX <= 635] and
    [abs plusY <= 953].  In particular the velocity never overflows to an
    infinity, however long the game lasts. *)
Theorem speed_is_bounded s :
  reachable s ->
  mag_le (mag (plusX s)) (MFin 635 0) = true /\
  mag_le (mag (plusY s)) (MFin 953 0) = true.
Proof.
  intros [evs H].
  destruct (run_rally _ _ _ H serve_phase_init eq_refl eq_refl eq_refl rally_init)
    as (vx & vy & n & ux & uy & Hserve & Hn & Hux & Huy & Px & Py).
  rewrite (pm_mag _ _ Px), (pm_mag _ _ Py).
  exact (bounded_speeds vx vy n ux uy Hserve Hn Hux Huy).
Qed.

(** ** The height of the ball *)

Lemma fadd_not_nan_r x y :
  is_nan x = false -> is_finite y = true -> is_nan (fadd x y) = false.
Proof.
  destruct y as [sy | sy | | sy my ey]; try discriminate; intros Hx _;
    destruct x as [sx | sx | | sx mx ex]; try discriminate;
    try reflexivity.
  - destruct sx, sy; reflexivity.
  - unfold fadd, SFadd. apply normalize_not_nan.
Qed.

Lemma below_finite a f k :
  mag_le (mag a) (MFin k 0) = true -> to_float a = Some f -> is_finite f = true.
Proof.
  destruct a as [z | g]; cbn [to_float].
  - intros _. apply of_int_finite.
  - intros H [= <-]. destruct g; trivial; discriminate.
Qed.

Lemma add_is_number a b c :
  is_number a = true -> mag_le (mag b) (MFin 953 0) = true ->
  add a b = Some c -> is_number c = true.
Proof.
  intros Ha Hb H. unfold add in H.
  destruct a as [x | fa], b as [y | fb];
    try (injection H as <-; reflexivity);
    match type of H with
    | bind (to_float ?u) _ = _ =>
        destruct (to_float u) as [fu|] eqn:Eu; [|discriminate]; cbn [bind] in H;
        match type of H with
        | bind (to_float ?w) _ = _ =>
            destruct (to_float w) as [fw|] eqn:Ew; [|discriminate]; cbn [bind] in H
        end
    end;
    injection H as <-; cbn [is_number]; apply negb_true_iff, fadd_not_nan_r;
    try exact (below_finite _ _ _ Hb Ew).
  - apply of_int_finite in Eu. destruct fu; trivial; discriminate.
  - cbn [to_float] in Eu. injection Eu as <-. cbn [is_number] in Ha.
    apply negb_true_iff in Ha. exact Ha.
  - cbn [to_float] in Eu. injection Eu as <-. cbn [is_number] in Ha.
    apply negb_true_iff in Ha. exact Ha.
Qed.

Lemma tick_height s s' :
  bouboule s = Some s' ->
  mag_le (mag (plusY s)) (MFin 953 0) = true ->
  is_number (bouleY s) = true -> is_number (bouleY s') = true.
Proof.
  intros H Hv Hy.
  destruct (bouboule_shape _ _ H) as [x1 [y1 [vy2 [_ [Ey [_ Hg]]]]]].
  destruct Hg as [(_ & _ & -> & _) | (_ & _ & -> & _)]; [reflexivity|].
  exact (add_is_number _ _ _ Hy Hv Ey).
Qed.

Lemma run_height evs : forall s s',
  run evs s = Some s' ->
  serve_phase s -> between_baselines (bouleX s) = true ->
  sane (plusX s) = true -> sane (plusY s) = true -> rally s ->
  is_number (bouleY s) = true -> is_number (bouleY s') = true.
Proof.
  induction evs as [|ev evs IH]; intros s s'; cbn [run].
  - intros [= <-]. auto.
  - destruct (handle ev s) as [t|] eqn:E; [|discriminate]. cbn [bind].
    intros H I B Sx Sy R Hy. destruct (handle_sane _ _ _ Sx Sy E) as [Tx Ty].
    destruct ev as [|k]; cbn [handle] in E.
    + apply (IH _ _ H (tick_serve_phase _ _ E I) (tick_between _ _ E Sx B) Tx Ty
                (tick_rally _ _ E I B Sx Sy R)).
      apply (tick_height _ _ E); trivial.
      destruct R as (vx & vy & n & ux & uy & Hserve & Hn & Hux & Huy & Px & Py).
      rewrite (pm_mag _ _ Py).
      exact (proj2 (bounded_speeds vx vy n ux uy Hserve Hn Hux Huy)).
    + injection E as <-. destruct (keys_ball k s) as (Ex & Ey & Evx & Evy).
      apply (IH _ _ H); trivial.
      * unfold serve_phase. rewrite Ex, Ey, Evx, Evy. exact I.
      * rewrite Ex. exact B.
      * unfold rally. rewrite Evx, Evy. exact R.
      * rewrite Ey. exact Hy.
Qed.

(** X15. The stored [y] of a reachable state is never a NaN: the vertical
    step stays finite, so no sum of the tick is an infinity minus an
    infinity, and each test of [bouleY] against a wall or a paddle edge
    compares two numbers. *)
Theorem height_is_a_number s :
  reachable s ->
  is_number (bouleY s) = true /\
  forall k, cmp (bouleY s) (PInt k) <> None /\ cmp (PInt k) (bouleY s) <> None.
Proof.
  intros [evs H].
  pose proof (run_height _ _ _ H serve_phase_init eq_refl eq_refl eq_refl rally_init eq_refl)
    as Hy.
  split; [exact Hy|]. intros k.
  destruct (bouleY s) as [y | f]; cbn [cmp]; [split; discriminate|].
  destruct f as [sf | sf | | sf mf ef]; cbn [cmp_int option_map]; try discriminate;
    split; discriminate.
Qed.

(** The rally of [rally_start] again, from the very start: after 187 ticks
    the log reads two hits on the first serve. *)
Lemma rally_has_few_hits_witness :
  exists s,
    run (rally_keys ++ repeat Tick 187) init = Some s /\
    log_run (rally_keys ++ repeat Tick 187) init (mkLog 4 6 0) = mkLog 4 6 2 /\
    exists ux uy,
      speed 2 (PInt 4) = Some ux /\ speed 2 (PInt 6) = Some uy /\
      (plusX s = ux \/ plusX s = neg ux) /\ (plusY s = uy \/ plusY s = neg uy).
Proof.
  let r := eval vm_compute in (run (rally_keys ++ repeat Tick 187) init) in
  lazymatch r with
  | Some ?s => exists s
  end.
  assert (Hr : forall A B : Prop, A -> (A -> B) -> A /\ B) by (intros A B a f; auto).
  apply Hr; [vm_compute; reflexivity | intros Hrun].
  apply Hr; [vm_compute; reflexivity | intros Hlog].
  pose proof (proj2 (rally_has_few_hits _ _ Hrun)) as H.
  rewrite Hlog in H. exact H.
Defined.

(** A goal empties the log: after the first goal the rally is that of the
    serve (2, 3), with no hit yet. *)
Example log_after_first_goal :
  run (repeat Tick 77) init = Some first_goal /\
  log_run (repeat Tick 76) init (mkLog 4 6 0) = mkLog 4 6 0 /\
  log_run (repeat Tick 77) init (mkLog 4 6 0) = mkLog 2 3 0.
Proof. repeat split; vm_compute; reflexivity. Qed.

Lemma speed_is_bounded_witness :
  mag_le (mag (plusX first_hit)) (MFin 635 0) = true /\
  mag_le (mag (plusY first_hit)) (MFin 953 0) = true.
Proof. exact (speed_is_bounded first_hit first_hit_reachable). Defined.

Lemma height_is_a_number_witness :
  is_number (bouleY first_hit) = true /\
  forall k, cmp (bouleY first_hit) (PInt k) <> None /\ cmp (PInt k) (bouleY first_hit) <> None.
Proof. exact (height_is_a_number first_hit first_hit_reachable). Defined.
